(** * gemini-code-flow: rate limiter, validator, path security,
      task queue and memory store

    A shallow embedding of the TypeScript sources
    [src/utils/rate-limiter.ts], [src/utils/validation.ts] and
    [src/utils/path-security.ts], together with models of the task queue and
    the memory store, and the properties the specification states about
    them.

    Conventions.
    - A JavaScript number that holds a timestamp, a length or a count is an
      integer of [Z].
    - A JavaScript string is the list of its UTF-16 code units ([jsstring]).
    - [Date.now()] and the timers are an explicit environment: a clock and
      the list of the delays by which successive suspensions overshoot. *)

From Stdlib Require Import String Ascii.
From Stdlib Require Import ZArith NArith List Bool Lia.
From Stdlib Require Import Sorting.Sorted Sorting.Permutation.
Import ListNotations.

Open Scope Z_scope.

(* ================================================================== *)
(** * JavaScript strings *)
(* ================================================================== *)

Module JS.

(** A string is its sequence of UTF-16 code units. *)
Definition jsstring := list N.

(** The code units of an ASCII literal. *)
Definition lit (s : string) : jsstring :=
  map N_of_ascii (list_ascii_of_string s).

Definition unit_eqb (a b : N) : bool := N.eqb a b.

Fixpoint str_eqb (a b : jsstring) : bool :=
  match a, b with
  | [], [] => true
  | x :: a', y :: b' => unit_eqb x y && str_eqb a' b'
  | _, _ => false
  end.

(** [String.prototype.startsWith]. *)
Fixpoint startsWith (s prefix : jsstring) {struct prefix} : bool :=
  match prefix with
  | [] => true
  | p :: prefix' =>
      match s with
      | c :: s' => unit_eqb c p && startsWith s' prefix'
      | [] => false
      end
  end.

(** [String.prototype.includes]: some suffix of [s] starts with [needle]. *)
Fixpoint includes (s needle : jsstring) : bool :=
  startsWith s needle ||
  match s with
  | [] => false
  | _ :: s' => includes s' needle
  end.

(** [String.prototype.toLowerCase] on the code units of ASCII letters.
    Code units outside ASCII never lower to one of the ASCII letters the
    program searches for next to the letters it needs around them, so they
    are left as they are. *)
Definition lower_unit (c : N) : N :=
  if (65 <=? c)%N && (c <=? 90)%N then (c + 32)%N else c.

Definition toLowerCase (s : jsstring) : jsstring := map lower_unit s.

End JS.

(* ================================================================== *)
(** * The rate limiter ([src/utils/rate-limiter.ts]) *)
(* ================================================================== *)

Module RateLimiter.

Import JS.

(** [RateLimiterConfig], with the optional fields already defaulted as the
    constructor does. *)
Record RateLimiterConfig := mkConfig {
  maxRequests : Z;
  windowMs : Z;
  maxRetries : Z;
  retryDelayMs : Z
}.

(** The constructor: [maxRetries ?? 3], [retryDelayMs ?? 1000]. *)
Definition config (maxReq window : Z) (retries delayMs : option Z)
  : RateLimiterConfig :=
  {| maxRequests := maxReq;
     windowMs := window;
     maxRetries := match retries with Some r => r | None => 3 end;
     retryDelayMs := match delayMs with Some d => d | None => 1000 end |}.

(** The mutable fields of the object. *)
Record Limiter := mkLimiter {
  requests : list Z;
  lastCleanup : Z
}.

Definition cleanupInterval : Z := 10000.

Definition create : Limiter := {| requests := []; lastCleanup := 0 |}.

(** The loop of [cleanupOldRequests] that counts the leading timestamps
    below the cutoff. *)
Fixpoint removeCount (cutoff : Z) (reqs : list Z) : nat :=
  match reqs with
  | t :: rest => if t <? cutoff then S (removeCount cutoff rest) else O
  | [] => O
  end.

(** [cleanupOldRequests(now)]: [splice(0, removeCount)]. *)
Definition cleanupOldRequests (cfg : RateLimiterConfig) (now : Z)
  (reqs : list Z) : list Z :=
  skipn (removeCount (now - windowMs cfg) reqs) reqs.

(** The quick cleanup: [shift()] while the first timestamp is at least one
    window old. *)
Fixpoint shiftExpired (cfg : RateLimiterConfig) (now : Z) (reqs : list Z)
  : list Z :=
  match reqs with
  | t :: rest =>
      if now - t >=? windowMs cfg then shiftExpired cfg now rest else reqs
  | [] => []
  end.

(** The first statement of [checkLimit]: one of the two cleanups. *)
Definition purge (cfg : RateLimiterConfig) (now : Z) (l : Limiter) : Limiter :=
  if now - lastCleanup l >? cleanupInterval
  then {| requests := cleanupOldRequests cfg now (requests l);
          lastCleanup := now |}
  else {| requests := shiftExpired cfg now (requests l);
          lastCleanup := lastCleanup l |}.

Definition push (now : Z) (l : Limiter) : Limiter :=
  {| requests := requests l ++ [now]; lastCleanup := lastCleanup l |}.

(** One pass through the body of [checkLimit] at clock reading [now]: either
    the request is registered, or the caller must sleep and call again. *)
Inductive outcome :=
| Registered (l : Limiter)
| Sleep (waitTime : Z) (l : Limiter).

Definition checkLimit_once (cfg : RateLimiterConfig) (now : Z) (l : Limiter)
  : outcome :=
  let l1 := purge cfg now l in
  if Z.of_nat (length (requests l1)) >=? maxRequests cfg then
    match requests l1 with
    | oldestRequest :: _ =>
        let waitTime := oldestRequest + windowMs cfg - now in
        if waitTime >? 0 then Sleep waitTime l1 else Registered (push now l1)
    | [] =>
        (* requests[0] is undefined, waitTime is NaN and NaN > 0 is false *)
        Registered (push now l1)
    end
  else Registered (push now l1).

Definition limiter_of (o : outcome) : Limiter :=
  match o with Registered l | Sleep _ l => l end.

(** ** The environment: clock, timers and a log of what happened *)

Inductive site := LimitWait | RetryBackoff.

Inductive event :=
| EvRegister (timestamp : Z)
| EvDelay (s : site) (ms : Z)
| EvCall (index : nat).

(** [lag] lists by how much each coming suspension (a timer, a call of the
    wrapped function) overshoots; when it runs out, suspensions are exact. *)
Record Env := mkEnv {
  clock : Z;
  lag : list nat;
  calls : nat;
  log : list event
}.

Definition elapse (ms : Z) (e : Env) : Env :=
  {| clock := clock e + Z.max 0 ms + Z.of_nat (hd O (lag e));
     lag := tl (lag e);
     calls := calls e;
     log := log e |}.

Definition record (ev : event) (e : Env) : Env :=
  {| clock := clock e; lag := lag e; calls := calls e;
     log := log e ++ [ev] |}.

(** [delay(ms)]: a timer that fires no earlier than [ms] from now. *)
Definition delay (s : site) (ms : Z) (e : Env) : Env :=
  elapse ms (record (EvDelay s ms) e).

(** [checkLimit()], with the recursion after a wait bounded by [fuel]. *)
Fixpoint checkLimit_fuel (fuel : nat) (cfg : RateLimiterConfig)
  (e : Env) (l : Limiter) : option (Env * Limiter) :=
  match fuel with
  | O => None
  | S fuel' =>
      match checkLimit_once cfg (clock e) l with
      | Registered l' => Some (record (EvRegister (clock e)) e, l')
      | Sleep waitTime l' =>
          checkLimit_fuel fuel' cfg (delay LimitWait waitTime e) l'
      end
  end.

(** Every wait ends with the oldest timestamp expired, so one pass per stored
    timestamp and one more are enough. *)
Definition checkLimit (cfg : RateLimiterConfig) (e : Env) (l : Limiter)
  : option (Env * Limiter) :=
  checkLimit_fuel (S (length (requests l))) cfg e l.

(** ** [execute] *)

(** What a rejected promise carries: an [Error] with its message, or any
    other value. *)
Inductive thrown :=
| ErrorObject (message : jsstring)
| OtherValue (tag : N).

Definition isRateLimitError (error : thrown) : bool :=
  match error with
  | ErrorObject msg =>
      let message := toLowerCase msg in
      includes message (lit "rate limit") ||
      includes message (lit "quota exceeded") ||
      includes message (lit "429") ||
      includes message (lit "too many requests")
  | OtherValue _ => false
  end.

(** The wrapped function [fn]: how its [k]-th invocation settles. *)
Definition script (T : Type) := nat -> T + thrown.

(** [await fn()]: the call is logged, counted, and takes some time. *)
Definition invoke {T : Type} (fn : script T) (e : Env) : (T + thrown) * Env :=
  (fn (calls e),
   elapse 0 {| clock := clock e; lag := lag e; calls := S (calls e);
               log := log e ++ [EvCall (calls e)] |}).

Fixpoint execute_fuel {T : Type} (fuel : nat) (cfg : RateLimiterConfig)
  (fn : script T) (retryCount : nat) (e : Env) (l : Limiter)
  : option ((T + thrown) * Env * Limiter) :=
  match fuel with
  | O => None
  | S fuel' =>
      match checkLimit cfg e l with
      | None => None
      | Some (e1, l1) =>
          let '(settled, e2) := invoke fn e1 in
          match settled with
          | inl value => Some (inl value, e2, l1)
          | inr error =>
              if isRateLimitError error
                 && (Z.of_nat retryCount <? maxRetries cfg)
              then
                let delayMs := retryDelayMs cfg * 2 ^ Z.of_nat retryCount in
                execute_fuel fuel' cfg fn (S retryCount)
                  (delay RetryBackoff delayMs e2) l1
              else Some (inr error, e2, l1)
          end
      end
  end.

(** [execute(fn, retryCount)]: at most [maxRetries - retryCount] further
    calls follow the first one. *)
Definition execute {T : Type} (cfg : RateLimiterConfig) (fn : script T)
  (retryCount : nat) (e : Env) (l : Limiter)
  : option ((T + thrown) * Env * Limiter) :=
  execute_fuel (S (Z.to_nat (maxRetries cfg - Z.of_nat retryCount)))
    cfg fn retryCount e l.

(** ** Sequences of calls on one limiter *)

Inductive call :=
| CallCheckLimit
| CallExecute (T : Type) (fn : script T).

Definition perform (cfg : RateLimiterConfig) (c : call) (e : Env) (l : Limiter)
  : option (Env * Limiter) :=
  match c with
  | CallCheckLimit => checkLimit cfg e l
  | CallExecute T fn =>
      match execute cfg fn O e l with
      | Some (_, e', l') => Some (e', l')
      | None => None
      end
  end.

(** Calls made one after the other, some time passing before each. *)
Fixpoint performAll (cfg : RateLimiterConfig) (cs : list call)
  (e : Env) (l : Limiter) : option (Env * Limiter) :=
  match cs with
  | [] => Some (e, l)
  | c :: rest =>
      match perform cfg c (elapse 0 e) l with
      | Some (e', l') => performAll cfg rest e' l'
      | None => None
      end
  end.

(** ** What the log shows *)

Fixpoint registeredOf (evs : list event) : list Z :=
  match evs with
  | EvRegister t :: rest => t :: registeredOf rest
  | _ :: rest => registeredOf rest
  | [] => []
  end.

Fixpoint backoffsOf (evs : list event) : list Z :=
  match evs with
  | EvDelay RetryBackoff ms :: rest => ms :: backoffsOf rest
  | _ :: rest => backoffsOf rest
  | [] => []
  end.

Fixpoint callsOf (evs : list event) : list nat :=
  match evs with
  | EvCall k :: rest => k :: callsOf rest
  | _ :: rest => callsOf rest
  | [] => []
  end.

(** The delays of [k] successive retries, the first made with retry count
    [retryCount]: [retryDelayMs * 2^retryCount], doubling each time. *)
Fixpoint backoffSchedule (cfg : RateLimiterConfig) (retryCount k : nat)
  : list Z :=
  match k with
  | O => []
  | S k' =>
      retryDelayMs cfg * 2 ^ Z.of_nat retryCount
      :: backoffSchedule cfg (S retryCount) k'
  end.

(** The timestamps of [ts] in the window of [windowMs] milliseconds that
    starts at [a]: [a <= t < a + windowMs]. *)
Definition inWindow (cfg : RateLimiterConfig) (a t : Z) : bool :=
  (a <=? t) && (t <? a + windowMs cfg).

Definition countIn (cfg : RateLimiterConfig) (a : Z) (ts : list Z) : Z :=
  Z.of_nat (length (filter (inWindow cfg a) ts)).

(** ** The operation as the specification words it

    "purges timestamps older than now - windowMs; if the remaining count is
    at least maxRequests, suspends until oldest + windowMs, then re-checks;
    otherwise appends now and returns." *)





(** ** The invariant of a limiter

    [hist] is every timestamp registered so far and [now] the last clock
    reading: the stored list is what is left of [hist] after dropping
    expired timestamps, nothing was registered more than a cleanup interval
    after the last full cleanup, and no window holds more than
    [maxRequests] timestamps. *)
Record Inv (cfg : RateLimiterConfig) (now : Z) (l : Limiter) (hist : list Z)
  : Prop := mkInv {
  inv_suffix : exists old,
      hist = old ++ requests l /\
      Forall (fun t => t <= now - windowMs cfg) old;
  inv_recent : Forall (fun t => t <= lastCleanup l + cleanupInterval) hist;
  inv_window : forall a, countIn cfg a hist <= maxRequests cfg;
  inv_sorted : StronglySorted Z.le hist;
  inv_past : Forall (fun t => t <= now) hist
}.
(** The invariant, read off the environment. *)
Definition EInv (cfg : RateLimiterConfig) (e : Env) (l : Limiter) : Prop :=
  Inv cfg (clock e) l (registeredOf (log e)).

(** ** [getStats] and the default limits *)

Record UsageStats := mkUsageStats {
  currentRequests : Z;
  statsMaxRequests : Z;
  statsWindowMs : Z
}.

(** [getStats()] at clock reading [now]. *)
Definition getStats (cfg : RateLimiterConfig) (now : Z) (l : Limiter)
  : UsageStats :=
  let activeRequests :=
    filter (fun timestamp => now - timestamp <? windowMs cfg) (requests l) in
  {| currentRequests := Z.of_nat (length activeRequests);
     statsMaxRequests := maxRequests cfg;
     statsWindowMs := windowMs cfg |}.

(** [GEMINI_RATE_LIMITS.personal] and [GEMINI_RATE_LIMITS.daily]. *)
Definition personalLimits : RateLimiterConfig :=
  config 60 (60 * 1000) None None.

Definition dailyLimits : RateLimiterConfig :=
  config 1000 (24 * 60 * 60 * 1000) None None.

(** ** The trace of [execute]

    An attempt is told by the waits for the limit that came before it and
    the clock reading at which it was registered and [fn] invoked.  It
    leaves in the log those waits, the registration and the call. *)
Definition attemptEvents (a : list Z * Z) (index : nat) : list event :=
  map (EvDelay LimitWait) (fst a) ++ [EvRegister (snd a); EvCall index].

(** Attempts one after the other, with the retry delay of the schedule
    between each attempt and the next. *)
Fixpoint retryTrace (cfg : RateLimiterConfig) (index retryCount : nat)
  (first : list Z * Z) (rest : list (list Z * Z)) : list event :=
  attemptEvents first index ++
  match rest with
  | [] => []
  | next :: rest' =>
      EvDelay RetryBackoff (retryDelayMs cfg * 2 ^ Z.of_nat retryCount)
      :: retryTrace cfg (S index) (S retryCount) next rest'
  end.

(** The time between attempts: each attempt after the one made at [t] is
    made no earlier than the one before it plus the delay of the schedule
    (a timer set to a negative delay fires at once). *)
Fixpoint spaced (cfg : RateLimiterConfig) (retryCount : nat) (t : Z)
  (rest : list (list Z * Z)) : Prop :=
  match rest with
  | [] => True
  | next :: rest' =>
      t + Z.max 0 (retryDelayMs cfg * 2 ^ Z.of_nat retryCount) <= snd next /\
      spaced cfg (S retryCount) (snd next) rest'
  end.

End RateLimiter.

(* ================================================================== *)
(** * The validator ([Validator] in [src/utils/validation.ts]) *)
(* ================================================================== *)

Module Validator.

Import JS.

(** The values a caller can pass where the types say [string]. *)
Inductive jsvalue :=
| JSUndefined
| JSNull
| JSBoolean (b : bool)
| JSNumber (n : Z)
| JSString (s : jsstring)
| JSObject.

(** [!v] *)
Definition falsy (v : jsvalue) : bool :=
  match v with
  | JSUndefined | JSNull => true
  | JSBoolean b => negb b
  | JSNumber n => n =? 0
  | JSString s => match s with [] => true | _ => false end
  | JSObject => false
  end.

(** [typeof v !== 'string'] *)
Definition notString (v : jsvalue) : bool :=
  match v with JSString _ => false | _ => true end.

Inductive ValidationError :=
| mkValidationError (message : string) (field : string).

(** White space and line terminators: what [trim] strips and [\s] matches. *)
Definition isWhiteSpace (c : N) : bool :=
  ((9 <=? c) && (c <=? 13) || (c =? 32) || (c =? 160) || (c =? 5760)
   || (8192 <=? c) && (c <=? 8202) || (c =? 8232) || (c =? 8233)
   || (c =? 8239) || (c =? 8287) || (c =? 12288) || (c =? 65279))%N.

Fixpoint trimStart (s : jsstring) : jsstring :=
  match s with
  | c :: s' => if isWhiteSpace c then trimStart s' else s
  | [] => []
  end.

Definition trimEnd (s : jsstring) : jsstring := rev (trimStart (rev s)).

(** [String.prototype.trim]. *)
Definition trim (s : jsstring) : jsstring := trimEnd (trimStart s).

(** ** The regular expressions of [validateTaskDescription]

    The constructs the five patterns use, all under the [i] flag. *)
Inductive regex :=
| Chr (c : N)            (* a literal character *)
| NotChr (c : N)         (* [^c] *)
| Space                  (* \s *)
| WordBoundary           (* \b *)
| Seq (r1 r2 : regex)
| Star (r : regex)       (* r* *)
| NotAhead (r : regex).  (* (?!r) *)

(** Canonicalization under [i] without [u]: upper case, and a code unit
    outside ASCII never becomes an ASCII one. *)
Definition canon (c : N) : N :=
  if (97 <=? c)%N && (c <=? 122)%N then (c - 32)%N else c.

(** [\w] *)
Definition isWordChar (c : N) : bool :=
  ((48 <=? c) && (c <=? 57) || (65 <=? c) && (c <=? 90)
   || (97 <=? c) && (c <=? 122) || (c =? 95))%N.

Definition isWordBefore (prev : option N) : bool :=
  match prev with Some c => isWordChar c | None => false end.

Definition isWordAfter (s : jsstring) : bool :=
  match s with c :: _ => isWordChar c | [] => false end.

(** A backtracking matcher in continuation style.  [prev] is the character
    before the current position, [s] what is left of the input, [k] what
    must match after [r].  [fuel] bounds the iterations of a star; the
    length of the input is enough, since the starred expressions here
    consume a character at each iteration.  A star tries one more
    iteration before it tries what follows, as the greedy star of the
    source does. *)
Fixpoint matchRe (r : regex) (fuel : nat) (prev : option N) (s : jsstring)
  (k : option N -> jsstring -> bool) {struct r} : bool :=
  match r with
  | Chr c =>
      match s with
      | d :: s' => if N.eqb (canon d) (canon c) then k (Some d) s' else false
      | [] => false
      end
  | NotChr c =>
      match s with
      | d :: s' => if N.eqb (canon d) (canon c) then false else k (Some d) s'
      | [] => false
      end
  | Space =>
      match s with
      | d :: s' => if isWhiteSpace d then k (Some d) s' else false
      | [] => false
      end
  | WordBoundary =>
      if xorb (isWordBefore prev) (isWordAfter s) then k prev s else false
  | Seq r1 r2 =>
      matchRe r1 fuel prev s (fun prev' s' => matchRe r2 fuel prev' s' k)
  | Star r0 =>
      (fix iterate (n : nat) (prev : option N) (s : jsstring) : bool :=
         match n with
         | O => k prev s
         | S n' =>
             if matchRe r0 fuel prev s (iterate n') then true else k prev s
         end) fuel prev s
  | NotAhead r0 =>
      if matchRe r0 fuel prev s (fun _ _ => true) then false else k prev s
  end.

(** A match that starts at the current position or at a later one. *)
Fixpoint searchRe (r : regex) (fuel : nat) (prev : option N) (s : jsstring)
  : bool :=
  if matchRe r fuel prev s (fun _ _ => true) then true
  else
    match s with
    | c :: s' => searchRe r fuel (Some c) s'
    | [] => false
    end.

(** [pattern.test(s)] on a freshly created pattern. *)
Definition test (r : regex) (s : jsstring) : bool :=
  searchRe r (length s) None s.

(** A literal string as a pattern; [tail] is what follows it. *)
Fixpoint literal (chars : jsstring) (tail : regex) : regex :=
  match chars with
  | [] => tail
  | c :: rest => Seq (Chr c) (literal rest tail)
  end.

Definition closeScript : regex :=
  literal (lit "</script") (Chr 62).

(** The first pattern: [<script], a word boundary, a run of characters
    other than [<], then any number of groups made of a [<] that does not
    begin [</script>] and a run of characters other than [<], and at last
    [</script>]. *)
Definition scriptPattern : regex :=
  literal (lit "<script")
    (Seq WordBoundary
       (Seq (Star (NotChr 60))
          (Seq (Star (Seq (NotAhead closeScript)
                        (Seq (Chr 60) (Star (NotChr 60)))))
             closeScript))).

(** [/javascript:/gi] *)
Definition javascriptPattern : regex := literal (lit "javascript") (Chr 58).

(** [/data:text\/html/gi] *)
Definition dataHtmlPattern : regex := literal (lit "data:text/htm") (Chr 108).

(** [/eval\s*\(/gi] *)
Definition evalPattern : regex :=
  literal (lit "eval") (Seq (Star Space) (Chr 40)).

(** [/function\s*\(/gi] *)
Definition functionPattern : regex :=
  literal (lit "function") (Seq (Star Space) (Chr 40)).

Definition suspiciousPatterns : list regex :=
  [scriptPattern; javascriptPattern; dataHtmlPattern; evalPattern;
   functionPattern].

Definition validateTaskDescription (description : jsvalue)
  : jsstring + ValidationError :=
  if falsy description || notString description then
    inr (mkValidationError
           "Task description is required and must be a string" "description")
  else
    match description with
    | JSString s =>
        let trimmed := trim s in
        if Nat.eqb (length trimmed) 0 then
          inr (mkValidationError
                 "Task description cannot be empty" "description")
        else if 10000 <? Z.of_nat (length trimmed) then
          inr (mkValidationError
                 "Task description cannot exceed 10,000 characters"
                 "description")
        else if existsb (fun pattern => test pattern trimmed)
                  suspiciousPatterns then
          inr (mkValidationError
                 "Task description contains potentially unsafe content"
                 "description")
        else inl trimmed
    | _ => inr (mkValidationError
                  "Task description is required and must be a string"
                  "description")
    end.

(** ** [sanitizeString] *)

(** [input.slice(0, maxLength)]: a negative end counts from the end of the
    string. *)
Definition slice0 (input : jsstring) (maxLength : Z) : jsstring :=
  if maxLength <? 0
  then firstn (Z.to_nat (Z.of_nat (length input) + maxLength)) input
  else firstn (Z.to_nat maxLength) input.

(** [/[\x00-\x08\x0B\x0C\x0E-\x1F\x7F]/] *)
Definition isControl (c : N) : bool :=
  ((c <=? 8) || (c =? 11) || (c =? 12) || (14 <=? c) && (c <=? 31)
   || (c =? 127))%N.

(** The replacement callback for the five characters less-than,
    greater-than, ampersand, double quote and single quote. *)
Definition escapeChar (c : N) : jsstring :=
  if (c =? 60)%N then lit "&lt;"
  else if (c =? 62)%N then lit "&gt;"
  else if (c =? 38)%N then lit "&amp;"
  else if (c =? 34)%N then lit "&quot;"
  else if (c =? 39)%N then lit "&#x27;"
  else [c].

Definition sanitizeString (input : jsvalue) (maxLength : Z) : jsstring :=
  if falsy input || notString input then []
  else
    match input with
    | JSString s =>
        flat_map escapeChar
          (filter (fun c => negb (isControl c)) (slice0 s maxLength))
    | _ => []
    end.

(** The tails of the five entities, after their ampersand. *)
Definition entityTails : list jsstring :=
  [lit "lt;"; lit "gt;"; lit "amp;"; lit "quot;"; lit "#x27;"].

Definition isMarkup (c : N) : bool :=
  ((c =? 60) || (c =? 62) || (c =? 34) || (c =? 39))%N.

(** The default of the second parameter. *)
Definition defaultMaxLength : Z := 1000.

(** ** [validateApiKey] *)

(** [[a-zA-Z0-9\-_.]] *)
Definition isKeyChar (c : N) : bool :=
  ((97 <=? c) && (c <=? 122) || (65 <=? c) && (c <=? 90)
   || (48 <=? c) && (c <=? 57) || (c =? 45) || (c =? 95) || (c =? 46))%N.

Definition validateApiKey (apiKey : jsvalue) : jsstring + ValidationError :=
  if falsy apiKey || notString apiKey then
    inr (mkValidationError "API key is required and must be a string"
           "apiKey")
  else
    match apiKey with
    | JSString s =>
        let trimmed := trim s in
        if Z.of_nat (length trimmed) <? 10 then
          inr (mkValidationError "API key appears to be too short" "apiKey")
        else if 200 <? Z.of_nat (length trimmed) then
          inr (mkValidationError "API key appears to be too long" "apiKey")
        else if negb (match trimmed with
                      | [] => false
                      | _ => forallb isKeyChar trimmed
                      end) then
          inr (mkValidationError "API key contains invalid characters"
                 "apiKey")
        else inl trimmed
    | _ => inr (mkValidationError "API key is required and must be a string"
                  "apiKey")
    end.

(** ** [validateParallelCount] *)

(** The argument, of type [string | number]; the numbers are the integers. *)
Inductive countArg :=
| CountString (s : jsstring)
| CountNumber (n : Z).

Fixpoint leadingDigits (acc : option Z) (s : jsstring) : option Z :=
  match s with
  | c :: rest =>
      if (48 <=? c)%N && (c <=? 57)%N
      then leadingDigits
             (Some (match acc with Some a => a | None => 0 end * 10
                    + (Z.of_N c - 48))) rest
      else acc
  | [] => acc
  end.

(** [parseInt(s, 10)]: white space is skipped, a sign is read, then the
    digits up to the first other character; [None] is [NaN].  The value is
    exact as long as it has no more than fifteen digits. *)
Definition parseInt10 (s : jsstring) : option Z :=
  match trimStart s with
  | c :: rest =>
      if N.eqb c 45 then
        match leadingDigits None rest with
        | Some v => Some (- v)
        | None => None
        end
      else if N.eqb c 43 then leadingDigits None rest
      else leadingDigits None (c :: rest)
  | [] => None
  end.

Definition validateParallelCount (count : countArg) : Z + ValidationError :=
  match (match count with
         | CountString s => parseInt10 s
         | CountNumber n => Some n
         end) with
  | None =>
      inr (mkValidationError "Parallel count must be a valid number"
             "parallel")
  | Some num =>
      if num <? 1 then
        inr (mkValidationError "Parallel count must be at least 1" "parallel")
      else if 20 <? num then
        inr (mkValidationError
               "Parallel count cannot exceed 20 (API rate limits)" "parallel")
      else inl num
  end.

(** Equal up to the case of ASCII letters. *)
Definition sameIgnoringCase (a b : jsstring) : Prop :=
  map canon a = map canon b.

(** [s] has a run of consecutive characters that satisfies [P]. *)
Definition occurs (P : jsstring -> Prop) (s : jsstring) : Prop :=
  exists pre mid post, s = pre ++ mid ++ post /\ P mid.

(** [name] in any case, then any white space, then an opening
    parenthesis. *)
Definition callOf (name : jsstring) (mid : jsstring) : Prop :=
  exists word ws,
    mid = word ++ ws ++ [40%N] /\ sameIgnoringCase word name /\
    Forall (fun c => isWhiteSpace c = true) ws.

(** None of the characters that [sanitizeString] removes or escapes. *)
Definition isPlain (c : N) : bool :=
  negb (isControl c) && negb (isMarkup c) && negb (N.eqb c 38).

End Validator.

(* ================================================================== *)
(** * Path security ([src/utils/path-security.ts]) *)
(* ================================================================== *)

Module PathSecurity.

Import JS.
Import Validator.

Inductive PathSecurityError :=
| mkPathSecurityError (message : string) (attemptedPath : option jsvalue).

(** How an asynchronous function ends: with a value, with a
    [PathSecurityError], or with an error of the file system that nothing
    caught. *)
Inductive outcome (A : Type) :=
| Returned (a : A)
| Raised (e : PathSecurityError)
| FsFailure.

Arguments Returned {A} a.
Arguments Raised {A} e.
Arguments FsFailure {A}.

(** [fs.Stats], as far as it is read. *)
Record Stats := mkStats {
  isFile : bool;
  size : Z
}.

(** The file system at the time of the call.  [None] is a rejected
    promise. *)
Record FileSystem := mkFileSystem {
  realpath : jsstring -> option jsstring;
  stat : jsstring -> option Stats;
  accessRead : jsstring -> bool;
  accessWrite : jsstring -> bool
}.

(** Node's [path] module and the string functions of the host, taken as
    they are. *)
Record Host := mkHost {
  sep : jsstring;
  normalize : jsstring -> jsstring;
  resolve : jsstring -> jsstring -> jsstring;
  extname : jsstring -> jsstring;
  lowerCase : jsstring -> jsstring
}.

(** The [options] argument; [None] is an absent field. *)
Record Options := mkOptions {
  mustExist : option bool;
  maxSize : option Z;
  allowedExtensions : option (list jsstring);
  requireReadable : option bool;
  requireWritable : option bool
}.

Definition noOptions : Options :=
  {| mustExist := None; maxSize := None; allowedExtensions := None;
     requireReadable := None; requireWritable := None |}.

Definition orDefault {A : Type} (o : option A) (d : A) : A :=
  match o with Some a => a | None => d end.

(** [e.startsWith('.') ? e.toLowerCase() : `.${e.toLowerCase()}`] *)
Definition normalizeExtension (h : Host) (e : jsstring) : jsstring :=
  if startsWith e (lit ".") then lowerCase h e else lit "." ++ lowerCase h e.

(** The checks made on an existing file, inside the inner [try]. *)
Definition checkExisting (h : Host) (fs : FileSystem) (inputPath : jsvalue)
  (realPath : jsstring) (opts : Options) : outcome jsstring :=
  match stat fs realPath with
  | None =>
      Raised (mkPathSecurityError "Cannot access file" (Some inputPath))
  | Some stats =>
      if negb (isFile stats) then
        Raised (mkPathSecurityError "Path is not a regular file"
                  (Some inputPath))
      else if negb (orDefault (maxSize opts) 10485760 =? 0)
              && (size stats >? orDefault (maxSize opts) 10485760) then
        Raised (mkPathSecurityError "File too large" (Some inputPath))
      else if match allowedExtensions opts with
              | Some (e :: es) =>
                  negb (existsb
                          (str_eqb (lowerCase h (extname h realPath)))
                          (map (normalizeExtension h) (e :: es)))
              | _ => false
              end then
        Raised (mkPathSecurityError "File extension not allowed"
                  (Some inputPath))
      else if orDefault (requireReadable opts) true
              && negb (accessRead fs realPath) then
        Raised (mkPathSecurityError "File not readable" (Some inputPath))
      else if orDefault (requireWritable opts) false
              && negb (accessWrite fs realPath) then
        Raised (mkPathSecurityError "File not writable" (Some inputPath))
      else Returned realPath
  end.

(** The containment test: the path is the base directory or lies under
    it. *)
Definition within (h : Host) (realBaseDir realPath : jsstring) : bool :=
  startsWith realPath (realBaseDir ++ sep h) || str_eqb realPath realBaseDir.

Definition resolveSafePath (h : Host) (fs : FileSystem) (inputPath : jsvalue)
  (baseDir : jsstring) (opts : Options) : outcome jsstring :=
  if falsy inputPath || notString inputPath then
    Raised (mkPathSecurityError "Path must be a non-empty string" None)
  else
    match inputPath with
    | JSString path =>
        let normalizedPath := normalize h path in
        let resolvedPath := resolve h baseDir normalizedPath in
        let exists_ := orDefault (mustExist opts) true in
        (* the outer try and its catch *)
        match realpath fs baseDir with
        | None =>
            if exists_ then
              Raised (mkPathSecurityError "Path does not exist"
                        (Some inputPath))
            else FsFailure
        | Some realBaseDir =>
            match (if exists_ then realpath fs resolvedPath
                   else Some resolvedPath) with
            | None =>
                Raised (mkPathSecurityError "Path does not exist"
                          (Some inputPath))
            | Some realPath =>
                if negb (within h realBaseDir realPath) then
                  Raised (mkPathSecurityError
                            "Path traversal attempt detected"
                            (Some inputPath))
                else if exists_ then
                  checkExisting h fs inputPath realPath opts
                else Returned realPath
            end
        end
    | _ => Raised (mkPathSecurityError "Path must be a non-empty string" None)
    end.

(** A small host and file system to run the functions on: paths are joined
    with [/] and every path is a readable regular file of ten bytes that is
    its own real path. *)
Definition exampleHost : Host :=
  {| sep := lit "/";
     normalize := fun p => p;
     resolve := fun base p => base ++ lit "/" ++ p;
     extname := fun _ => lit ".txt";
     lowerCase := toLowerCase |}.

Definition exampleFs : FileSystem :=
  {| realpath := fun p => Some p;
     stat := fun _ => Some {| isFile := true; size := 10 |};
     accessRead := fun _ => true;
     accessWrite := fun _ => false |}.

(** A file system in which [/base/dir_out] is a symbolic link to
    [/outside]: the real path of a path under [/base/dir_out/] is the path
    under [/outside/] and every other path is its own real path. *)
Definition symlinkFs : FileSystem :=
  {| realpath := fun p =>
       if startsWith p (lit "/base/dir_out/")
       then Some (lit "/outside/"
                  ++ skipn (length (lit "/base/dir_out/")) p)
       else Some p;
     stat := fun _ => Some {| isFile := true; size := 10 |};
     accessRead := fun _ => true;
     accessWrite := fun _ => false |}.

(** ** [createSafeOutputPath] *)

(** The first replacement: the characters [<], [>], [:], double quote,
    [/], backslash, [|], [?], [*] and the control characters up to
    [\x1f]. *)
Definition isDangerous (c : N) : bool :=
  ((c =? 60) || (c =? 62) || (c =? 58) || (c =? 34) || (c =? 47)
   || (c =? 92) || (c =? 124) || (c =? 63) || (c =? 42) || (c <=? 31))%N.

Definition replaceDangerous (s : jsstring) : jsstring :=
  map (fun c => if isDangerous c then 95%N else c) s.

(** The second replacement: each pair of dots, found from the left without
    overlap, becomes an underscore. *)
Fixpoint replaceDotDot (s : jsstring) : jsstring :=
  match s with
  | [] => []
  | c :: rest =>
      match rest with
      | d :: rest' =>
          if N.eqb c 46 && N.eqb d 46 then 95%N :: replaceDotDot rest'
          else c :: replaceDotDot rest
      | [] => [c]
      end
  end.

Fixpoint dropDots (s : jsstring) : jsstring :=
  match s with
  | c :: rest => if N.eqb c 46 then dropDots rest else s
  | [] => []
  end.

(** The third replacement: a run of dots at the start becomes one
    underscore. *)
Definition replaceLeadingDots (s : jsstring) : jsstring :=
  match s with
  | c :: _ => if N.eqb c 46 then 95%N :: dropDots s else s
  | [] => []
  end.

Definition sanitizeFilename (filename : jsstring) : jsstring :=
  trim (replaceLeadingDots (replaceDotDot (replaceDangerous filename))).

(** [join] is [path.join] and [cwd] the directory that [path.resolve]
    resolves a single argument against. *)
Definition createSafeOutputPath (h : Host)
  (join : jsstring -> jsstring -> jsstring) (cwd : jsstring)
  (baseDir : jsstring) (filename : jsvalue) (extension : jsstring)
  : outcome jsstring :=
  if falsy filename || notString filename then
    Raised (mkPathSecurityError "Filename must be a non-empty string" None)
  else
    match filename with
    | JSString name =>
        let sanitized := sanitizeFilename name in
        match sanitized with
        | [] =>
            Raised (mkPathSecurityError
                      "Filename cannot be sanitized to a valid name" None)
        | _ =>
            let safeExtension :=
              if startsWith extension (lit ".") then extension
              else lit "." ++ extension in
            let finalFilename := sanitized ++ safeExtension in
            let outputPath := join baseDir finalFilename in
            let resolvedOutput := resolve h cwd outputPath in
            let resolvedBase := resolve h cwd baseDir in
            if negb (within h resolvedBase resolvedOutput) then
              Raised (mkPathSecurityError
                        "Generated path would escape base directory" None)
            else Returned outputPath
        end
    | _ => Raised (mkPathSecurityError "Filename must be a non-empty string"
                     None)
    end.

(** ** [ensureSafeDirectory]

    [ensureDir] tells whether [fs.ensureDir] succeeds on a path. *)
Definition ensureSafeDirectory (h : Host) (fs : FileSystem)
  (ensureDir : jsstring -> bool) (cwd : jsstring)
  (dirPath : jsvalue) (baseDir : option jsstring) : outcome jsstring :=
  if falsy dirPath || notString dirPath then
    Raised (mkPathSecurityError "Directory path must be a non-empty string"
              None)
  else
    match dirPath with
    | JSString dir =>
        let base := match baseDir with
                    | Some (c :: b) => c :: b
                    | _ => cwd
                    end in
        let resolvedPath := resolve h base dir in
        if match baseDir with
           | Some (c :: b) =>
               negb (within h (resolve h cwd (c :: b)) resolvedPath)
           | _ => false
           end then
          Raised (mkPathSecurityError
                    "Directory path would escape base directory" None)
        else if ensureDir resolvedPath && accessWrite fs resolvedPath then
          Returned resolvedPath
        else
          Raised (mkPathSecurityError "Cannot create or access directory"
                    None)
    | _ => Raised (mkPathSecurityError
                     "Directory path must be a non-empty string" None)
    end.

(** ** [getSafeMimeType] and [isAllowedFileType] *)

Definition safeMimeTypes : list (jsstring * jsstring) :=
  [(lit ".png", lit "image/png");
   (lit ".jpg", lit "image/jpeg");
   (lit ".jpeg", lit "image/jpeg");
   (lit ".gif", lit "image/gif");
   (lit ".webp", lit "image/webp");
   (lit ".pdf", lit "application/pdf");
   (lit ".txt", lit "text/plain");
   (lit ".md", lit "text/markdown");
   (lit ".json", lit "application/json");
   (lit ".csv", lit "text/csv");
   (lit ".html", lit "text/html");
   (lit ".xml", lit "application/xml")].

Fixpoint tableLookup (key : jsstring) (table : list (jsstring * jsstring))
  : option jsstring :=
  match table with
  | [] => None
  | (k, v) :: rest => if str_eqb k key then Some v else tableLookup key rest
  end.

(** The keys of the table all begin with a dot, as every non-empty result of
    [path.extname] does; properties inherited by the object are not
    reached. *)
Definition getSafeMimeType (h : Host) (filePath : jsstring) : jsstring :=
  let ext := lowerCase h (extname h filePath) in
  match tableLookup ext safeMimeTypes with
  | Some mime => mime
  | None => lit "application/octet-stream"
  end.

Definition defaultAllowed : list jsstring :=
  [lit ".png"; lit ".jpg"; lit ".jpeg"; lit ".gif"; lit ".webp"; lit ".pdf";
   lit ".txt"; lit ".md"].

Definition isAllowedFileType (h : Host) (filePath : jsstring)
  (allowedTypes : list jsstring) : bool :=
  let ext := lowerCase h (extname h filePath) in
  let allowed := match allowedTypes with
                 | [] => defaultAllowed
                 | _ => allowedTypes
                 end in
  existsb (fun type =>
             if startsWith type (lit ".") then str_eqb type ext
             else str_eqb (lit "." ++ type) ext)
    allowed.

(** ** The file branch of [SparcCommand.executeSparc]
    ([src/commands/sparc.ts])

    The path given with [--file] is resolved under the working directory,
    its type is checked, and it is handed over with its MIME type. *)
Inductive attachment :=
| Attached (resolvedPath mimeType : jsstring)
| Unsupported
| Refused (e : PathSecurityError)
| Broken.

Definition sparcFileOptions : Options :=
  {| mustExist := Some true; maxSize := Some (10 * 1024 * 1024);
     allowedExtensions := None; requireReadable := Some true;
     requireWritable := None |}.

Definition attachFile (h : Host) (fs : FileSystem) (cwd : jsstring)
  (file : jsvalue) : attachment :=
  match resolveSafePath h fs file cwd sparcFileOptions with
  | Returned resolvedPath =>
      if negb (isAllowedFileType h resolvedPath []) then Unsupported
      else Attached resolvedPath (getSafeMimeType h resolvedPath)
  | Raised e => Refused e
  | FsFailure => Broken
  end.

(** [s] is a run of consecutive characters of [t]. *)
Definition segment (s t : jsstring) : Prop :=
  exists before after, t = before ++ s ++ after.

(** Two dots in a row somewhere in [s]. *)
Fixpoint hasDotDot (s : jsstring) : bool :=
  match s with
  | [] => false
  | c :: rest =>
      match rest with
      | d :: _ => (N.eqb c 46 && N.eqb d 46) || hasDotDot rest
      | [] => false
      end
  end.

End PathSecurity.

(* ================================================================== *)
(** * [src/utils/validation.ts]: [Validator.validateFilePath] *)
(* ================================================================== *)

Module ValidatorFiles.

Import JS.
Import Validator.
Import PathSecurity.

(** How [validateFilePath] ends: with the real path, with a
    [ValidationError] (its message without the directory or the path that
    the code puts at its end), or with an error of the file system that
    nothing caught. *)
Inductive checked :=
| Valid (realPath : jsstring)
| Invalid (e : ValidationError)
| Rejected.

(** The largest size accepted, ten mebibytes. *)
Definition maxFileSize : Z := 10 * 1024 * 1024.

(** [cwd] is [process.cwd()]; [workingDir] is [None] when the argument is
    left out. *)
Definition validateFilePath (h : Host) (fs : FileSystem) (cwd : jsstring)
  (filePath : jsvalue) (workingDir : option jsstring) : checked :=
  if falsy filePath || notString filePath then
    Invalid (mkValidationError "File path is required and must be a string"
               "filePath")
  else
    match filePath with
    | JSString file =>
        let baseDir := match workingDir with
                       | Some (c :: d) => c :: d
                       | _ => cwd
                       end in
        let resolvedPath := resolve h baseDir file in
        let realPath := match realpath fs resolvedPath with
                        | Some p => p
                        | None => resolvedPath
                        end in
        match realpath fs baseDir with
        | None => Rejected
        | Some realBaseDir =>
            if negb (startsWith realPath realBaseDir) then
              Invalid (mkValidationError
                         "File must be within the working directory"
                         "filePath")
            else if negb (accessRead fs realPath) then
              Invalid (mkValidationError "File not found or not readable"
                         "filePath")
            else
              match stat fs realPath with
              | None => Rejected
              | Some stats =>
                  if size stats >? maxFileSize then
                    Invalid (mkValidationError
                               "File size cannot exceed 10MB" "filePath")
                  else Valid realPath
              end
        end
    | _ => Invalid (mkValidationError
                      "File path is required and must be a string" "filePath")
    end.

End ValidatorFiles.

(* ================================================================== *)
(** * The task queue *)
(* ================================================================== *)

Module TaskQueue.

Inductive Priority := high | medium | low.

Inductive TaskStatus := pending | running | completed | failed.

(** [Task], as the test factory of [tests/helpers/index.ts] builds it. *)
Record Task := mkTask {
  id : string;
  description : string;
  mode : string;
  priority : Priority;
  dependencies : list string;
  status : TaskStatus;
  createdAt : Z;
  updatedAt : Z
}.

Definition withStatus (st : TaskStatus) (t : Task) : Task :=
  {| id := id t; description := description t; mode := mode t;
     priority := priority t; dependencies := dependencies t;
     status := st; createdAt := createdAt t; updatedAt := updatedAt t |}.

Definition status_eqb (a b : TaskStatus) : bool :=
  match a, b with
  | pending, pending | running, running
  | completed, completed | failed, failed => true
  | _, _ => false
  end.

(** Modelled from the spec: the class [TaskQueue] of
    [src/core/task-queue.ts], which is not among the sources; only its tests
    are.  The specification gives its storage as a mapping from id to task,
    ordered by insertion, and words each operation; the definitions below
    follow those words.  The queue is the list of its tasks in insertion
    order, one task per id. *)
Definition Queue := list Task.

Definition empty : Queue := [].

(** Modelled from the spec: "Priority rank: high=3, medium=2, low=1". *)
Definition priorityRank (p : Priority) : Z :=
  match p with high => 3 | medium => 2 | low => 1 end.

(** Modelled from the spec: [getById(id)], "lookup (any status)". *)
Fixpoint getById (q : Queue) (i : string) : option Task :=
  match q with
  | [] => None
  | t :: rest => if String.eqb (id t) i then Some t else getById rest i
  end.

(** Modelled from the spec: [add(task)], "inserts or overwrites by id";
    "re-adding an id replaces the prior task (last write wins)". *)
Fixpoint add (task : Task) (q : Queue) : Queue :=
  match q with
  | [] => [task]
  | t :: rest =>
      if String.eqb (id t) (id task) then task :: rest
      else t :: add task rest
  end.

(** Modelled from the spec: [size()], "count of tasks currently in pending
    status". *)
Definition size (q : Queue) : nat :=
  length (filter (fun t => status_eqb (status t) pending) q).

(** Modelled from the spec: [getAllTasks()], "snapshot of all tasks (all
    statuses)". *)
Definition getAllTasks (q : Queue) : list Task := q.

(** Modelled from the spec: "every id in t.dependencies resolves within the
    queue to a task in completed status; missing ids and non-completed
    predecessors both render t ineligible". *)
Definition dependencyMet (q : Queue) (d : string) : bool :=
  match getById q d with
  | Some u => status_eqb (status u) completed
  | None => false
  end.

Definition eligible (q : Queue) (t : Task) : bool :=
  status_eqb (status t) pending && forallb (dependencyMet q) (dependencies t).

(** Modelled from the spec: "the one with highest priority rank; ties broken
    by earliest createdAt".  [before t u]: [t] is selected rather than
    [u]. *)
Definition before (t u : Task) : bool :=
  (priorityRank (priority u) <? priorityRank (priority t)) ||
  ((priorityRank (priority t) =? priorityRank (priority u))
   && (createdAt t <? createdAt u)).

Fixpoint pick (best : Task) (candidates : list Task) : Task :=
  match candidates with
  | [] => best
  | u :: rest => pick (if before u best then u else best) rest
  end.

Definition setStatus (i : string) (st : TaskStatus) (q : Queue) : Queue :=
  map (fun t => if String.eqb (id t) i then withStatus st t else t) q.

(** Modelled from the spec: [getNext()], "selects among tasks whose status
    is pending and whose dependency set is satisfied; on return,
    transitions the chosen task to running; if no eligible task exists,
    returns null".  The result is the returned task and the queue after
    the call. *)
Definition getNext (q : Queue) : option Task * Queue :=
  match filter (eligible q) q with
  | [] => (None, q)
  | t :: rest =>
      let chosen := pick t rest in
      (Some (withStatus running chosen), setStatus (id chosen) running q)
  end.

(** Modelled from the spec: [cleanup(maxAgeMs)], "removes tasks in completed
    status whose createdAt is older than now - maxAgeMs". *)
Definition cleanup (maxAgeMs now : Z) (q : Queue) : Queue :=
  filter (fun t => negb (status_eqb (status t) completed
                         && (createdAt t <? now - maxAgeMs))) q.

(** Modelled from the spec: the scheduler marks the task of a finished agent
    [completed] or [failed]; "status transitions follow pending, running,
    then completed or failed". *)
Definition finish (i : string) (success : bool) (q : Queue) : Queue :=
  map (fun t =>
         if String.eqb (id t) i && status_eqb (status t) running
         then withStatus (if success then completed else failed) t
         else t) q.

(** What can happen to a queue. *)
Inductive operation :=
| OpAdd (task : Task)
| OpGetNext
| OpFinish (i : string) (success : bool)
| OpCleanup (maxAgeMs now : Z).

Definition perform (q : Queue) (o : operation) : Queue :=
  match o with
  | OpAdd task => add task q
  | OpGetNext => snd (getNext q)
  | OpFinish i success => finish i success q
  | OpCleanup maxAgeMs now => cleanup maxAgeMs now q
  end.

Definition performAll (ops : list operation) (q : Queue) : Queue :=
  fold_left perform ops q.

(** [n] calls of [getNext] in a row: what each returned, and the queue
    after the last. *)
Fixpoint getNextTimes (n : nat) (q : Queue) : list (option Task) * Queue :=
  match n with
  | O => ([], q)
  | S n' =>
      let '(r, q1) := getNext q in
      let '(rs, q2) := getNextTimes n' q1 in
      (r :: rs, q2)
  end.

(** One task per id. *)
Definition wellFormed (q : Queue) : Prop := NoDup (map id q).

(** A task as a caller submits it. *)
Definition newTask (i : string) (p : Priority) (deps : list string)
  (created : Z) : Task :=
  {| id := i; description := "Test task description"; mode := "coder";
     priority := p; dependencies := deps; status := pending;
     createdAt := created; updatedAt := created |}.

(** [p] is selected rather than [u], or they tie. *)
Definition dominates (p u : Task) : Prop :=
  priorityRank (priority u) <= priorityRank (priority p) /\
  (priorityRank (priority u) = priorityRank (priority p) ->
   createdAt p <= createdAt u).

(** An operation that does not submit a task under one of the two ids. *)
Definition keepsIds (i j : string) (o : operation) : Prop :=
  match o with
  | OpAdd task => id task <> i /\ id task <> j
  | _ => True
  end.

(** Two tasks sit in a queue with one task per id. *)
Definition Stuck (x y : Task) (q : Queue) : Prop :=
  wellFormed q /\ In x q /\ In y q.

End TaskQueue.

(* ================================================================== *)
(** * Dates as ISO-8601 strings *)
(* ================================================================== *)

Module IsoDate.

Import JS.

(** The time values a [Date] can hold. *)
Definition maxTime : Z := 8640000000000000.

Definition validTime (t : Z) : Prop := - maxTime <= t <= maxTime.

Definition msPerDay : Z := 86400000.

(** A calendar date and time of day, in UTC. *)
Record Civil := mkCivil {
  year : Z; month : Z; day : Z;
  hour : Z; minute : Z; second : Z; millisecond : Z
}.

(** Day number (days since 1970-01-01) to proleptic Gregorian date, by
    400-year eras that start on a first of March. *)
Definition dayOfEra (days : Z) : Z := (days + 719468) mod 146097.
Definition era (days : Z) : Z := (days + 719468) / 146097.

Definition yearOfEra (doe : Z) : Z :=
  (doe - doe / 1460 + doe / 36524 - doe / 146096) / 365.

Definition dayOfYear (doe : Z) : Z :=
  doe - (365 * yearOfEra doe + yearOfEra doe / 4 - yearOfEra doe / 100).

Definition monthIndex (doy : Z) : Z := (5 * doy + 2) / 153.

Definition civilOfDays (days : Z) : Z * Z * Z :=
  let doe := dayOfEra days in
  let doy := dayOfYear doe in
  let mp := monthIndex doy in
  let d := doy - (153 * mp + 2) / 5 + 1 in
  let m := if mp <? 10 then mp + 3 else mp - 9 in
  let y := yearOfEra doe + era days * 400 in
  (if m <=? 2 then y + 1 else y, m, d).

Definition daysOfCivil (y m d : Z) : Z :=
  let y' := if m <=? 2 then y - 1 else y in
  let e := y' / 400 in
  let yoe := y' - e * 400 in
  let doy := (153 * (if 2 <? m then m - 3 else m + 9) + 2) / 5 + d - 1 in
  let doe := yoe * 365 + yoe / 4 - yoe / 100 + doy in
  e * 146097 + doe - 719468.

Definition civilOfTime (t : Z) : Civil :=
  let '(y, m, d) := civilOfDays (t / msPerDay) in
  let ms := t mod msPerDay in
  {| year := y; month := m; day := d;
     hour := ms / 3600000; minute := (ms / 60000) mod 60;
     second := (ms / 1000) mod 60; millisecond := ms mod 1000 |}.

Definition timeOfCivil (c : Civil) : Z :=
  daysOfCivil (year c) (month c) (day c) * msPerDay
  + hour c * 3600000 + minute c * 60000 + second c * 1000 + millisecond c.

(** Decimal digits. *)
Definition digit (n : Z) : N := Z.to_N (48 + n mod 10).

Fixpoint pad (width : nat) (n : Z) : jsstring :=
  match width with
  | O => []
  | S w => pad w (n / 10) ++ [digit n]
  end.

Definition digitValue (c : N) : option Z :=
  if (48 <=? c)%N && (c <=? 57)%N then Some (Z.of_N c - 48) else None.

Fixpoint parseDigitsFrom (acc : Z) (s : jsstring) : option Z :=
  match s with
  | [] => Some acc
  | c :: rest =>
      match digitValue c with
      | Some v => parseDigitsFrom (acc * 10 + v) rest
      | None => None
      end
  end.

Definition parseDigits (s : jsstring) : option Z := parseDigitsFrom 0 s.

(** [Date.prototype.toISOString]: four digits for the years 0 to 9999, a
    sign and six digits for the others. *)
Definition formatYear (y : Z) : jsstring :=
  if (0 <=? y) && (y <=? 9999) then pad 4 y
  else (if y <? 0 then 45%N else 43%N) :: pad 6 (Z.abs y).

Definition toISOString (t : Z) : jsstring :=
  let c := civilOfTime t in
  formatYear (year c) ++ [45%N] ++ pad 2 (month c) ++ [45%N]
  ++ pad 2 (day c) ++ [84%N] ++ pad 2 (hour c) ++ [58%N]
  ++ pad 2 (minute c) ++ [58%N] ++ pad 2 (second c) ++ [46%N]
  ++ pad 3 (millisecond c) ++ [90%N].

(** Reading a field of [n] digits followed by the character [stop]. *)
Definition field (n : nat) (stop : N) (s : jsstring)
  : option (Z * jsstring) :=
  match parseDigits (firstn n s), skipn n s with
  | Some v, c :: rest =>
      if Nat.eqb (length (firstn n s)) n && N.eqb c stop
      then Some (v, rest) else None
  | _, _ => None
  end.

Definition parseYear (s : jsstring) : option (Z * jsstring) :=
  match s with
  | c :: rest =>
      if N.eqb c 43 then field 6 45 rest
      else if N.eqb c 45 then
        match field 6 45 rest with
        | Some (v, rest') => Some (- v, rest')
        | None => None
        end
      else field 4 45 s
  | [] => None
  end.

(** [new Date(string)] on the format that [toISOString] writes; [None] is
    an invalid date. *)
Definition parseISO (s : jsstring) : option Z :=
  match parseYear s with
  | None => None
  | Some (y, s1) =>
  match field 2 45 s1 with
  | None => None
  | Some (m, s2) =>
  match field 2 84 s2 with
  | None => None
  | Some (d, s3) =>
  match field 2 58 s3 with
  | None => None
  | Some (h, s4) =>
  match field 2 58 s4 with
  | None => None
  | Some (mi, s5) =>
  match field 2 46 s5 with
  | None => None
  | Some (sec, s6) =>
  match field 3 90 s6 with
  | Some (ms, []) =>
      Some (timeOfCivil {| year := y; month := m; day := d; hour := h;
                           minute := mi; second := sec; millisecond := ms |})
  | _ => None
  end end end end end end end.

End IsoDate.

(* ================================================================== *)
(** * The memory store *)
(* ================================================================== *)

Module MemoryManager.

Import JS.
Import IsoDate.

(** JSON documents. *)
#[local] Unset Elimination Schemes.
Inductive json :=
| JNull
| JBool (b : bool)
| JNumber (n : Z)
| JString (s : jsstring)
| JArray (items : list json)
| JObject (fields : list (jsstring * json)).
#[local] Set Elimination Schemes.

Inductive EntryType := knowledge | result | error | context.

(** [MemoryEntry.content]: a string or a structured record. *)
Inductive Content :=
| Text (s : jsstring)
| Structured (fields : list (jsstring * json)).

Record MemoryEntry := mkEntry {
  id : jsstring;
  agentId : jsstring;
  timestamp : Z;
  type : EntryType;
  content : Content;
  tags : list jsstring
}.

(** Decimal notation of an integer. *)
Fixpoint decimalDigits (fuel : nat) (n : Z) (acc : jsstring) : jsstring :=
  match fuel with
  | O => acc
  | S fuel' =>
      if n <? 10 then digit n :: acc
      else decimalDigits fuel' (n / 10) (digit n :: acc)
  end.

Definition decimal (n : Z) : jsstring :=
  if n <? 0
  then 45%N :: decimalDigits (S (Z.to_nat (Z.log2 (- n)))) (- n) []
  else decimalDigits (S (Z.to_nat (Z.log2 n))) n [].

Definition hexDigit (n : N) : N :=
  if (n <? 10)%N then (48 + n)%N else (87 + n)%N.

(** A character inside a JSON string. *)
Definition escapeJson (c : N) : jsstring :=
  if (c =? 34)%N then [92; 34]%N
  else if (c =? 92)%N then [92; 92]%N
  else if (c =? 8)%N then [92; 98]%N
  else if (c =? 9)%N then [92; 116]%N
  else if (c =? 10)%N then [92; 110]%N
  else if (c =? 12)%N then [92; 102]%N
  else if (c =? 13)%N then [92; 114]%N
  else if (c <? 32)%N
       then [92; 117; 48; 48; hexDigit (c / 16); hexDigit (c mod 16)]%N
  else [c].

Definition quote (s : jsstring) : jsstring :=
  34%N :: flat_map escapeJson s ++ [34%N].

Definition joinWith (sepr : jsstring) (parts : list jsstring) : jsstring :=
  match parts with
  | [] => []
  | p :: rest => p ++ flat_map (fun q => sepr ++ q) rest
  end.

(** Modelled from the spec: the "stable JSON serialization" by which
    structured content is rendered; the source of the store is not among
    the sources.  It is [JSON.stringify] without indentation, fields in the
    order they are held. *)
Fixpoint stringify (j : json) : jsstring :=
  match j with
  | JNull => lit "null"
  | JBool true => lit "true"
  | JBool false => lit "false"
  | JNumber n => decimal n
  | JString s => quote s
  | JArray items =>
      lit "[" ++ joinWith (lit ",") (map stringify items) ++ lit "]"
  | JObject fields =>
      lit "{"
      ++ joinWith (lit ",")
           (map (fun kv => quote (fst kv) ++ lit ":" ++ stringify (snd kv))
              fields)
      ++ lit "}"
  end.

(** Modelled from the spec: "the stringified content". *)
Definition contentText (c : Content) : jsstring :=
  match c with
  | Text s => s
  | Structured fields => stringify (JObject fields)
  end.

(** ** The persisted layout

    Modelled from the spec: "a single JSON file; top-level shape: an object
    whose keys are agent ids and whose values are arrays of MemoryEntry
    records; timestamps are ISO-8601 strings; they are coerced back to date
    values on load". *)

Definition typeName (t : EntryType) : jsstring :=
  match t with
  | knowledge => lit "knowledge"
  | result => lit "result"
  | error => lit "error"
  | context => lit "context"
  end.

Definition typeOfName (s : jsstring) : option EntryType :=
  if str_eqb s (lit "knowledge") then Some knowledge
  else if str_eqb s (lit "result") then Some result
  else if str_eqb s (lit "error") then Some error
  else if str_eqb s (lit "context") then Some context
  else None.

Definition encodeContent (c : Content) : json :=
  match c with
  | Text s => JString s
  | Structured fields => JObject fields
  end.

Definition decodeContent (j : json) : option Content :=
  match j with
  | JString s => Some (Text s)
  | JObject fields => Some (Structured fields)
  | _ => None
  end.

Definition encodeEntry (e : MemoryEntry) : json :=
  JObject
    [(lit "id", JString (id e));
     (lit "agentId", JString (agentId e));
     (lit "timestamp", JString (toISOString (timestamp e)));
     (lit "type", JString (typeName (type e)));
     (lit "content", encodeContent (content e));
     (lit "tags", JArray (map JString (tags e)))].

Fixpoint lookup (key : jsstring) (fields : list (jsstring * json))
  : option json :=
  match fields with
  | [] => None
  | (k, v) :: rest => if str_eqb k key then Some v else lookup key rest
  end.

Definition asString (j : option json) : option jsstring :=
  match j with Some (JString s) => Some s | _ => None end.

Fixpoint allSome {A : Type} (l : list (option A)) : option (list A) :=
  match l with
  | [] => Some []
  | Some a :: rest =>
      match allSome rest with
      | Some r => Some (a :: r)
      | None => None
      end
  | None :: _ => None
  end.

Definition asStrings (j : option json) : option (list jsstring) :=
  match j with
  | Some (JArray items) => allSome (map (fun i => asString (Some i)) items)
  | _ => None
  end.

Definition decodeEntry (j : json) : option MemoryEntry :=
  match j with
  | JObject fields =>
      match asString (lookup (lit "id") fields),
            asString (lookup (lit "agentId") fields),
            asString (lookup (lit "timestamp") fields),
            asString (lookup (lit "type") fields),
            lookup (lit "content") fields,
            asStrings (lookup (lit "tags") fields) with
      | Some i, Some a, Some ts, Some ty, Some c, Some tg =>
          match parseISO ts, typeOfName ty, decodeContent c with
          | Some t, Some ty', Some c' =>
              Some {| id := i; agentId := a; timestamp := t; type := ty';
                      content := c'; tags := tg |}
          | _, _, _ => None
          end
      | _, _, _, _, _, _ => None
      end
  | _ => None
  end.

(** The in-memory map, agents in the order they were first seen. *)
Definition Memory := list (jsstring * list MemoryEntry).

Definition encodeMemory (m : Memory) : json :=
  JObject (map (fun kv => (fst kv, JArray (map encodeEntry (snd kv)))) m).

Definition decodeAgent (kv : jsstring * json)
  : option (jsstring * list MemoryEntry) :=
  match snd kv with
  | JArray items =>
      match allSome (map decodeEntry items) with
      | Some es => Some (fst kv, es)
      | None => None
      end
  | _ => None
  end.

Definition decodeMemory (j : json) : option Memory :=
  match j with
  | JObject fields => allSome (map decodeAgent fields)
  | _ => None
  end.

(** What a path of the disk holds: nothing, a JSON document, or text that
    does not parse. *)
Inductive File :=
| Document (j : json)
| Malformed.

Definition Disk := string -> option File.

Definition write (d : Disk) (path : string) (f : File) : Disk :=
  fun p => if String.eqb p path then Some f else d p.

(** ** The store

    Modelled from the spec: the class [MemoryManager] of
    [src/core/memory-manager.ts], which is not among the sources; only its
    tests are.  The definitions follow the words of the specification, with
    its defaults. *)

Definition softMaxEntries : Z := 1000.
Definition maxAgeMs : Z := 7 * 86400000.
Definition autoFlushMs : Z := 5000.

Record Store := mkStore {
  memoryPath : string;
  memory : Memory;
  initialized : bool;
  flushDue : option Z
}.

Definition create (path : string) : Store :=
  {| memoryPath := path; memory := []; initialized := false;
     flushDue := None |}.

Definition entries (m : Memory) : list MemoryEntry := flat_map snd m.

(** Modelled from the spec: [initialize()], "idempotent; if the file exists
    and parses, load it; if it does not exist, leave the in-memory map
    empty; if it exists but is malformed, proceed with an empty map". *)
Definition initialize (d : Disk) (s : Store) : Store :=
  if initialized s then s
  else
    {| memoryPath := memoryPath s;
       memory := match d (memoryPath s) with
                 | Some (Document j) =>
                     match decodeMemory j with
                     | Some m => m
                     | None => []
                     end
                 | Some Malformed => []
                 | None => []
                 end;
       initialized := true;
       flushDue := flushDue s |}.

(** Appending to the list of an agent, a new agent going last. *)
Fixpoint appendEntry (e : MemoryEntry) (m : Memory) : Memory :=
  match m with
  | [] => [(agentId e, [e])]
  | (a, es) :: rest =>
      if str_eqb a (agentId e) then (a, es ++ [e]) :: rest
      else (a, es) :: appendEntry e rest
  end.

Definition total (m : Memory) : Z := Z.of_nat (length (entries m)).

Definition tooOld (now : Z) (e : MemoryEntry) : bool :=
  timestamp e <? now - maxAgeMs.

(** The oldest timestamp held, if any. *)
Definition oldest (m : Memory) : option Z :=
  match entries m with
  | [] => None
  | e :: rest =>
      Some (fold_left (fun acc x => Z.min acc (timestamp x)) rest
              (timestamp e))
  end.

Fixpoint removeFirstAt (t : Z) (es : list MemoryEntry)
  : option (list MemoryEntry) :=
  match es with
  | [] => None
  | e :: rest =>
      if timestamp e =? t then Some rest
      else match removeFirstAt t rest with
           | Some rest' => Some (e :: rest')
           | None => None
           end
  end.

Fixpoint removeOneAt (t : Z) (m : Memory) : Memory :=
  match m with
  | [] => []
  | (a, es) :: rest =>
      match removeFirstAt t es with
      | Some es' => (a, es') :: rest
      | None => (a, es) :: removeOneAt t rest
      end
  end.

Fixpoint dropOldest (n : nat) (m : Memory) : Memory :=
  match n with
  | O => m
  | S n' =>
      match oldest m with
      | Some t => dropOldest n' (removeOneAt t m)
      | None => m
      end
  end.

(** Modelled from the spec: cleanup, "removes entries older than the age
    cap; if total still exceeds the count cap, removes oldest entries first
    until under the cap". *)
Definition cleanup (now : Z) (m : Memory) : Memory :=
  let fresh := map (fun kv => (fst kv,
                               filter (fun e => negb (tooOld now e)) (snd kv)))
                 m in
  dropOldest (Z.to_nat (total fresh - softMaxEntries)) fresh.

Definition needsEviction (now : Z) (m : Memory) : bool :=
  (softMaxEntries <? total m) || existsb (tooOld now) (entries m).

(** The argument of [store]. *)
Record StoreRequest := mkRequest {
  reqAgentId : jsstring;
  reqType : EntryType;
  reqContent : Content;
  reqTags : list jsstring
}.

(** Modelled from the spec: [store], "creates a MemoryEntry with a freshly
    generated id and current timestamp; appends to the per-agent list;
    schedules an asynchronous flush after a debounce interval; triggers
    eviction if total entry count exceeds the soft cap or any entry is older
    than the age cap".  The clock reading and the generated id come from
    outside. *)
Definition store (now : Z) (freshId : jsstring) (r : StoreRequest)
  (s : Store) : Store :=
  let e := {| id := freshId; agentId := reqAgentId r; timestamp := now;
              type := reqType r; content := reqContent r;
              tags := reqTags r |} in
  let m := appendEntry e (memory s) in
  {| memoryPath := memoryPath s;
     memory := if needsEviction now m then cleanup now m else m;
     initialized := initialized s;
     flushDue := Some (now + autoFlushMs) |}.

(** Modelled from the spec: [flush()], "writes the in-memory map to disk as a
    single JSON document; on write failure, logs and retains the in-memory
    state". *)
Definition flush (writeSucceeds : bool) (d : Disk) (s : Store)
  : Disk * Store :=
  if writeSucceeds then
    (write d (memoryPath s) (Document (encodeMemory (memory s))),
     {| memoryPath := memoryPath s; memory := memory s;
        initialized := initialized s; flushDue := None |})
  else (d, s).

Definition hasTag (t : jsstring) (e : MemoryEntry) : bool :=
  existsb (str_eqb t) (tags e).

(** Modelled from the spec: [search(query, tags?)], "case-insensitive
    substring match against the stringified content; when tags is provided,
    requires the entry's tag set to intersect; returns matching entries in
    insertion order; empty query: returns no entries". *)
Definition search (query : jsstring) (wanted : option (list jsstring))
  (s : Store) : list MemoryEntry :=
  match query with
  | [] => []
  | _ =>
      filter
        (fun e =>
           includes (toLowerCase (contentText (content e)))
             (toLowerCase query)
           && match wanted with
              | Some ts => existsb (fun t => hasTag t e) ts
              | None => true
              end)
        (entries (memory s))
  end.







End MemoryManager.

(* ================================================================== *)
(** * Part II: properties *)
(* ================================================================== *)

Module JSFacts.

Import JS.

Lemma str_eqb_eq (a b : jsstring) : str_eqb a b = true <-> a = b.
Proof.
  revert b; induction a as [|x a IH]; intros [|y b]; simpl;
    try (split; [discriminate | discriminate]); try tauto.
  unfold unit_eqb. rewrite andb_true_iff, N.eqb_eq, IH.
  split; [intros [-> ->]; reflexivity | intros H; inversion H; auto].
Qed.

Lemma startsWith_app (p s : jsstring) : startsWith (p ++ s) p = true.
Proof.
  induction p as [|c p IH]; simpl; [reflexivity|].
  unfold unit_eqb; rewrite N.eqb_refl; exact IH.
Qed.

Lemma startsWith_spec (s p : jsstring) :
  startsWith s p = true <-> exists rest, s = p ++ rest.
Proof.
  revert s; induction p as [|c p IH]; intros s; simpl.
  - split; [intros _; exists s; reflexivity | reflexivity].
  - destruct s as [|d s].
    + split; [discriminate | intros [r Hr]; discriminate].
    + unfold unit_eqb. rewrite andb_true_iff, N.eqb_eq, IH. split.
      * intros [-> [r ->]]. exists r. reflexivity.
      * intros [r Hr]. inversion Hr; subst. split; [reflexivity|].
        exists r; reflexivity.
Qed.

Lemma includes_spec (s needle : jsstring) :
  includes s needle = true <-> exists pre post, s = pre ++ needle ++ post.
Proof.
  induction s as [|c s IH]; simpl.
  - rewrite orb_false_r, startsWith_spec. split.
    + intros [r Hr]. exists [], r. exact Hr.
    + intros [pre [post H]]. destruct pre; [exists post; exact H|discriminate].
  - rewrite orb_true_iff, startsWith_spec, IH. split.
    + intros [[r Hr] | [pre [post H]]].
      * exists [], r. exact Hr.
      * exists (c :: pre), post. simpl. rewrite H. reflexivity.
    + intros [pre [post H]]. destruct pre as [|d pre].
      * left. exists post. exact H.
      * right. inversion H; subst. exists pre, post. reflexivity.
Qed.

Lemma includes_refl (s : jsstring) : includes s s = true.
Proof.
  apply includes_spec. exists [], []. rewrite app_nil_r. reflexivity.
Qed.

End JSFacts.

(* ------------------------------------------------------------------ *)
(** ** Rate limiter: the two cleanups *)
(* ------------------------------------------------------------------ *)

Module RateLimiterFacts.

Import RateLimiter.

Section Purge.

Variable cfg : RateLimiterConfig.

Lemma cleanupOldRequests_split (now : Z) (reqs : list Z) :
  exists removed,
    reqs = removed ++ cleanupOldRequests cfg now reqs /\
    Forall (fun t => t < now - windowMs cfg) removed /\
    match cleanupOldRequests cfg now reqs with
    | t :: _ => now - windowMs cfg <= t
    | [] => True
    end.
Proof.
  unfold cleanupOldRequests.
  induction reqs as [|t rest IH]; simpl.
  - exists []. repeat split; constructor.
  - destruct (t <? now - windowMs cfg) eqn:Ht; simpl.
    + destruct IH as [removed [Heq [Hall Hhd]]].
      exists (t :: removed). simpl. rewrite <- Heq. repeat split; auto.
      constructor; [apply Z.ltb_lt; exact Ht | exact Hall].
    + exists []. repeat split; [constructor|].
      apply Z.ltb_ge. exact Ht.
Qed.

Lemma shiftExpired_split (now : Z) (reqs : list Z) :
  exists removed,
    reqs = removed ++ shiftExpired cfg now reqs /\
    Forall (fun t => t <= now - windowMs cfg) removed /\
    match shiftExpired cfg now reqs with
    | t :: _ => now - windowMs cfg < t
    | [] => True
    end.
Proof.
  induction reqs as [|t rest IH]; simpl.
  - exists []. repeat split; constructor.
  - destruct (now - t >=? windowMs cfg) eqn:Ht.
    + destruct IH as [removed [Heq [Hall Hhd]]].
      exists (t :: removed). simpl. rewrite <- Heq. repeat split; auto.
      constructor; [|exact Hall].
      rewrite Z.geb_leb in Ht. apply Z.leb_le in Ht. lia.
    + exists []. repeat split; [constructor|].
      rewrite Z.geb_leb in Ht. apply Z.leb_gt in Ht. lia.
Qed.

(** Whatever the branch, [purge] drops a prefix of expired timestamps. *)
Lemma purge_split (now : Z) (l : Limiter) :
  exists removed,
    requests l = removed ++ requests (purge cfg now l) /\
    Forall (fun t => t <= now - windowMs cfg) removed.
Proof.
  unfold purge. destruct (now - lastCleanup l >? cleanupInterval); simpl.
  - destruct (cleanupOldRequests_split now (requests l))
      as [removed [Heq [Hall _]]].
    exists removed. split; [exact Heq|].
    eapply Forall_impl; [|exact Hall]. simpl. intros; lia.
  - destruct (shiftExpired_split now (requests l))
      as [removed [Heq [Hall _]]].
    exists removed. split; assumption.
Qed.

Lemma purge_length (now : Z) (l : Limiter) :
  (length (requests (purge cfg now l)) <= length (requests l))%nat.
Proof.
  destruct (purge_split now l) as [removed [Heq _]].
  apply (f_equal (@length Z)) in Heq. rewrite length_app in Heq. lia.
Qed.



End Purge.

(* ------------------------------------------------------------------ *)
(** ** Rate limiter: the sliding-window invariant *)
(* ------------------------------------------------------------------ *)

Section Window.

Variable cfg : RateLimiterConfig.

Lemma countIn_app (a : Z) (xs ys : list Z) :
  countIn cfg a (xs ++ ys) = countIn cfg a xs + countIn cfg a ys.
Proof. unfold countIn. rewrite filter_app, length_app. lia. Qed.

Lemma countIn_le_length (a : Z) (xs : list Z) :
  countIn cfg a xs <= Z.of_nat (length xs).
Proof.
  unfold countIn. pose proof (filter_length_le (inWindow cfg a) xs). lia.
Qed.

Lemma countIn_nonneg (a : Z) (xs : list Z) : 0 <= countIn cfg a xs.
Proof. unfold countIn. lia. Qed.

Lemma countIn_expired (a now : Z) (xs : list Z) :
  Forall (fun t => t <= now - windowMs cfg) xs ->
  now - windowMs cfg < a ->
  countIn cfg a xs = 0.
Proof.
  intros Hall Ha. unfold countIn.
  induction Hall as [|t xs Ht _ IH]; simpl; [reflexivity|].
  unfold inWindow at 1.
  destruct (a <=? t) eqn:E; [apply Z.leb_le in E; lia|]. exact IH.
Qed.

(** A window that holds everything another one holds from [xs], and one
    timestamp more, counts at least one more. *)
Lemma countIn_strict (a a0 x : Z) (xs : list Z) :
  (forall t, In t xs -> inWindow cfg a t = true -> inWindow cfg a0 t = true) ->
  In x xs -> inWindow cfg a0 x = true -> inWindow cfg a x = false ->
  countIn cfg a xs + 1 <= countIn cfg a0 xs.
Proof.
  unfold countIn. induction xs as [|t xs IH]; intros Himp Hin Hx0 Hx;
    [destruct Hin|].
  assert (Hmono : (length (filter (inWindow cfg a) xs)
                   <= length (filter (inWindow cfg a0) xs))%nat).
  { clear -Himp. induction xs as [|u xs IHxs]; simpl; [lia|].
    assert (Hrec : forall t0, In t0 (t :: xs) -> inWindow cfg a t0 = true ->
                              inWindow cfg a0 t0 = true).
    { intros t0 [H|H]; apply Himp; simpl; auto. }
    specialize (IHxs Hrec).
    destruct (inWindow cfg a u) eqn:Eu.
    - rewrite (Himp u (or_intror (or_introl eq_refl)) Eu). simpl. lia.
    - destruct (inWindow cfg a0 u); simpl; lia. }
  simpl. destruct Hin as [<- | Hin].
  - rewrite Hx0, Hx. simpl. lia.
  - assert (IH' := IH (fun t0 H => Himp t0 (or_intror H)) Hin Hx0 Hx).
    destruct (inWindow cfg a t) eqn:Et.
    + rewrite (Himp t (or_introl eq_refl) Et). simpl. lia.
    + destruct (inWindow cfg a0 t); simpl; lia.
Qed.

Lemma purge_head (now : Z) (l : Limiter) (t : Z) (rest : list Z) :
  requests (purge cfg now l) = t :: rest ->
  now - windowMs cfg <= t /\
  (t = now - windowMs cfg -> now - lastCleanup l > cleanupInterval).
Proof.
  unfold purge. destruct (now - lastCleanup l >? cleanupInterval) eqn:Hb;
    simpl; intros Heq.
  - destruct (cleanupOldRequests_split cfg now (requests l))
      as [_ [_ [_ Hhd]]].
    rewrite Heq in Hhd. apply Z.gtb_lt in Hb. split; [exact Hhd | lia].
  - destruct (shiftExpired_split cfg now (requests l)) as [_ [_ [_ Hhd]]].
    rewrite Heq in Hhd. split; lia.
Qed.

Lemma purge_lastCleanup (now : Z) (l : Limiter) :
  lastCleanup (purge cfg now l) =
  if now - lastCleanup l >? cleanupInterval then now else lastCleanup l.
Proof.
  unfold purge. destruct (now - lastCleanup l >? cleanupInterval); reflexivity.
Qed.

(** Purging at a later clock reading keeps the invariant. *)
Lemma Inv_purge (now0 now : Z) (l : Limiter) (hist : list Z) :
  Inv cfg now0 l hist -> now0 <= now ->
  Inv cfg now (purge cfg now l) hist.
Proof.
  intros [[old [Hhist Hold]] Hrecent Hwin Hsorted Hpast] Hle.
  destruct (purge_split cfg now l) as [removed [Hreq Hrem]].
  constructor.
  - exists (old ++ removed). split.
    + rewrite Hhist, Hreq, app_assoc. reflexivity.
    + apply Forall_app. split; [|exact Hrem].
      eapply Forall_impl; [|exact Hold]. simpl. intros; lia.
  - rewrite purge_lastCleanup.
    destruct (now - lastCleanup l >? cleanupInterval); [|exact Hrecent].
    eapply Forall_impl; [|exact Hpast]. simpl.
    unfold cleanupInterval. intros; lia.
  - exact Hwin.
  - exact Hsorted.
  - eapply Forall_impl; [|exact Hpast]. simpl. intros; lia.
Qed.

Lemma StronglySorted_snoc (xs : list Z) (x : Z) :
  StronglySorted Z.le xs -> Forall (fun t => t <= x) xs ->
  StronglySorted Z.le (xs ++ [x]).
Proof.
  induction 1 as [|t xs Hs IH Hall]; intros Hx; simpl.
  - constructor; constructor.
  - inversion Hx; subst. constructor; [apply IH; assumption|].
    apply Forall_app. split; [exact Hall|]. constructor; [assumption|constructor].
Qed.

(** One pass of [checkLimit] keeps the invariant, whether it registers the
    request or sends the caller to sleep. *)
Lemma Inv_checkLimit_once (now0 now : Z) (l : Limiter) (hist : list Z) :
  1 <= maxRequests cfg ->
  Inv cfg now0 l hist -> now0 <= now ->
  match checkLimit_once cfg now l with
  | Registered l' => Inv cfg now l' (hist ++ [now])
  | Sleep _ l' => Inv cfg now l' hist
  end.
Proof.
  intros Hmax HI Hle.
  pose proof (Inv_purge now0 now l hist HI Hle) as HP.
  assert (Hrec0 : Forall (fun t => t <= lastCleanup l + cleanupInterval) hist)
    by apply HI.
  assert (Hpush : countIn cfg (now - windowMs cfg + 1) hist + 1
                  <= maxRequests cfg ->
                  Inv cfg now (push now (purge cfg now l)) (hist ++ [now])).
  { intros Hroom.
    destruct HP as [[old [Hhist Hold]] Hrecent Hwin Hsorted Hpast].
    constructor.
    - exists old. split; [|exact Hold].
      simpl. rewrite Hhist, app_assoc. reflexivity.
    - simpl. apply Forall_app. split; [exact Hrecent|].
      constructor; [|constructor]. rewrite purge_lastCleanup.
      destruct (now - lastCleanup l >? cleanupInterval) eqn:Hb.
      + unfold cleanupInterval. lia.
      + pose proof (Zgt_cases (now - lastCleanup l) cleanupInterval) as Hc.
        rewrite Hb in Hc. lia.
    - intros a. rewrite countIn_app.
      unfold countIn at 2. simpl.
      destruct (inWindow cfg a now) eqn:Ea; simpl.
      + unfold inWindow in Ea. apply andb_true_iff in Ea.
        destruct Ea as [Ea1 Ea2].
        apply Z.leb_le in Ea1. apply Z.ltb_lt in Ea2.
        assert (countIn cfg a hist
                <= countIn cfg (now - windowMs cfg + 1) hist); [|lia].
        unfold countIn. apply inj_le.
        clear -Ea1 Ea2 Hpast. induction Hpast as [|t ts Ht _ IH];
          simpl; [lia|].
        destruct (inWindow cfg a t) eqn:Et.
        * assert (inWindow cfg (now - windowMs cfg + 1) t = true) as ->.
          { unfold inWindow in *. apply andb_true_iff in Et.
            destruct Et as [E1 E2]. apply Z.leb_le in E1.
            apply andb_true_iff. split;
              [apply Z.leb_le | apply Z.ltb_lt]; lia. }
          simpl. lia.
        * destruct (inWindow cfg (now - windowMs cfg + 1) t); simpl; lia.
      + specialize (Hwin a). lia.
    - apply StronglySorted_snoc; assumption.
    - apply Forall_app. split; [exact Hpast|].
      constructor; [lia|constructor]. }
  unfold checkLimit_once. cbv zeta.
  destruct (Z.of_nat (length (requests (purge cfg now l))) >=? maxRequests cfg)
    eqn:Hfull.
  - destruct (requests (purge cfg now l)) as [|oldest rest] eqn:Hreq.
    + simpl in Hfull. rewrite Z.geb_leb in Hfull. apply Z.leb_le in Hfull. lia.
    + destruct (oldest + windowMs cfg - now >? 0) eqn:Hwait; [exact HP|].
      apply Hpush.
      pose proof (Zgt_cases (oldest + windowMs cfg - now) 0) as Hc.
      rewrite Hwait in Hc.
      destruct (purge_head now l oldest rest Hreq) as [Hlo Hbranch].
      assert (Hold : oldest = now - windowMs cfg) by lia.
      specialize (Hbranch Hold).
      destruct HP as [[old [Hhist _]] _ Hwin _ _].
      assert (Hin : In oldest hist).
      { rewrite Hhist, Hreq. apply in_or_app. right. left. reflexivity. }
      destruct (Z_le_gt_dec (windowMs cfg) 0) as [Hw | Hw].
      * (* an empty window counts nothing *)
        assert (countIn cfg (now - windowMs cfg + 1) hist = 0); [|lia].
        unfold countIn. clear -Hw. induction hist as [|t ts IH];
          simpl; [reflexivity|].
        unfold inWindow at 1.
        destruct (now - windowMs cfg + 1 <=? t) eqn:E1;
          destruct (t <? now - windowMs cfg + 1 + windowMs cfg) eqn:E2;
          simpl; try exact IH.
        apply Z.leb_le in E1. apply Z.ltb_lt in E2. lia.
      * pose proof (countIn_strict (now - windowMs cfg + 1) oldest oldest hist)
          as Hstrict.
        specialize (Hwin oldest).
        assert (countIn cfg (now - windowMs cfg + 1) hist + 1
                <= countIn cfg oldest hist); [|lia].
        apply Hstrict; [|exact Hin| |].
        -- intros t Ht Hw1. rewrite Forall_forall in Hrec0.
           specialize (Hrec0 t Ht).
           unfold inWindow in *. apply andb_true_iff in Hw1.
           destruct Hw1 as [E1 E2]. apply Z.leb_le in E1.
           apply andb_true_iff. split;
             [apply Z.leb_le | apply Z.ltb_lt]; lia.
        -- unfold inWindow. apply andb_true_iff. split;
             [apply Z.leb_le | apply Z.ltb_lt]; lia.
        -- unfold inWindow. apply andb_false_iff. left.
           apply Z.leb_gt. lia.
  - apply Hpush.
    rewrite Z.geb_leb in Hfull. apply Z.leb_gt in Hfull.
    destruct HP as [[old [Hhist Hold]] _ _ _ _].
    rewrite Hhist, countIn_app.
    rewrite (countIn_expired _ now old Hold) by lia.
    pose proof (countIn_le_length (now - windowMs cfg + 1)
                  (requests (purge cfg now l))). lia.
Qed.

Lemma Inv_create (now : Z) : 0 <= maxRequests cfg -> Inv cfg now create [].
Proof.
  intros Hmax. constructor; simpl; try constructor.
  - exists []. split; [reflexivity | constructor].
  - intros a. unfold countIn. simpl. lia.
Qed.

Lemma Inv_later (now0 now : Z) (l : Limiter) (hist : list Z) :
  Inv cfg now0 l hist -> now0 <= now -> Inv cfg now l hist.
Proof.
  intros [[old [Hhist Hold]] Hrecent Hwin Hsorted Hpast] Hle.
  constructor; auto.
  - exists old. split; [exact Hhist|].
    eapply Forall_impl; [|exact Hold]. simpl. intros; lia.
  - eapply Forall_impl; [|exact Hpast]. simpl. intros; lia.
Qed.

End Window.

(* ------------------------------------------------------------------ *)
(** ** Rate limiter: complete calls *)
(* ------------------------------------------------------------------ *)

Section Calls.

Variable cfg : RateLimiterConfig.

Lemma registeredOf_app (xs ys : list event) :
  registeredOf (xs ++ ys) = registeredOf xs ++ registeredOf ys.
Proof.
  induction xs as [|[t|s ms|k] xs IH]; simpl; rewrite ?IH; reflexivity.
Qed.

Lemma backoffsOf_app (xs ys : list event) :
  backoffsOf (xs ++ ys) = backoffsOf xs ++ backoffsOf ys.
Proof.
  induction xs as [|[t|[|] ms|k] xs IH]; simpl; rewrite ?IH; reflexivity.
Qed.

Lemma callsOf_app (xs ys : list event) :
  callsOf (xs ++ ys) = callsOf xs ++ callsOf ys.
Proof.
  induction xs as [|[t|s ms|k] xs IH]; simpl; rewrite ?IH; reflexivity.
Qed.

Lemma elapse_clock (ms : Z) (e : Env) :
  clock e + Z.max 0 ms <= clock (elapse ms e).
Proof. unfold elapse. simpl. lia. Qed.

(** What the two results of a pass say about the pass. *)
Lemma checkLimit_once_Sleep (now : Z) (l l' : Limiter) (waitTime : Z) :
  checkLimit_once cfg now l = Sleep waitTime l' ->
  l' = purge cfg now l /\
  maxRequests cfg <= Z.of_nat (length (requests l')) /\
  0 < waitTime /\
  exists oldest rest,
    requests l' = oldest :: rest /\ waitTime = oldest + windowMs cfg - now.
Proof.
  unfold checkLimit_once. cbv zeta.
  destruct (Z.of_nat (length (requests (purge cfg now l))) >=? maxRequests cfg)
    eqn:Hfull; [|discriminate].
  destruct (requests (purge cfg now l)) as [|oldest rest] eqn:Hreq;
    [discriminate|].
  destruct (oldest + windowMs cfg - now >? 0) eqn:Hwait; [|discriminate].
  intros H. inversion H; subst. clear H.
  rewrite Z.geb_leb in Hfull. apply Z.leb_le in Hfull.
  apply Z.gtb_lt in Hwait. rewrite Hreq.
  repeat split; try assumption. exists oldest, rest. split; reflexivity.
Qed.

Lemma checkLimit_once_Registered (now : Z) (l l' : Limiter) :
  checkLimit_once cfg now l = Registered l' ->
  l' = push now (purge cfg now l).
Proof.
  unfold checkLimit_once. cbv zeta.
  destruct (Z.of_nat (length (requests (purge cfg now l))) >=? maxRequests cfg).
  - destruct (requests (purge cfg now l)) as [|oldest rest].
    + intros H; inversion H; reflexivity.
    + destruct (oldest + windowMs cfg - now >? 0);
        intros H; inversion H; reflexivity.
  - intros H; inversion H; reflexivity.
Qed.

(** After a wait the oldest timestamp has expired: each further pass either
    registers or leaves a shorter list. *)
Lemma checkLimit_fuel_after_wait (fuel : nat) :
  forall (e : Env) (l : Limiter) (oldest : Z) (rest : list Z),
    requests l = oldest :: rest ->
    oldest + windowMs cfg <= clock e ->
    (length (requests l) <= fuel)%nat ->
    exists r, checkLimit_fuel fuel cfg e l = Some r.
Proof.
  induction fuel as [|fuel IH]; intros e l oldest rest Hreq Hclock Hfuel.
  - rewrite Hreq in Hfuel. simpl in Hfuel. lia.
  - simpl. destruct (checkLimit_once cfg (clock e) l) as [l'|w l'] eqn:Hpass.
    + eexists; reflexivity.
    + apply checkLimit_once_Sleep in Hpass.
      destruct Hpass as [-> [_ [Hw [o1 [r1 [Hreq1 Hweq]]]]]].
      destruct (purge_split cfg (clock e) l) as [removed [Hsplit _]].
      assert (Hshorter :
                (length (requests (purge cfg (clock e) l))
                 < length (requests l))%nat).
      { destruct removed as [|x removed].
        - simpl in Hsplit. rewrite <- Hsplit, Hreq in Hreq1.
          inversion Hreq1; subst. lia.
        - apply (f_equal (@length Z)) in Hsplit.
          rewrite length_app in Hsplit. simpl in Hsplit. lia. }
      apply (IH _ _ o1 r1 Hreq1); [|lia].
      unfold delay. pose proof (elapse_clock w
        (record (EvDelay LimitWait w) e)) as Hc. simpl in Hc |- *. lia.
Qed.

(** [checkLimit] always completes. *)
Lemma checkLimit_total (e : Env) (l : Limiter) :
  exists r, checkLimit cfg e l = Some r.
Proof.
  unfold checkLimit. simpl.
  destruct (checkLimit_once cfg (clock e) l) as [l'|w l'] eqn:Hpass.
  - eexists; reflexivity.
  - apply checkLimit_once_Sleep in Hpass.
    destruct Hpass as [-> [_ [Hw [o1 [r1 [Hreq1 Hweq]]]]]].
    apply (checkLimit_fuel_after_wait _ _ _ o1 r1 Hreq1).
    + unfold delay. pose proof (elapse_clock w
        (record (EvDelay LimitWait w) e)) as Hc. simpl in Hc |- *. lia.
    + apply purge_length.
Qed.

(** A completed [checkLimit] slept through some waits, dropped a prefix of
    the stored timestamps and appended the clock reading of its last pass;
    that reading is the one timestamp it registered. *)
Lemma checkLimit_fuel_completes (fuel : nat) :
  forall (e e' : Env) (l l' : Limiter),
    checkLimit_fuel fuel cfg e l = Some (e', l') ->
    exists waits dropped kept,
      log e' = log e ++ map (EvDelay LimitWait) waits ++ [EvRegister (clock e')]
      /\ requests l = dropped ++ kept
      /\ requests l' = kept ++ [clock e']
      /\ Forall (fun w => 0 < w) waits
      /\ clock e <= clock e'
      /\ calls e' = calls e.
Proof.
  induction fuel as [|fuel IH]; intros e e' l l' Hrun; [discriminate|].
  simpl in Hrun.
  destruct (checkLimit_once cfg (clock e) l) as [l1|w l1] eqn:Hpass.
  - inversion Hrun; subst. clear Hrun.
    apply checkLimit_once_Registered in Hpass. subst l'.
    destruct (purge_split cfg (clock e) l) as [removed [Hsplit _]].
    exists [], removed, (requests (purge cfg (clock e) l)). simpl.
    repeat split; auto; try lia.
  - apply checkLimit_once_Sleep in Hpass.
    destruct Hpass as [-> [_ [Hw _]]].
    apply IH in Hrun.
    destruct Hrun as [waits [dropped [kept [Hlog [Hreq [Hreq' [Hpos [Hc Hk]]]]]]]].
    destruct (purge_split cfg (clock e) l) as [removed [Hsplit _]].
    exists (w :: waits), (removed ++ dropped), kept.
    repeat split.
    + rewrite Hlog. simpl. rewrite <- app_assoc. reflexivity.
    + rewrite Hsplit, Hreq, app_assoc. reflexivity.
    + exact Hreq'.
    + constructor; assumption.
    + unfold delay in Hc. pose proof (elapse_clock w
        (record (EvDelay LimitWait w) e)) as Hc'. simpl in Hc, Hc' |- *. lia.
    + exact Hk.
Qed.

Lemma checkLimit_fuel_Inv (fuel : nat) :
  1 <= maxRequests cfg ->
  forall (e e' : Env) (l l' : Limiter),
    EInv cfg e l ->
    checkLimit_fuel fuel cfg e l = Some (e', l') ->
    EInv cfg e' l'.
Proof.
  intros Hmax. induction fuel as [|fuel IH]; intros e e' l l' HI Hrun;
    [discriminate|].
  simpl in Hrun.
  pose proof (Inv_checkLimit_once cfg (clock e) (clock e) l _ Hmax HI
                (Z.le_refl _)) as Hstep.
  destruct (checkLimit_once cfg (clock e) l) as [l1|w l1] eqn:Hpass.
  - inversion Hrun; subst. clear Hrun.
    unfold EInv. simpl. rewrite registeredOf_app. simpl. exact Hstep.
  - apply (IH _ _ l1 _) in Hrun; [exact Hrun|].
    unfold EInv, delay.
    replace (registeredOf (log (elapse w (record (EvDelay LimitWait w) e))))
      with (registeredOf (log e)).
    + eapply Inv_later; [exact Hstep|].
      pose proof (elapse_clock w (record (EvDelay LimitWait w) e)) as Hc.
      simpl in Hc |- *. lia.
    + simpl. rewrite registeredOf_app. simpl. rewrite app_nil_r. reflexivity.
Qed.

Lemma EInv_elapse (ms : Z) (e : Env) (l : Limiter) :
  EInv cfg e l -> EInv cfg (elapse ms e) l.
Proof.
  unfold EInv. intros HI. simpl log.
  eapply Inv_later; [exact HI|].
  pose proof (elapse_clock ms e). lia.
Qed.

End Calls.

(* ------------------------------------------------------------------ *)
(** ** Rate limiter: [execute] *)
(* ------------------------------------------------------------------ *)

Section Execute.

Variable cfg : RateLimiterConfig.

Lemma backoffsOf_waits (ws : list Z) :
  backoffsOf (map (EvDelay LimitWait) ws) = [].
Proof. induction ws; simpl; auto. Qed.

Lemma callsOf_waits (ws : list Z) :
  callsOf (map (EvDelay LimitWait) ws) = [].
Proof. induction ws; simpl; auto. Qed.

Lemma registeredOf_waits (ws : list Z) :
  registeredOf (map (EvDelay LimitWait) ws) = [].
Proof. induction ws; simpl; auto. Qed.

Lemma backoffSchedule_length (rc k : nat) :
  length (backoffSchedule cfg rc k) = k.
Proof. revert rc; induction k; intros rc; simpl; auto. Qed.

Lemma backoffSchedule_nth (k : nat) :
  forall (rc i : nat), (i < k)%nat ->
    nth i (backoffSchedule cfg rc k) 0 =
    retryDelayMs cfg * 2 ^ Z.of_nat (rc + i).
Proof.
  induction k as [|k IH]; intros rc i Hi; [lia|].
  destruct i as [|i]; simpl.
  - rewrite Nat.add_0_r. reflexivity.
  - rewrite IH by lia. do 3 f_equal. lia.
Qed.

(** What a completed [checkLimit] leaves in the log, seen by the three
    projections. *)
Lemma checkLimit_log (e e' : Env) (l l' : Limiter) :
  checkLimit cfg e l = Some (e', l') ->
  backoffsOf (log e') = backoffsOf (log e) /\
  callsOf (log e') = callsOf (log e) /\
  registeredOf (log e') = registeredOf (log e) ++ [clock e'] /\
  calls e' = calls e /\
  clock e <= clock e'.
Proof.
  intros Hrun. apply checkLimit_fuel_completes in Hrun.
  destruct Hrun as [waits [_ [_ [Hlog [_ [_ [_ [Hc Hk]]]]]]]].
  rewrite Hlog.
  rewrite !backoffsOf_app, !callsOf_app, !registeredOf_app.
  rewrite backoffsOf_waits, callsOf_waits, registeredOf_waits. simpl.
  rewrite !app_nil_r. auto.
Qed.

Section Script.

Context {T : Type}.
Variable fn : script T.

(** The trace of a completed [execute]: [S n] invocations of [fn], the first
    [n] of them failing with a rate-limit error and each followed by the
    next delay of the schedule; the result is how the last one settled. *)
Lemma execute_fuel_trace (fuel : nat) :
  forall (rc : nat) (e e' : Env) (l l' : Limiter) (r : T + thrown),
    execute_fuel fuel cfg fn rc e l = Some (r, e', l') ->
    exists n : nat,
      calls e' = (calls e + S n)%nat /\
      callsOf (log e') = callsOf (log e) ++ seq (calls e) (S n) /\
      backoffsOf (log e') = backoffsOf (log e) ++ backoffSchedule cfg rc n /\
      r = fn (calls e + n)%nat /\
      (forall i, (i < n)%nat ->
         exists err, fn (calls e + i)%nat = inr err /\
                     isRateLimitError err = true) /\
      (n = O \/ Z.of_nat rc + Z.of_nat n <= maxRetries cfg) /\
      (forall err, r = inr err -> isRateLimitError err = true ->
         maxRetries cfg <= Z.of_nat rc + Z.of_nat n).
Proof.
  induction fuel as [|fuel IH]; intros rc e e' l l' r Hrun; [discriminate|].
  simpl in Hrun.
  destruct (checkLimit cfg e l) as [[e1 l1]|] eqn:Hcheck; [|discriminate].
  apply checkLimit_log in Hcheck.
  destruct Hcheck as [Hb1 [Hc1 [_ [Hk1 _]]]].
  assert (Hstop : forall e2,
    e2 = elapse 0 {| clock := clock e1; lag := lag e1; calls := S (calls e1);
                     log := log e1 ++ [EvCall (calls e1)] |} ->
    r = fn (calls e1) -> e' = e2 ->
    (forall err, r = inr err -> isRateLimitError err = true ->
       maxRetries cfg <= Z.of_nat rc) ->
    exists n : nat,
      calls e' = (calls e + S n)%nat /\
      callsOf (log e') = callsOf (log e) ++ seq (calls e) (S n) /\
      backoffsOf (log e') = backoffsOf (log e) ++ backoffSchedule cfg rc n /\
      r = fn (calls e + n)%nat /\
      (forall i, (i < n)%nat ->
         exists err, fn (calls e + i)%nat = inr err /\
                     isRateLimitError err = true) /\
      (n = O \/ Z.of_nat rc + Z.of_nat n <= maxRetries cfg) /\
      (forall err, r = inr err -> isRateLimitError err = true ->
         maxRetries cfg <= Z.of_nat rc + Z.of_nat n)).
  { intros e2 -> Hr -> Hlast. exists O. simpl.
    rewrite callsOf_app, backoffsOf_app, Hb1, Hc1, Hk1. simpl.
    rewrite app_nil_r, Nat.add_0_r.
    repeat split; auto; try lia;
      try (intros i Hi; lia);
      try (intros err H1 H2; specialize (Hlast err H1 H2); lia).
    rewrite <- Hk1. exact Hr. }
  unfold invoke in Hrun.
  destruct (fn (calls e1)) as [value|error] eqn:Hfn.
  - inversion Hrun; subst. eapply Hstop; eauto. discriminate.
  - destruct (isRateLimitError error && (Z.of_nat rc <? maxRetries cfg))
      eqn:Hretry.
    + clear Hstop. apply andb_true_iff in Hretry.
      destruct Hretry as [Hrate Hlt]. apply Z.ltb_lt in Hlt.
      apply IH in Hrun.
      destruct Hrun as [n [Hk [Hc [Hb [Hr [Hall [Hle Hlast]]]]]]].
      unfold delay in Hk, Hc, Hb, Hr, Hall. simpl in Hk, Hc, Hb, Hr, Hall.
      rewrite !callsOf_app, Hc1 in Hc. rewrite !backoffsOf_app, Hb1 in Hb.
      simpl in Hc, Hb. rewrite Hk1 in *.
      exists (S n). repeat split.
      * lia.
      * rewrite Hc, !app_nil_r, <- app_assoc. reflexivity.
      * rewrite Hb, !app_nil_r, <- app_assoc. reflexivity.
      * rewrite Hr. f_equal. lia.
      * intros i Hi. destruct i as [|i].
        -- exists error. rewrite Nat.add_0_r. auto.
        -- destruct (Hall i ltac:(lia)) as [err [H1 H2]].
           exists err. split; [|exact H2]. rewrite <- H1. f_equal. lia.
      * right. destruct Hle as [-> | Hle]; lia.
      * intros err H1 H2. specialize (Hlast err H1 H2). lia.
    + inversion Hrun; subst. eapply Hstop; eauto.
      intros err Herr Hrate. inversion Herr; subst.
      rewrite Hrate in Hretry. simpl in Hretry. apply Z.ltb_ge in Hretry.
      exact Hretry.
Qed.

Lemma last_cons_default {A : Type} (l : list A) :
  forall a d, last (a :: l) d = last l a.
Proof.
  induction l as [|b l IH]; intros a d; [reflexivity|].
  change (last (a :: b :: l) d) with (last (b :: l) d).
  rewrite (IH b d), (IH b a). reflexivity.
Qed.

(** Where the delays fall.  The log of a completed [execute] is made of
    its attempts, the delay of the schedule between each attempt and the
    next; each attempt is made no earlier than the one before it plus
    that delay, and [execute] completes no earlier than its last
    attempt. *)
Lemma execute_fuel_timed (fuel : nat) :
  forall (rc : nat) (e e' : Env) (l l' : Limiter) (r : T + thrown),
    execute_fuel fuel cfg fn rc e l = Some (r, e', l') ->
    exists first rest,
      log e' = log e ++ retryTrace cfg (calls e) rc first rest /\
      spaced cfg rc (snd first) rest /\
      clock e <= snd first /\
      last (map snd rest) (snd first) <= clock e' /\
      calls e' = (calls e + S (length rest))%nat.
Proof.
  induction fuel as [|fuel IH]; intros rc e e' l l' r Hrun; [discriminate|].
  simpl in Hrun.
  destruct (checkLimit cfg e l) as [[e1 l1]|] eqn:Hcheck; [|discriminate].
  unfold checkLimit in Hcheck. apply checkLimit_fuel_completes in Hcheck.
  destruct Hcheck as [waits [_ [_ [Hlog [_ [_ [_ [Hclock Hcalls]]]]]]]].
  set (e2 := elapse 0 {| clock := clock e1; lag := lag e1;
                         calls := S (calls e1);
                         log := log e1 ++ [EvCall (calls e1)] |}) in *.
  assert (Hc2 : clock e1 <= clock e2).
  { unfold e2, elapse. simpl. lia. }
  assert (Hstop : e' = e2 ->
    exists first rest,
      log e' = log e ++ retryTrace cfg (calls e) rc first rest /\
      spaced cfg rc (snd first) rest /\
      clock e <= snd first /\
      last (map snd rest) (snd first) <= clock e' /\
      calls e' = (calls e + S (length rest))%nat).
  { intros ->. exists (waits, clock e1), [].
    unfold e2 at 1. simpl. unfold attemptEvents. simpl.
    rewrite Hlog, Hcalls, app_nil_r, <- !app_assoc. simpl.
    repeat split; auto; lia. }
  unfold invoke in Hrun. fold e2 in Hrun.
  destruct (fn (calls e1)) as [value|error].
  - inversion Hrun; subst. apply Hstop. reflexivity.
  - destruct (isRateLimitError error && (Z.of_nat rc <? maxRetries cfg)).
    + clear Hstop. apply IH in Hrun.
      destruct Hrun as [first [rest [Hlog' [Hsp [Hc [Hc' Hk]]]]]].
      pose proof (elapse_clock (retryDelayMs cfg * 2 ^ Z.of_nat rc)
                    (record
                       (EvDelay RetryBackoff
                          (retryDelayMs cfg * 2 ^ Z.of_nat rc)) e2))
        as Hwait.
      unfold delay in Hlog', Hc, Hk. simpl in Hlog', Hk.
      change (clock (record
                       (EvDelay RetryBackoff
                          (retryDelayMs cfg * 2 ^ Z.of_nat rc)) e2))
        with (clock e2) in Hwait.
      exists (waits, clock e1), (first :: rest).
      split; [|split; [|split; [|split]]].
      * rewrite Hlog'. simpl. unfold attemptEvents. simpl.
        rewrite Hlog, Hcalls, <- !app_assoc. simpl. reflexivity.
      * simpl. split; [lia | exact Hsp].
      * simpl. exact Hclock.
      * cbn [map]. rewrite last_cons_default. exact Hc'.
      * simpl. rewrite Hk, Hcalls. lia.
    + inversion Hrun; subst. apply Hstop. reflexivity.
Qed.

(** [execute] always completes. *)
Lemma execute_fuel_total (fuel : nat) :
  forall (rc : nat) (e : Env) (l : Limiter),
    (Z.to_nat (maxRetries cfg - Z.of_nat rc) < fuel)%nat ->
    exists r, execute_fuel fuel cfg fn rc e l = Some r.
Proof.
  induction fuel as [|fuel IH]; intros rc e l Hfuel; [lia|].
  simpl. destruct (checkLimit_total cfg e l) as [[e1 l1] ->].
  unfold invoke. destruct (fn (calls e1)) as [value|error];
    [eexists; reflexivity|].
  destruct (isRateLimitError error && (Z.of_nat rc <? maxRetries cfg))
    eqn:Hretry; [|eexists; reflexivity].
  apply andb_true_iff in Hretry. destruct Hretry as [_ Hlt].
  apply Z.ltb_lt in Hlt. apply IH. lia.
Qed.

Lemma execute_total (rc : nat) (e : Env) (l : Limiter) :
  exists r e' l', execute cfg fn rc e l = Some (r, e', l').
Proof.
  destruct (execute_fuel_total
              (S (Z.to_nat (maxRetries cfg - Z.of_nat rc))) rc e l)
    as [[[r e'] l'] H]; [lia|].
  exists r, e', l'. exact H.
Qed.

(** [execute] keeps the invariant of the limiter. *)
Lemma execute_fuel_Inv (fuel : nat) :
  1 <= maxRequests cfg ->
  forall (rc : nat) (e e' : Env) (l l' : Limiter) (r : T + thrown),
    EInv cfg e l ->
    execute_fuel fuel cfg fn rc e l = Some (r, e', l') ->
    EInv cfg e' l'.
Proof.
  intros Hmax. induction fuel as [|fuel IH];
    intros rc e e' l l' r HI Hrun; [discriminate|].
  simpl in Hrun.
  destruct (checkLimit cfg e l) as [[e1 l1]|] eqn:Hcheck; [|discriminate].
  apply (checkLimit_fuel_Inv cfg _ Hmax _ _ _ _ HI) in Hcheck.
  assert (HI2 : EInv cfg
            (elapse 0 {| clock := clock e1; lag := lag e1;
                         calls := S (calls e1);
                         log := log e1 ++ [EvCall (calls e1)] |}) l1).
  { apply EInv_elapse. unfold EInv in *. simpl.
    rewrite registeredOf_app. simpl. rewrite app_nil_r. exact Hcheck. }
  unfold invoke in Hrun.
  destruct (fn (calls e1)) as [value|error].
  - inversion Hrun; subst. exact HI2.
  - destruct (isRateLimitError error && (Z.of_nat rc <? maxRetries cfg)).
    + eapply IH; [|exact Hrun].
      unfold delay. apply EInv_elapse. unfold EInv in *. simpl in *.
      rewrite registeredOf_app. simpl. rewrite app_nil_r. exact HI2.
    + inversion Hrun; subst. exact HI2.
Qed.

End Script.

(** Any sequence of calls completes and keeps the invariant. *)
Lemma performAll_total (cs : list call) :
  forall (e : Env) (l : Limiter), exists e' l',
    performAll cfg cs e l = Some (e', l').
Proof.
  induction cs as [|c cs IH]; intros e l; simpl.
  - exists e, l. reflexivity.
  - destruct c as [|T fn]; simpl.
    + destruct (checkLimit_total cfg (elapse 0 e) l) as [[e1 l1] ->].
      apply IH.
    + destruct (execute_total fn O (elapse 0 e) l) as [r [e1 [l1 ->]]].
      apply IH.
Qed.

Lemma performAll_Inv (cs : list call) :
  1 <= maxRequests cfg ->
  forall (e e' : Env) (l l' : Limiter),
    EInv cfg e l ->
    performAll cfg cs e l = Some (e', l') ->
    EInv cfg e' l'.
Proof.
  intros Hmax. induction cs as [|c cs IH]; intros e e' l l' HI Hrun;
    simpl in Hrun.
  - inversion Hrun; subst. exact HI.
  - destruct (perform cfg c (elapse 0 e) l) as [[e1 l1]|] eqn:Hc;
      [|discriminate].
    apply (IH _ _ l1 _) in Hrun; [exact Hrun|].
    apply (EInv_elapse cfg 0) in HI.
    destruct c as [|T fn]; simpl in Hc.
    + eapply checkLimit_fuel_Inv; eauto.
    + destruct (execute cfg fn O (elapse 0 e) l) as [[[r e2] l2]|] eqn:He;
        [|discriminate].
      inversion Hc; subst.
      eapply execute_fuel_Inv; eauto.
Qed.

End Execute.

(* ------------------------------------------------------------------ *)
(** ** Rate limiter: the statements of the specification *)
(* ------------------------------------------------------------------ *)

Lemma countIn_suffix (cfg : RateLimiterConfig) (a : Z) (old reqs : list Z) :
  countIn cfg a reqs <= countIn cfg a (old ++ reqs).
Proof.
  rewrite countIn_app. pose proof (countIn_nonneg cfg a old). lia.
Qed.

(** C2, as amended: on a limiter whose [maxRequests] is at least 1, with a
    clock that never runs backwards, every sequence of sequential
    [checkLimit] and [execute] calls completes, and after it no window
    [a <= t < a + windowMs] holds more than [maxRequests] of the timestamps
    registered so far, nor of those still stored. *)
Theorem C2_window_count_bounded :
  forall (cfg : RateLimiterConfig) (cs : list call)
         (start : Z) (lags : list nat),
    1 <= maxRequests cfg ->
    exists e l,
      performAll cfg cs
        {| clock := start; lag := lags; calls := O; log := [] |} create
      = Some (e, l) /\
      (forall a, countIn cfg a (registeredOf (log e)) <= maxRequests cfg) /\
      (forall a, countIn cfg a (requests l) <= maxRequests cfg).
Proof.
  intros cfg cs start lags Hmax.
  destruct (performAll_total cfg cs
              {| clock := start; lag := lags; calls := O; log := [] |} create)
    as [e [l Hrun]].
  exists e, l. split; [exact Hrun|].
  assert (HI : EInv cfg e l).
  { eapply performAll_Inv; [exact Hmax| |exact Hrun].
    unfold EInv. simpl. apply Inv_create. lia. }
  destruct HI as [[old [Hhist _]] _ Hwin _ _].
  split; [exact Hwin|].
  intros a. specialize (Hwin a). rewrite Hhist in Hwin.
  pose proof (countIn_suffix cfg a old (requests l)). lia.
Qed.

Lemma C2_window_count_bounded_witness :
  exists e l,
    performAll (config 2 1000 None None)
      [CallCheckLimit; CallCheckLimit; CallCheckLimit]
      {| clock := 1700000000000; lag := [3%nat; 4%nat]; calls := O;
         log := [] |} create
    = Some (e, l) /\
    (forall a, countIn (config 2 1000 None None) a (registeredOf (log e))
               <= maxRequests (config 2 1000 None None)) /\
    (forall a, countIn (config 2 1000 None None) a (requests l)
               <= maxRequests (config 2 1000 None None)).
Proof.
  apply (C2_window_count_bounded (config 2 1000 None None)
           [CallCheckLimit; CallCheckLimit; CallCheckLimit]
           1700000000000 [3%nat; 4%nat]).
  simpl. lia.
Defined.

(** C2 as stated fails on a limiter configured with [maxRequests = 0]: the
    stored list is empty, there is no oldest request to wait for, and the
    request is registered. *)
Lemma C2_counterexample_zero_limit :
  exists e l,
    performAll (config 0 1000 None None) [CallCheckLimit]
      {| clock := 1700000000000; lag := []; calls := O; log := [] |} create
    = Some (e, l) /\
    countIn (config 0 1000 None None) 1700000000000 (registeredOf (log e))
    > maxRequests (config 0 1000 None None).
Proof.
  eexists. eexists. split; [vm_compute; reflexivity|].
  vm_compute. reflexivity.
Qed.







Lemma backoffSchedule_map (cfg : RateLimiterConfig) (k : nat) :
  forall rc,
    backoffSchedule cfg rc k =
    map (fun i => retryDelayMs cfg * 2 ^ Z.of_nat i) (seq rc k).
Proof.
  induction k as [|k IH]; intros rc; simpl; [reflexivity|].
  rewrite IH. reflexivity.
Qed.

(** The four substrings that classify a failure as a rate-limit failure. *)
Lemma isRateLimitError_spec (error : thrown) :
  isRateLimitError error = true <->
  exists msg pre post pattern,
    error = ErrorObject msg /\
    In pattern ["rate limit"; "quota exceeded"; "429"; "too many requests"]%string /\
    JS.toLowerCase msg = pre ++ JS.lit pattern ++ post.
Proof.
  destruct error as [msg|tag]; simpl.
  - rewrite !orb_true_iff, !JSFacts.includes_spec. split.
    + intros [[[[pre [post H]] | [pre [post H]]] | [pre [post H]]]
             | [pre [post H]]].
      * exists msg, pre, post, "rate limit"%string. simpl; auto.
      * exists msg, pre, post, "quota exceeded"%string. simpl; auto.
      * exists msg, pre, post, "429"%string. simpl; auto 6.
      * exists msg, pre, post, "too many requests"%string. simpl; auto 7.
    + intros [m [pre [post [pattern [Hm [Hin H]]]]]].
      inversion Hm; subst m. clear Hm.
      destruct Hin as [<- | [<- | [<- | [<- | []]]]].
      * left; left; left. exists pre, post. exact H.
      * left; left; right. exists pre, post. exact H.
      * left; right. exists pre, post. exact H.
      * right. exists pre, post. exact H.
  - split; [discriminate|].
    intros [m [_ [_ [_ [Hm _]]]]]. discriminate.
Qed.

(** C3, as amended.  [execute(fn)] always completes, after [n + 1]
    invocations of [fn] where [n] is at most [maxRetries] (and 0 when
    [maxRetries] is not positive): at most [maxRetries] retries, that is
    [maxRetries + 1] attempts in all.
    - Its result is how the last invocation settled, value or failure,
      unchanged.
    - Each of the [n] earlier invocations failed with a rate-limit failure
      (an [Error] whose lower-cased message contains "rate limit",
      "quota exceeded", "429" or "too many requests").
    - It waits before each retry: what [execute] adds to the log is its
      attempts in order, each one the waits for the limit, the registration
      and the invocation of [fn], with the delay [retryDelayMs * 2^i]
      between attempt [i] and attempt [i + 1] (counted from 0); and on the
      clock attempt [i + 1] is made no earlier than attempt [i] plus that
      delay, the first attempt no earlier than the call and the return no
      earlier than the last attempt.
    - A first failure that is not so classified is the result, with no
      retry.
    - A rate-limit failure is the result only when all [maxRetries] retries
      have been made. *)
Theorem C3_execute_retry_policy :
  forall (cfg : RateLimiterConfig) (T : Type) (fn : script T)
         (e : Env) (l : Limiter),
    exists (r : T + thrown) (e' : Env) (l' : Limiter) (n : nat)
           (first : list Z * Z) (rest : list (list Z * Z)),
      execute cfg fn O e l = Some (r, e', l') /\
      callsOf (log e') = callsOf (log e) ++ seq (calls e) (S n) /\
      Z.of_nat n <= Z.max 0 (maxRetries cfg) /\
      r = fn (calls e + n)%nat /\
      (forall i, (i < n)%nat ->
         exists err, fn (calls e + i)%nat = inr err /\
                     isRateLimitError err = true) /\
      backoffsOf (log e') =
        backoffsOf (log e) ++
        map (fun i => retryDelayMs cfg * 2 ^ Z.of_nat i) (seq O n) /\
      length rest = n /\
      log e' = log e ++ retryTrace cfg (calls e) O first rest /\
      spaced cfg O (snd first) rest /\
      clock e <= snd first /\
      last (map snd rest) (snd first) <= clock e' /\
      (forall err, fn (calls e) = inr err -> isRateLimitError err = false ->
         n = O /\ r = inr err) /\
      (forall err, r = inr err -> isRateLimitError err = true ->
         Z.of_nat n = Z.max 0 (maxRetries cfg)) /\
      (forall error, isRateLimitError error = true <->
         exists msg pre post pattern,
           error = ErrorObject msg /\
           In pattern ["rate limit"; "quota exceeded"; "429";
                       "too many requests"]%string /\
           JS.toLowerCase msg = pre ++ JS.lit pattern ++ post).
Proof.
  intros cfg T fn e l.
  destruct (execute_total cfg fn O e l) as [r [e' [l' Hrun]]].
  pose proof Hrun as Htrace. unfold execute in Htrace.
  pose proof (execute_fuel_timed cfg fn _ _ _ _ _ _ _ Htrace) as Htimed.
  apply execute_fuel_trace in Htrace.
  destruct Htrace as [n [Hk [Hc [Hb [Hr [Hall [Hle Hlast]]]]]]].
  destruct Htimed as [first [rest [Hlog [Hsp [Hfirst [Hend Hk']]]]]].
  assert (Hn : length rest = n) by lia.
  exists r, e', l', n, first, rest.
  split; [exact Hrun|]. split; [exact Hc|].
  split; [destruct Hle as [-> | Hle]; simpl in *; lia|].
  split; [exact Hr|]. split; [exact Hall|].
  split; [rewrite Hb, backoffSchedule_map; reflexivity|].
  split; [exact Hn|]. split; [exact Hlog|]. split; [exact Hsp|].
  split; [exact Hfirst|]. split; [exact Hend|].
  split; [|split].
  - intros err Hfirst' Hclass.
    destruct n as [|n].
    + split; [reflexivity|]. rewrite Hr, Nat.add_0_r. exact Hfirst'.
    + destruct (Hall O ltac:(lia)) as [err' [H1 H2]].
      rewrite Nat.add_0_r, Hfirst' in H1. inversion H1; subst.
      rewrite Hclass in H2. discriminate.
  - intros err H1 H2. specialize (Hlast err H1 H2).
    destruct Hle as [-> | Hle]; simpl in *; lia.
  - apply isRateLimitError_spec.
Qed.

Lemma C3_execute_retry_policy_witness :
  exists (r : nat + thrown) (e' : Env) (l' : Limiter) (n : nat)
         (first : list Z * Z) (rest : list (list Z * Z)),
    execute (config 60 60000 None None)
      (fun k => if Nat.eqb k 0
                then inr (ErrorObject (JS.lit "Quota Exceeded"))
                else inl k) O
      {| clock := 1700000000000; lag := []; calls := O; log := [] |} create
    = Some (r, e', l') /\
    callsOf (log e') = [] ++ seq O (S n) /\
    Z.of_nat n <= 3 /\
    length rest = n /\
    log e' = [] ++ retryTrace (config 60 60000 None None) O O first rest /\
    spaced (config 60 60000 None None) O (snd first) rest /\
    1700000000000 <= snd first /\
    last (map snd rest) (snd first) <= clock e'.
Proof.
  destruct (C3_execute_retry_policy (config 60 60000 None None) nat
              (fun k => if Nat.eqb k 0
                        then inr (ErrorObject (JS.lit "Quota Exceeded"))
                        else inl k)
              {| clock := 1700000000000; lag := []; calls := O; log := [] |}
              create)
    as [r [e' [l' [n [first [rest
         [H1 [H2 [H3 [_ [_ [_ [H4 [H5 [H6 [H7 [H8 _]]]]]]]]]]]]]]]]].
  exists r, e', l', n, first, rest.
  split; [exact H1|]. split; [exact H2|]. split; [exact H3|].
  split; [exact H4|]. split; [exact H5|]. split; [exact H6|].
  split; [exact H7 | exact H8].
Defined.

(** C3 as stated fails on the bound: with the default [maxRetries = 3] a
    function that keeps failing with a rate-limit failure is invoked four
    times before the failure propagates. *)
Lemma C3_counterexample_four_attempts :
  exists e' l',
    execute (config 60 60000 None None)
      (fun _ => inr (ErrorObject (JS.lit "429 Too Many Requests"))
         : unit + thrown) O
      {| clock := 1700000000000; lag := []; calls := O; log := [] |} create
    = Some (inr (ErrorObject (JS.lit "429 Too Many Requests")), e', l') /\
    callsOf (log e') = [0; 1; 2; 3]%nat /\
    backoffsOf (log e') = [1000; 2000; 4000] /\
    Z.of_nat (length (callsOf (log e')))
    > maxRetries (config 60 60000 None None).
Proof.
  eexists. eexists. split; [vm_compute; reflexivity|].
  repeat split; vm_compute; reflexivity.
Qed.

End RateLimiterFacts.

(* ------------------------------------------------------------------ *)
(** ** Validator: [sanitizeString] *)
(* ------------------------------------------------------------------ *)

Module ValidatorFacts.

Import JS Validator.

Lemma escapeChar_cases (c : N) :
  (escapeChar c = [c] /\ c <> 60 /\ c <> 62 /\ c <> 38 /\ c <> 34 /\ c <> 39)%N
  \/ exists tail, In tail entityTails /\ escapeChar c = 38%N :: tail.
Proof.
  unfold escapeChar.
  destruct (N.eqb_spec c 60); [right; exists (lit "lt;"); simpl; auto|].
  destruct (N.eqb_spec c 62); [right; exists (lit "gt;"); simpl; auto|].
  destruct (N.eqb_spec c 38); [right; exists (lit "amp;"); simpl; auto|].
  destruct (N.eqb_spec c 34); [right; exists (lit "quot;"); simpl; auto 6|].
  destruct (N.eqb_spec c 39); [right; exists (lit "#x27;"); simpl; auto 7|].
  left. auto 6.
Qed.

Lemma entityTails_clean (tail : jsstring) (c : N) :
  In tail entityTails -> In c tail ->
  isControl c = false /\ isMarkup c = false /\ c <> 38%N.
Proof.
  unfold entityTails. simpl.
  intros [<- | [<- | [<- | [<- | [<- | []]]]]]; simpl;
    intros Hc; repeat (destruct Hc as [<- | Hc]; [repeat split; discriminate|]);
    destruct Hc.
Qed.

(** No control character and no markup character survives the escaping of a
    list free of control characters. *)
Lemma escaped_alphabet (xs : jsstring) (c : N) :
  Forall (fun x => isControl x = false) xs ->
  In c (flat_map escapeChar xs) ->
  isControl c = false /\ isMarkup c = false.
Proof.
  intros Hall Hin. apply in_flat_map in Hin. destruct Hin as [x [Hx Hc]].
  rewrite Forall_forall in Hall. specialize (Hall x Hx).
  destruct (escapeChar_cases x) as [[Heq Hne] | [tail [Htail Heq]]];
    rewrite Heq in Hc.
  - destruct Hc as [<- | []]. split; [exact Hall|].
    unfold isMarkup. destruct Hne as [H1 [H2 [_ [H3 H4]]]].
    apply N.eqb_neq in H1, H2, H3, H4. rewrite H1, H2, H3, H4. reflexivity.
  - destruct Hc as [<- | Hc]; [split; reflexivity|].
    destruct (entityTails_clean tail c Htail Hc) as [H1 [H2 _]]. auto.
Qed.

(** Every ampersand of an escaped string begins an entity. *)
Lemma escaped_ampersands (xs : jsstring) :
  forall pre post,
    flat_map escapeChar xs = pre ++ 38%N :: post ->
    exists tail rest, In tail entityTails /\ post = tail ++ rest.
Proof.
  induction xs as [|x xs IH]; intros pre post Heq; simpl in Heq.
  - destruct pre; discriminate.
  - destruct (escapeChar_cases x) as [[Hx Hne] | [tail [Htail Hx]]];
      rewrite Hx in Heq.
    + destruct pre as [|p pre]; simpl in Heq; inversion Heq; subst.
      * destruct Hne as [_ [_ [H _]]]. contradiction.
      * eapply IH; eassumption.
    + destruct pre as [|p pre]; simpl in Heq; inversion Heq; subst.
      * exists tail, (flat_map escapeChar xs). auto.
      * clear Heq Hx.
        assert (Hscan : forall t pre0,
                  (forall c, In c t -> c <> 38%N) ->
                  t ++ flat_map escapeChar xs = pre0 ++ 38%N :: post ->
                  exists pre1, flat_map escapeChar xs = pre1 ++ 38%N :: post).
        { induction t as [|a t IHt]; intros pre0 Hclean H; simpl in H.
          - exists pre0. exact H.
          - destruct pre0 as [|q pre0]; simpl in H; inversion H; subst.
            + exfalso. apply (Hclean 38%N); [left|]; reflexivity.
            + apply (IHt pre0); [|assumption].
              intros c Hc. apply Hclean. right. exact Hc. }
        destruct (Hscan tail pre) as [pre1 Hpre1]; [|assumption|].
        -- intros c Hc. apply (entityTails_clean tail c Htail Hc).
        -- eapply IH; eassumption.
Qed.

Lemma sanitizeString_string (s : jsstring) (maxLength : Z) :
  sanitizeString (JSString s) maxLength =
  flat_map escapeChar
    (filter (fun c => negb (isControl c)) (slice0 s maxLength)).
Proof.
  unfold sanitizeString. destruct s as [|c s]; simpl; [|reflexivity].
  unfold slice0. destruct (maxLength <? 0); rewrite firstn_nil; reflexivity.
Qed.

Lemma sanitizeString_shape (input : jsvalue) (maxLength : Z) :
  exists xs, Forall (fun x => isControl x = false) xs /\
             sanitizeString input maxLength = flat_map escapeChar xs.
Proof.
  destruct input as [| |b|n|s|];
    try (exists []; split; [constructor | reflexivity]).
  - exists []. split; [constructor|]. unfold sanitizeString.
    destruct (falsy (JSBoolean b) || notString (JSBoolean b)); reflexivity.
  - exists []. split; [constructor|]. unfold sanitizeString.
    destruct (falsy (JSNumber n) || notString (JSNumber n)); reflexivity.
  - exists (filter (fun c => negb (isControl c)) (slice0 s maxLength)).
    split; [|apply sanitizeString_string].
    apply Forall_forall. intros x Hx. apply filter_In in Hx.
    destruct Hx as [_ Hx]. apply negb_true_iff. exact Hx.
Qed.

Lemma isControl_spec (c : N) :
  isControl c = true <->
  (c <= 8 \/ c = 11 \/ c = 12 \/ 14 <= c <= 31 \/ c = 127)%N.
Proof.
  unfold isControl.
  rewrite !orb_true_iff, andb_true_iff, !N.leb_le, !N.eqb_eq. tauto.
Qed.

Lemma escapeChar_table :
  escapeChar 60 = lit "&lt;" /\ escapeChar 62 = lit "&gt;" /\
  escapeChar 38 = lit "&amp;" /\ escapeChar 34 = lit "&quot;" /\
  escapeChar 39 = lit "&#x27;" /\
  forall c, (c <> 60 -> c <> 62 -> c <> 38 -> c <> 34 -> c <> 39 ->
             escapeChar c = [c])%N.
Proof.
  repeat (split; [reflexivity|]).
  intros c H1 H2 H3 H4 H5. unfold escapeChar.
  apply N.eqb_neq in H1, H2, H3, H4, H5.
  rewrite H1, H2, H3, H4, H5. reflexivity.
Qed.

(** C10.  For every input and [maxLength] the result of [sanitizeString]
    holds no control character of the listed set and no raw, that is
    unescaped, less-than, greater-than, ampersand, double quote or single
    quote: the first two and the quotes do not occur at all, and an
    ampersand occurs only as the first character of one of the five
    entities [&lt;] [&gt;] [&amp;] [&quot;] [&#x27;].  For a string the
    result is the first [maxLength] characters with the control characters
    of the set U+0000-U+0008, U+000B, U+000C, U+000E-U+001F, U+007F taken
    out and then each of the five characters replaced by its entity and
    every other character kept, so the cut comes before the escaping.  A
    value that is not a string, and the empty string, give the empty
    string. *)
Theorem C10_sanitizeString_alphabet :
  forall (input : jsvalue) (maxLength : Z),
    (forall c, In c (sanitizeString input maxLength) ->
       isControl c = false /\ c <> 60%N /\ c <> 62%N /\ c <> 34%N /\ c <> 39%N)
    /\
    (forall pre post,
       sanitizeString input maxLength = pre ++ 38%N :: post ->
       exists tail rest, In tail entityTails /\ post = tail ++ rest) /\
    ((forall s, input = JSString s -> s = []) ->
     sanitizeString input maxLength = []) /\
    (forall s, input = JSString s ->
       sanitizeString input maxLength =
       flat_map escapeChar
         (filter (fun c => negb (isControl c)) (slice0 s maxLength))) /\
    (forall c, isControl c = true <->
       (c <= 8 \/ c = 11 \/ c = 12 \/ 14 <= c <= 31 \/ c = 127)%N) /\
    (escapeChar 60 = lit "&lt;" /\ escapeChar 62 = lit "&gt;" /\
     escapeChar 38 = lit "&amp;" /\ escapeChar 34 = lit "&quot;" /\
     escapeChar 39 = lit "&#x27;" /\
     forall c, (c <> 60 -> c <> 62 -> c <> 38 -> c <> 34 -> c <> 39 ->
                escapeChar c = [c])%N).
Proof.
  intros input maxLength.
  destruct (sanitizeString_shape input maxLength) as [xs [Hxs Heq]].
  split; [|split; [|split; [|split; [|split]]]].
  - intros c Hc. rewrite Heq in Hc.
    destruct (escaped_alphabet xs c Hxs Hc) as [H1 H2].
    split; [exact H1|]. unfold isMarkup in H2.
    apply orb_false_iff in H2. destruct H2 as [H2 H5].
    apply orb_false_iff in H2. destruct H2 as [H2 H4].
    apply orb_false_iff in H2. destruct H2 as [H2 H3].
    apply N.eqb_neq in H2, H3, H4, H5. auto.
  - intros pre post H. rewrite Heq in H. eapply escaped_ampersands; eauto.
  - intros Hempty. destruct input as [| |b|n|s|]; try reflexivity.
    + unfold sanitizeString.
      destruct (falsy (JSBoolean b) || notString (JSBoolean b)); reflexivity.
    + unfold sanitizeString.
      destruct (falsy (JSNumber n) || notString (JSNumber n)); reflexivity.
    + rewrite (Hempty s eq_refl). reflexivity.
  - intros s ->. apply sanitizeString_string.
  - apply isControl_spec.
  - apply escapeChar_table.
Qed.

Lemma C10_sanitizeString_alphabet_witness :
  sanitizeString (JSString (7%N :: lit "<b>Tom & 'Jerry'</b>"))
    defaultMaxLength
  = lit "&lt;b&gt;Tom &amp; &#x27;Jerry&#x27;&lt;/b&gt;" /\
  Forall (fun c => isControl c = false /\ c <> 60%N /\ c <> 62%N /\
                   c <> 34%N /\ c <> 39%N)
    (sanitizeString (JSString (7%N :: lit "<b>Tom & 'Jerry'</b>"))
       defaultMaxLength).
Proof.
  split; [vm_compute; reflexivity|].
  apply Forall_forall.
  exact (proj1 (C10_sanitizeString_alphabet
                  (JSString (7%N :: lit "<b>Tom & 'Jerry'</b>"))
                  defaultMaxLength)).
Defined.

(* ------------------------------------------------------------------ *)
(** ** Validator: [validateTaskDescription] *)
(* ------------------------------------------------------------------ *)

Lemma validateTaskDescription_not_string (d : jsvalue) :
  (forall s, d = JSString s -> s = []) ->
  exists err, validateTaskDescription d = inr err.
Proof.
  intros Hd. unfold validateTaskDescription.
  destruct d as [| |b|n|s|]; simpl; try (eexists; reflexivity).
  - destruct (negb b || true) eqn:E; eexists; reflexivity.
  - rewrite orb_true_r. eexists; reflexivity.
  - rewrite (Hd s eq_refl). simpl. eexists; reflexivity.
Qed.

Lemma validateTaskDescription_string (c : N) (s : jsstring) :
  validateTaskDescription (JSString (c :: s)) =
  let trimmed := trim (c :: s) in
  if Nat.eqb (length trimmed) 0 then
    inr (mkValidationError
           "Task description cannot be empty" "description")
  else if 10000 <? Z.of_nat (length trimmed) then
    inr (mkValidationError
           "Task description cannot exceed 10,000 characters" "description")
  else if existsb (fun pattern => test pattern trimmed) suspiciousPatterns then
    inr (mkValidationError
           "Task description contains potentially unsafe content"
           "description")
  else inl trimmed.
Proof. reflexivity. Qed.

(** C8.  [validateTaskDescription] raises a [ValidationError] exactly when
    the input is not a non-empty string, or its trimmed form is empty, is
    longer than 10 000 characters, or matches one of the five patterns;
    otherwise it returns the trimmed description.  A trimmed length of
    10 000 passes the length check and 10 001 does not. *)
Theorem C8_validateTaskDescription_rejects_iff :
  forall d : jsvalue,
    ((exists err, validateTaskDescription d = inr err) <->
     ((forall s, d = JSString s -> s = []) \/
      exists s, d = JSString s /\
        (trim s = [] \/
         10000 < Z.of_nat (length (trim s)) \/
         exists pattern, In pattern suspiciousPatterns /\
                         test pattern (trim s) = true))) /\
    (forall out, validateTaskDescription d = inl out ->
       exists s, d = JSString s /\ out = trim s) /\
    (forall s, d = JSString s -> Z.of_nat (length (trim s)) = 10001 ->
       exists err, validateTaskDescription d = inr err) /\
    (forall s, d = JSString s -> Z.of_nat (length (trim s)) = 10000 ->
       (forall pattern, In pattern suspiciousPatterns ->
                        test pattern (trim s) = false) ->
       validateTaskDescription d = inl (trim s)).
Proof.
  intros d.
  assert (Hstr : forall c s,
    (exists err, validateTaskDescription (JSString (c :: s)) = inr err) <->
    (trim (c :: s) = [] \/
     10000 < Z.of_nat (length (trim (c :: s))) \/
     exists pattern, In pattern suspiciousPatterns /\
                     test pattern (trim (c :: s)) = true)).
  { intros c s. rewrite validateTaskDescription_string. cbv zeta.
    destruct (trim (c :: s)) as [|t ts] eqn:Htrim.
    - simpl. split; [auto | intros _; eexists; reflexivity].
    - change (Nat.eqb (length (t :: ts)) 0) with false. cbv iota.
      destruct (10000 <? Z.of_nat (length (t :: ts))) eqn:Hlen.
      + apply Z.ltb_lt in Hlen.
        split; [auto | intros _; eexists; reflexivity].
      + apply Z.ltb_ge in Hlen.
        destruct (existsb (fun pattern => test pattern (t :: ts))
                    suspiciousPatterns) eqn:Hpat.
        * apply existsb_exists in Hpat.
          split; [auto | intros _; eexists; reflexivity].
        * split; [intros [err H]; discriminate|].
          intros [H | [H | H]]; [discriminate | lia |].
          apply existsb_exists in H. rewrite H in Hpat. discriminate. }
  split; [|split; [|split]].
  - split.
    + intros Herr. destruct d as [| |b|n|s|];
        try (left; intros s0 H; discriminate).
      destruct s as [|c s]; [left; intros s0 H; inversion H; reflexivity|].
      right. exists (c :: s). split; [reflexivity|]. apply Hstr. exact Herr.
    + intros [Hd | [s [-> Hs]]].
      * apply validateTaskDescription_not_string. exact Hd.
      * destruct s as [|c s].
        -- apply validateTaskDescription_not_string.
           intros s0 H; inversion H; reflexivity.
        -- apply Hstr. exact Hs.
  - intros out Hout.
    destruct d as [| |b|n|s|]; try discriminate.
    + unfold validateTaskDescription in Hout. simpl in Hout.
      destruct (negb b || true); discriminate.
    + unfold validateTaskDescription in Hout. simpl in Hout.
      rewrite orb_true_r in Hout. discriminate.
    + destruct s as [|c s]; [discriminate|].
      exists (c :: s). split; [reflexivity|].
      rewrite validateTaskDescription_string in Hout. cbv zeta in Hout.
      destruct (Nat.eqb (length (trim (c :: s))) 0); [discriminate|].
      destruct (10000 <? Z.of_nat (length (trim (c :: s)))); [discriminate|].
      destruct (existsb (fun pattern => test pattern (trim (c :: s)))
                  suspiciousPatterns); [discriminate|].
      inversion Hout. reflexivity.
  - intros s -> Hlen. destruct s as [|c s]; [discriminate|].
    apply Hstr. right. left. lia.
  - intros s -> Hlen Hpat. destruct s as [|c s]; [discriminate|].
    rewrite validateTaskDescription_string. cbv zeta.
    replace (Nat.eqb (length (trim (c :: s))) 0) with false
      by (symmetry; apply Nat.eqb_neq; lia).
    replace (10000 <? Z.of_nat (length (trim (c :: s)))) with false
      by (symmetry; apply Z.ltb_ge; lia).
    replace (existsb (fun pattern => test pattern (trim (c :: s)))
               suspiciousPatterns) with false; [reflexivity|].
    symmetry. apply not_true_is_false. intros H.
    apply existsb_exists in H. destruct H as [pattern [Hin Ht]].
    rewrite (Hpat pattern Hin) in Ht. discriminate.
Qed.

Lemma C8_validateTaskDescription_rejects_iff_witness :
  exists s, JSString (lit "  Build a REST API  ") = JSString s /\
            lit "Build a REST API" = trim s.
Proof.
  apply (proj1 (proj2 (C8_validateTaskDescription_rejects_iff
                         (JSString (lit "  Build a REST API  "))))).
  vm_compute. reflexivity.
Defined.

End ValidatorFacts.

(* ------------------------------------------------------------------ *)
(** ** Path security: containment *)
(* ------------------------------------------------------------------ *)

Module PathSecurityFacts.

Import JS Validator PathSecurity.

Lemma checkExisting_returns (h : Host) (fs : FileSystem) (inputPath : jsvalue)
  (realPath p : jsstring) (opts : Options) :
  checkExisting h fs inputPath realPath opts = Returned p -> p = realPath.
Proof.
  unfold checkExisting.
  destruct (stat fs realPath) as [stats|]; [|discriminate].
  repeat match goal with
         | |- context [if ?b then _ else _] => destruct b; try discriminate
         end.
  intros H; inversion H; reflexivity.
Qed.

Lemma within_spec (h : Host) (realBaseDir realPath : jsstring) :
  within h realBaseDir realPath = true <->
  realPath = realBaseDir \/ exists rest, realPath = realBaseDir ++ sep h ++ rest.
Proof.
  unfold within. rewrite orb_true_iff, JSFacts.startsWith_spec,
    JSFacts.str_eqb_eq.
  split.
  - intros [[rest H] | H]; [right | left; exact H].
    exists rest. rewrite H, app_assoc. reflexivity.
  - intros [H | [rest H]]; [right; exact H | left].
    exists rest. rewrite H, app_assoc. reflexivity.
Qed.

(** C9, as amended.  Whenever [resolveSafePath] returns a path, the real
    path of the base directory exists and the returned path, as a string,
    is that real path or begins with it followed by the separator.  With
    [mustExist] true, or left out, the returned path is the real path of
    the resolved path, symbolic links followed, so the file it names lies
    in the base directory.  With [mustExist] false the returned path is
    the resolved path as it is: it need not exist, and no symbolic link on
    it has been followed. *)
Theorem C9_resolveSafePath_contained :
  forall (h : Host) (fs : FileSystem) (inputPath : jsvalue)
         (baseDir : jsstring) (opts : Options) (p : jsstring),
    resolveSafePath h fs inputPath baseDir opts = Returned p ->
    exists realBaseDir path,
      inputPath = JSString path /\
      realpath fs baseDir = Some realBaseDir /\
      (p = realBaseDir \/ startsWith p (realBaseDir ++ sep h) = true) /\
      (p = realBaseDir \/ exists rest, p = realBaseDir ++ sep h ++ rest) /\
      (if orDefault (mustExist opts) true
       then realpath fs (resolve h baseDir (normalize h path)) = Some p
       else p = resolve h baseDir (normalize h path)).
Proof.
  intros h fs inputPath baseDir opts p. unfold resolveSafePath.
  destruct (falsy inputPath || notString inputPath); [discriminate|].
  destruct inputPath as [| |b|n|path|]; try discriminate.
  cbv zeta.
  destruct (realpath fs baseDir) as [realBaseDir|] eqn:Hbase;
    [|destruct (orDefault (mustExist opts) true); discriminate].
  destruct (orDefault (mustExist opts) true) eqn:Hmust.
  - destruct (realpath fs (resolve h baseDir (normalize h path)))
      as [realPath|] eqn:Hreal; [|discriminate].
    destruct (within h realBaseDir realPath) eqn:Hin; [|discriminate].
    simpl. intros Hret. apply checkExisting_returns in Hret. subst p.
    exists realBaseDir, path. repeat split; auto.
    + unfold within in Hin. apply orb_true_iff in Hin.
      destruct Hin as [H | H]; [right; exact H | left].
      apply JSFacts.str_eqb_eq. exact H.
    + apply within_spec. exact Hin.
  - destruct (within h realBaseDir (resolve h baseDir (normalize h path)))
      eqn:Hin; [|discriminate].
    simpl. intros Hret. inversion Hret; subst p.
    exists realBaseDir, path. repeat split; auto.
    + unfold within in Hin. apply orb_true_iff in Hin.
      destruct Hin as [H | H]; [right; exact H | left].
      apply JSFacts.str_eqb_eq. exact H.
    + apply within_spec. exact Hin.
Qed.

Lemma C9_resolveSafePath_contained_witness :
  exists realBaseDir path,
    JSString (lit "notes.txt") = JSString path /\
    realpath exampleFs (lit "/work") = Some realBaseDir /\
    (lit "/work/notes.txt" = realBaseDir \/
     startsWith (lit "/work/notes.txt") (realBaseDir ++ sep exampleHost)
     = true) /\
    (lit "/work/notes.txt" = realBaseDir \/
     exists rest, lit "/work/notes.txt"
                  = realBaseDir ++ sep exampleHost ++ rest) /\
    (if orDefault (mustExist noOptions) true
     then realpath exampleFs
            (resolve exampleHost (lit "/work")
               (normalize exampleHost path))
          = Some (lit "/work/notes.txt")
     else lit "/work/notes.txt"
          = resolve exampleHost (lit "/work") (normalize exampleHost path)).
Proof.
  apply (C9_resolveSafePath_contained exampleHost exampleFs
           (JSString (lit "notes.txt")) (lit "/work") noOptions
           (lit "/work/notes.txt")).
  vm_compute. reflexivity.
Defined.

(** C9 as stated fails with [mustExist] false.  Where [/base/dir_out] is a
    symbolic link to [/outside], the path [dir_out/secret.txt] under the
    base [/base] is returned as [/base/dir_out/secret.txt], a string that
    begins with the base; the file it names is [/outside/secret.txt],
    which is not in the base directory. *)
Lemma C9_counterexample_symlinked_directory :
  resolveSafePath exampleHost symlinkFs
    (JSString (lit "dir_out/secret.txt")) (lit "/base")
    {| mustExist := Some false; maxSize := None; allowedExtensions := None;
       requireReadable := None; requireWritable := None |}
  = Returned (lit "/base/dir_out/secret.txt") /\
  realpath symlinkFs (lit "/base") = Some (lit "/base") /\
  realpath symlinkFs (lit "/base/dir_out/secret.txt")
  = Some (lit "/outside/secret.txt") /\
  within exampleHost (lit "/base") (lit "/outside/secret.txt") = false.
Proof.
  split; [vm_compute; reflexivity|].
  split; [vm_compute; reflexivity|].
  split; vm_compute; reflexivity.
Qed.

End PathSecurityFacts.

(* ------------------------------------------------------------------ *)
(** ** Task queue: selection *)
(* ------------------------------------------------------------------ *)

Module TaskQueueFacts.

Import TaskQueue.

Lemma status_eqb_eq (a b : TaskStatus) : status_eqb a b = true <-> a = b.
Proof. destruct a, b; simpl; split; congruence. Qed.

Lemma getById_Some (q : Queue) (i : string) (t : Task) :
  getById q i = Some t -> In t q /\ id t = i.
Proof.
  induction q as [|u q IH]; simpl; [discriminate|].
  destruct (String.eqb (id u) i) eqn:E.
  - intros H; inversion H; subst. apply String.eqb_eq in E. auto.
  - intros H. destruct (IH H). auto.
Qed.

Lemma getById_None (q : Queue) (i : string) :
  getById q i = None <-> ~ In i (map id q).
Proof.
  induction q as [|u q IH]; simpl; [tauto|].
  destruct (String.eqb (id u) i) eqn:E.
  - apply String.eqb_eq in E. split; [discriminate | tauto].
  - apply String.eqb_neq in E. rewrite IH. tauto.
Qed.

Lemma getById_In (q : Queue) (t : Task) :
  wellFormed q -> In t q -> getById q (id t) = Some t.
Proof.
  unfold wellFormed. induction q as [|u q IH]; simpl; intros Hnd Hin;
    [destruct Hin|].
  inversion Hnd as [|? ? Hnotin Hnd']; subst.
  destruct Hin as [-> | Hin].
  - rewrite String.eqb_refl. reflexivity.
  - destruct (String.eqb (id u) (id t)) eqn:E; [|apply IH; assumption].
    apply String.eqb_eq in E. exfalso. apply Hnotin. rewrite E.
    apply in_map. exact Hin.
Qed.

Lemma dominates_refl (p : Task) : dominates p p.
Proof. unfold dominates. lia. Qed.

Lemma dominates_trans (p b u : Task) :
  dominates p b -> dominates b u -> dominates p u.
Proof. unfold dominates. lia. Qed.

Lemma before_false (u b : Task) : before u b = false -> dominates b u.
Proof.
  unfold before, dominates. intros H.
  apply orb_false_iff in H. destruct H as [H1 H2].
  apply Z.ltb_ge in H1. split; [exact H1|]. intros Heq.
  apply andb_false_iff in H2. destruct H2 as [H2 | H2].
  - apply Z.eqb_neq in H2. lia.
  - apply Z.ltb_ge in H2. exact H2.
Qed.

Lemma before_true (u b : Task) : before u b = true -> dominates u b.
Proof.
  unfold before, dominates. intros H.
  apply orb_true_iff in H. destruct H as [H | H].
  - apply Z.ltb_lt in H. lia.
  - apply andb_true_iff in H. destruct H as [H1 H2].
    apply Z.eqb_eq in H1. apply Z.ltb_lt in H2. lia.
Qed.

Lemma pick_best (candidates : list Task) :
  forall best,
    In (pick best candidates) (best :: candidates) /\
    forall u, In u (best :: candidates) ->
              dominates (pick best candidates) u.
Proof.
  induction candidates as [|c cs IH]; intros best; simpl.
  - split; [auto|]. intros u [<- | []]. apply dominates_refl.
  - destruct (IH (if before c best then c else best)) as [Hin Hdom].
    split.
    + destruct Hin as [Hin | Hin]; [|auto].
      destruct (before c best); rewrite <- Hin; auto.
    + intros u Hu.
      assert (Hb : dominates (if before c best then c else best) best /\
                   dominates (if before c best then c else best) c).
      { destruct (before c best) eqn:E.
        - split; [apply before_true; exact E | apply dominates_refl].
        - split; [apply dominates_refl | apply before_false; exact E]. }
      destruct Hb as [Hb1 Hb2].
      pose proof (Hdom _ (or_introl eq_refl)) as Hp.
      destruct Hu as [<- | [<- | Hu]].
      * eapply dominates_trans; eassumption.
      * eapply dominates_trans; eassumption.
      * apply Hdom. right. exact Hu.
Qed.

Lemma setStatus_ids (i : string) (st : TaskStatus) (q : Queue) :
  map id (setStatus i st q) = map id q.
Proof.
  unfold setStatus. rewrite map_map. apply map_ext.
  intros t. destruct (String.eqb (id t) i); reflexivity.
Qed.

Lemma getById_setStatus_same (i : string) (st : TaskStatus) (q : Queue)
  (t : Task) :
  getById q i = Some t -> getById (setStatus i st q) i = Some (withStatus st t).
Proof.
  induction q as [|u q IH]; simpl; [discriminate|].
  destruct (String.eqb (id u) i) eqn:E; simpl; rewrite E.
  - intros H; inversion H; subst. reflexivity.
  - exact IH.
Qed.

Lemma getById_setStatus_other (i j : string) (st : TaskStatus) (q : Queue) :
  i <> j -> getById (setStatus i st q) j = getById q j.
Proof.
  intros Hij. induction q as [|u q IH]; simpl; [reflexivity|].
  destruct (String.eqb (id u) i) eqn:E; simpl.
  - apply String.eqb_eq in E.
    destruct (String.eqb (id u) j) eqn:Ej.
    + apply String.eqb_eq in Ej. congruence.
    + exact IH.
  - destruct (String.eqb (id u) j); [reflexivity | exact IH].
Qed.

Lemma eligible_spec (q : Queue) (t : Task) :
  eligible q t = true <->
  status t = pending /\
  forall d, In d (dependencies t) ->
    exists u, getById q d = Some u /\ status u = completed.
Proof.
  unfold eligible. rewrite andb_true_iff, status_eqb_eq, forallb_forall.
  split; intros [Hs Hd]; (split; [exact Hs|]); intros d Hin;
    specialize (Hd d Hin); unfold dependencyMet in *.
  - destruct (getById q d) as [u|]; [|discriminate].
    exists u. split; [reflexivity|]. apply status_eqb_eq. exact Hd.
  - destruct Hd as [u [-> Hu]]. apply status_eqb_eq. exact Hu.
Qed.

(** What [getNext] returns and leaves, on a queue with one task per id. *)
Lemma getNext_selection (q : Queue) :
  wellFormed q ->
  match getNext q with
  | (None, q') =>
      q' = q /\ forall t, In t q -> eligible q t = false
  | (Some r, q') =>
      exists t,
        In t q /\ eligible q t = true /\
        r = withStatus running t /\
        status r = running /\
        getById q' (id r) = Some r /\
        (forall u, In u q -> eligible q u = true -> dominates t u) /\
        (forall i, i <> id t -> getById q' i = getById q i) /\
        wellFormed q'
  end.
Proof.
  intros Hwf. unfold getNext.
  destruct (filter (eligible q) q) as [|c cs] eqn:Hf.
  - split; [reflexivity|]. intros t Hin.
    destruct (eligible q t) eqn:E; [|reflexivity].
    assert (Hin' : In t (filter (eligible q) q))
      by (apply filter_In; auto).
    rewrite Hf in Hin'. destruct Hin'.
  - cbv zeta. destruct (pick_best cs c) as [Hin Hdom].
    rewrite <- Hf in Hin. apply filter_In in Hin. destruct Hin as [Hin Hel].
    exists (pick c cs). repeat split; auto.
    + simpl. apply getById_setStatus_same. apply getById_In; assumption.
    + apply Hdom. rewrite <- Hf. apply filter_In. auto.
    + apply Hdom. rewrite <- Hf. apply filter_In. auto.
    + intros i Hi. apply getById_setStatus_other. congruence.
    + unfold wellFormed. rewrite setStatus_ids. exact Hwf.
Qed.

(** C1.  On a queue with one task per id: when no task is eligible,
    [getNext] returns null and leaves the queue as it is; otherwise it
    returns an eligible task whose priority rank no eligible task exceeds
    and, among those of that rank, whose [createdAt] is earliest; the
    returned task is in status [running], and so is the task stored under
    its id after the call, every other task being unchanged.  A task is
    eligible exactly when it is pending and each of its dependencies is the
    id of a completed task of the queue. *)
Theorem C1_getNext_selects_best_eligible :
  forall q : Queue,
    wellFormed q ->
    (forall t, eligible q t = true <->
       status t = pending /\
       forall d, In d (dependencies t) ->
         exists u, getById q d = Some u /\ status u = completed) /\
    match getNext q with
    | (None, q') =>
        q' = q /\ forall t, In t q -> eligible q t = false
    | (Some r, q') =>
        exists t,
          In t q /\ eligible q t = true /\
          r = withStatus running t /\
          status r = running /\
          getById q' (id r) = Some r /\
          (forall u, In u q -> eligible q u = true ->
             priorityRank (priority u) <= priorityRank (priority t) /\
             (priorityRank (priority u) = priorityRank (priority t) ->
              createdAt t <= createdAt u)) /\
          (forall i, i <> id t -> getById q' i = getById q i) /\
          wellFormed q'
    end.
Proof.
  intros q Hwf. split; [intros t; apply eligible_spec|].
  exact (getNext_selection q Hwf).
Qed.

Lemma C1_getNext_selects_best_eligible_witness :
  exists r q',
    getNext [newTask "L" low [] 1; newTask "H" high [] 2;
             newTask "M" medium [] 3] = (Some r, q') /\
    status r = running /\
    getById q' (id r) = Some r.
Proof.
  assert (Hwf : wellFormed [newTask "L" low [] 1; newTask "H" high [] 2;
                            newTask "M" medium [] 3]).
  { unfold wellFormed. simpl.
    repeat constructor; simpl; intuition discriminate. }
  destruct (C1_getNext_selects_best_eligible _ Hwf) as [_ H].
  destruct (getNext [newTask "L" low [] 1; newTask "H" high [] 2;
                     newTask "M" medium [] 3]) as [[r|] q'] eqn:E.
  - destruct H as [t [_ [_ [_ [Hs [Hg _]]]]]].
    exists r, q'. repeat split; assumption.
  - vm_compute in E. discriminate.
Defined.

(* ------------------------------------------------------------------ *)
(** ** Task queue: dependency cycles *)
(* ------------------------------------------------------------------ *)

Lemma add_ids (task : Task) (q : Queue) :
  map id (add task q) =
  if existsb (String.eqb (id task)) (map id q) then map id q
  else map id q ++ [id task].
Proof.
  induction q as [|u q IH]; simpl; [reflexivity|].
  rewrite (String.eqb_sym (id task) (id u)).
  destruct (String.eqb (id u) (id task)) eqn:E; simpl.
  - apply String.eqb_eq in E. rewrite E. reflexivity.
  - rewrite IH. destruct (existsb (String.eqb (id task)) (map id q));
      reflexivity.
Qed.

Lemma add_wellFormed (task : Task) (q : Queue) :
  wellFormed q -> wellFormed (add task q).
Proof.
  unfold wellFormed. intros Hnd. rewrite add_ids.
  destruct (existsb (String.eqb (id task)) (map id q)) eqn:E; [exact Hnd|].
  apply NoDup_app; [exact Hnd | repeat constructor; simpl; tauto |].
  intros i Hi [<- | []].
  assert (existsb (String.eqb (id task)) (map id q) = true); [|congruence].
  apply existsb_exists. exists (id task). split; [exact Hi|].
  apply String.eqb_refl.
Qed.

Lemma add_keeps (task x : Task) (q : Queue) :
  id task <> id x -> In x q -> In x (add task q).
Proof.
  intros Hne. induction q as [|u q IH]; simpl; [tauto|].
  intros [-> | Hin].
  - destruct (String.eqb (id x) (id task)) eqn:E; [|left; reflexivity].
    apply String.eqb_eq in E. congruence.
  - destruct (String.eqb (id u) (id task)); right; auto.
Qed.

Lemma NoDup_map_filter {A B : Type} (f : A -> B) (keep : A -> bool)
  (l : list A) :
  NoDup (map f l) -> NoDup (map f (filter keep l)).
Proof.
  induction l as [|a l IH]; simpl; intros Hnd; [constructor|].
  inversion Hnd as [|? ? Hnotin Hnd']; subst.
  destruct (keep a); simpl; [|auto].
  constructor; [|auto]. intros Hin. apply Hnotin.
  apply in_map_iff in Hin. destruct Hin as [b [Hb Hin]].
  apply filter_In in Hin. apply in_map_iff. exists b. tauto.
Qed.

Lemma finish_ids (i : string) (success : bool) (q : Queue) :
  map id (finish i success q) = map id q.
Proof.
  unfold finish. rewrite map_map. apply map_ext. intros t.
  destruct (String.eqb (id t) i && status_eqb (status t) running);
    reflexivity.
Qed.

Section Cycle.

Variables x y : Task.
Hypothesis x_pending : status x = pending.
Hypothesis y_pending : status y = pending.
Hypothesis x_needs_y : In (id y) (dependencies x).
Hypothesis y_needs_x : In (id x) (dependencies y).

Lemma Stuck_ineligible (q : Queue) :
  Stuck x y q -> eligible q x = false /\ eligible q y = false.
Proof.
  intros [Hwf [Hx Hy]].
  assert (Hdep : forall a b, In a q -> In b q -> status b = pending ->
                             In (id b) (dependencies a) ->
                             eligible q a = false).
  { intros a b Ha Hb Hpend Hdep.
    destruct (eligible q a) eqn:E; [|reflexivity].
    apply eligible_spec in E. destruct E as [_ Hall].
    destruct (Hall _ Hdep) as [u [Hu Hdone]].
    rewrite (getById_In q b Hwf Hb) in Hu. inversion Hu; subst.
    congruence. }
  split; [apply (Hdep x y) | apply (Hdep y x)]; assumption.
Qed.

Lemma Stuck_getNext (q : Queue) :
  Stuck x y q ->
  Stuck x y (snd (getNext q)) /\
  forall r, fst (getNext q) = Some r -> id r <> id x /\ id r <> id y.
Proof.
  intros HS. pose proof (Stuck_ineligible q HS) as [Hex Hey].
  destruct HS as [Hwf [Hx Hy]].
  pose proof (getNext_selection q Hwf) as H.
  destruct (getNext q) as [[r|] q'] eqn:Hg; simpl.
  - destruct H as [t [Hin [Hel [Hr [_ [_ [_ [Hother Hwf']]]]]]]].
    assert (Hne : forall z, In z q -> eligible q z = false -> id t <> id z).
    { intros z Hz Helz Heq.
      pose proof (getById_In q t Hwf Hin) as H1.
      pose proof (getById_In q z Hwf Hz) as H2.
      rewrite Heq, H2 in H1. inversion H1; subst. congruence. }
    split.
    + split; [exact Hwf'|].
      assert (Hkeep : forall z, In z q -> eligible q z = false -> In z q').
      { intros z Hz Helz.
        pose proof (Hother (id z) (fun E => Hne z Hz Helz (eq_sym E))) as Hq.
        rewrite (getById_In q z Hwf Hz) in Hq.
        apply getById_Some in Hq. tauto. }
      split; apply Hkeep; assumption.
    + intros r0 Hr0. inversion Hr0; subst r0. subst r. simpl.
      split; apply Hne; assumption.
  - destruct H as [-> _]. split; [repeat split; assumption|].
    intros r Hr. discriminate.
Qed.

Lemma Stuck_perform (q : Queue) (o : operation) :
  keepsIds (id x) (id y) o -> Stuck x y q -> Stuck x y (perform q o).
Proof.
  intros Hkeep HS. destruct o as [task| |i success|maxAgeMs now]; simpl.
  - destruct Hkeep as [H1 H2]. destruct HS as [Hwf [Hx Hy]].
    repeat split; [apply add_wellFormed | apply add_keeps..]; assumption.
  - apply Stuck_getNext. exact HS.
  - destruct HS as [Hwf [Hx Hy]]. repeat split.
    + unfold wellFormed. rewrite finish_ids. exact Hwf.
    + unfold finish. apply in_map_iff. exists x. split; [|exact Hx].
      rewrite x_pending. rewrite andb_false_r. reflexivity.
    + unfold finish. apply in_map_iff. exists y. split; [|exact Hy].
      rewrite y_pending. rewrite andb_false_r. reflexivity.
  - destruct HS as [Hwf [Hx Hy]]. repeat split.
    + unfold wellFormed, cleanup. apply NoDup_map_filter. exact Hwf.
    + unfold cleanup. apply filter_In. split; [exact Hx|].
      rewrite x_pending. reflexivity.
    + unfold cleanup. apply filter_In. split; [exact Hy|].
      rewrite y_pending. reflexivity.
Qed.

Lemma Stuck_performAll (ops : list operation) :
  forall q,
    Forall (keepsIds (id x) (id y)) ops -> Stuck x y q ->
    Stuck x y (performAll ops q).
Proof.
  unfold performAll. induction ops as [|o ops IH]; intros q Hall HS;
    simpl; [exact HS|].
  inversion Hall; subst. apply IH; [assumption|].
  apply Stuck_perform; assumption.
Qed.

End Cycle.

Lemma getNext_none_stable (q : Queue) :
  fst (getNext q) = None ->
  forall n, getNextTimes n q = (repeat None n, q).
Proof.
  intros Hnone.
  assert (Hsame : getNext q = (None, q)).
  { unfold getNext in *.
    destruct (filter (eligible q) q) as [|c cs]; [reflexivity|discriminate]. }
  intros n. induction n as [|n IH]; simpl; [reflexivity|].
  rewrite Hsame, IH. reflexivity.
Qed.

(** C4, as amended.  Take two pending tasks of a queue (one task per id),
    each listing the other's id among its dependencies.  After any sequence
    of operations that does not submit a task under one of their two ids
    (calls of [getNext], submissions under other ids, completions and
    failures reported by the scheduler, cleanups), both are still in the
    queue and ineligible, and [getNext] does not return either.  When no
    other task is eligible, [getNext] returns null and leaves the queue as
    it is, and so does every later call.  [getNext] has no failing
    outcome. *)
Theorem C4_pending_cycle_never_returned :
  forall (q : Queue) (x y : Task) (ops : list operation),
    wellFormed q -> In x q -> In y q ->
    status x = pending -> status y = pending ->
    In (id y) (dependencies x) -> In (id x) (dependencies y) ->
    Forall (keepsIds (id x) (id y)) ops ->
    In x (performAll ops q) /\ In y (performAll ops q) /\
    eligible (performAll ops q) x = false /\
    eligible (performAll ops q) y = false /\
    (forall r, fst (getNext (performAll ops q)) = Some r ->
               id r <> id x /\ id r <> id y) /\
    ((forall t, In t (performAll ops q) ->
                id t <> id x -> id t <> id y ->
                eligible (performAll ops q) t = false) ->
     forall n, getNextTimes n (performAll ops q)
               = (repeat None n, performAll ops q)).
Proof.
  intros q x y ops Hwf Hx Hy Hxp Hyp Hxy Hyx Hops.
  assert (HS : Stuck x y (performAll ops q)).
  { apply Stuck_performAll; try assumption. repeat split; assumption. }
  pose proof (Stuck_ineligible x y Hxp Hyp Hxy Hyx _ HS) as [Hex Hey].
  pose proof (Stuck_getNext x y Hxp Hyp Hxy Hyx _ HS) as [_ Hnot].
  destruct HS as [Hwf' [Hx' Hy']].
  repeat split; try assumption; try (apply Hnot; assumption).
  intros Hothers. apply getNext_none_stable.
  pose proof (getNext_selection _ Hwf') as Hsel.
  destruct (getNext (performAll ops q)) as [[r|] q'']; [|reflexivity].
  exfalso. destruct Hsel as [t [Hin [Hel _]]].
  assert (Hsame : forall z, In z (performAll ops q) -> id t = id z -> t = z).
  { intros z Hz Heq.
    pose proof (getById_In _ t Hwf' Hin) as H1.
    pose proof (getById_In _ z Hwf' Hz) as H2.
    rewrite Heq, H2 in H1. inversion H1. reflexivity. }
  destruct (string_dec (id t) (id x)) as [Ex | Ex];
    [rewrite (Hsame x Hx' Ex) in Hel; congruence|].
  destruct (string_dec (id t) (id y)) as [Ey | Ey];
    [rewrite (Hsame y Hy' Ey) in Hel; congruence|].
  rewrite (Hothers t Hin Ex Ey) in Hel. discriminate.
Qed.

Lemma C4_pending_cycle_never_returned_witness :
  getNextTimes 3
    (performAll [OpGetNext; OpCleanup 1000 5000]
       [newTask "x" medium ["y"%string] 1;
        newTask "y" high ["x"%string] 2])
  = (repeat None 3,
     performAll [OpGetNext; OpCleanup 1000 5000]
       [newTask "x" medium ["y"%string] 1;
        newTask "y" high ["x"%string] 2]).
Proof.
  assert (Hwf : wellFormed [newTask "x" medium ["y"%string] 1;
                            newTask "y" high ["x"%string] 2]).
  { unfold wellFormed. simpl.
    repeat constructor; simpl; intuition discriminate. }
  assert (Hops : Forall (keepsIds "x" "y")
                    [OpGetNext; OpCleanup 1000 5000])
    by (repeat constructor).
  destruct (C4_pending_cycle_never_returned
              [newTask "x" medium ["y"%string] 1;
               newTask "y" high ["x"%string] 2]
              (newTask "x" medium ["y"%string] 1)
              (newTask "y" high ["x"%string] 2)
              [OpGetNext; OpCleanup 1000 5000]
              Hwf
              (or_introl eq_refl)
              (or_intror (or_introl eq_refl))
              eq_refl eq_refl
              (or_introl eq_refl)
              (or_introl eq_refl)
              Hops)
    as [_ [_ [_ [_ [_ H]]]]].
  apply H. vm_compute.
  intros t [<- | [<- | []]] H1 H2; simpl in *; congruence.
Defined.

(** C4 as stated fails for a pair of which one task is completed.  Submit
    [y] depending on [x], then [x]; let both run and complete; submit [x]
    again, now depending on [y]: the two tasks list each other, and
    [getNext] returns [x]. *)
Lemma C4_counterexample_completed_member :
  getById
    (performAll
       [OpAdd (newTask "y" medium ["x"%string] 1);
        OpAdd (newTask "x" medium [] 2);
        OpGetNext; OpFinish "x" true;
        OpGetNext; OpFinish "y" true;
        OpAdd (newTask "x" medium ["y"%string] 3)] empty) "y"
  = Some (withStatus completed (newTask "y" medium ["x"%string] 1)) /\
  getById
    (performAll
       [OpAdd (newTask "y" medium ["x"%string] 1);
        OpAdd (newTask "x" medium [] 2);
        OpGetNext; OpFinish "x" true;
        OpGetNext; OpFinish "y" true;
        OpAdd (newTask "x" medium ["y"%string] 3)] empty) "x"
  = Some (newTask "x" medium ["y"%string] 3) /\
  fst (getNext
         (performAll
            [OpAdd (newTask "y" medium ["x"%string] 1);
             OpAdd (newTask "x" medium [] 2);
             OpGetNext; OpFinish "x" true;
             OpGetNext; OpFinish "y" true;
             OpAdd (newTask "x" medium ["y"%string] 3)] empty))
  = Some (withStatus running (newTask "x" medium ["y"%string] 3)).
Proof.
  repeat split; vm_compute; reflexivity.
Qed.

End TaskQueueFacts.

(* ------------------------------------------------------------------ *)
(** ** ISO-8601 strings: writing a time and reading it back *)
(* ------------------------------------------------------------------ *)

Module IsoDateFacts.

Import JS IsoDate.

Lemma civilOfDays_inverse (days : Z) :
  let '(y, m, d) := civilOfDays days in
  daysOfCivil y m d = days /\ 1 <= m <= 12 /\ 1 <= d <= 31 /\
  (days + 719468) / 146097 * 400 <= y <= (days + 719468) / 146097 * 400 + 400.
Proof.
  unfold civilOfDays. cbv zeta.
  pose proof (Z.mod_pos_bound (days + 719468) 146097 ltac:(lia)) as Hdoe.
  pose proof (Z.div_mod (days + 719468) 146097 ltac:(lia)) as Hdm.
  unfold era. fold (dayOfEra days) in Hdoe, Hdm.
  set (e := (days + 719468) / 146097) in *.
  set (doe := dayOfEra days) in *.
  assert (Hyoe : 0 <= yearOfEra doe <= 399).
  { unfold yearOfEra. Z.to_euclidean_division_equations; lia. }
  assert (Hdoy : 0 <= dayOfYear doe <= 365).
  { unfold dayOfYear, yearOfEra. Z.to_euclidean_division_equations; lia. }
  assert (Hdoe' : doe = 365 * yearOfEra doe + yearOfEra doe / 4
                        - yearOfEra doe / 100 + dayOfYear doe).
  { unfold dayOfYear. lia. }
  set (yoe := yearOfEra doe) in *.
  set (doy := dayOfYear doe) in *.
  assert (Hmp : 0 <= monthIndex doy <= 11).
  { unfold monthIndex. Z.to_euclidean_division_equations; lia. }
  assert (Hd : 1 <= doy - (153 * monthIndex doy + 2) / 5 + 1 <= 31).
  { unfold monthIndex. Z.to_euclidean_division_equations; lia. }
  set (mp := monthIndex doy) in *.
  unfold daysOfCivil. cbv zeta.
  destruct (mp <? 10) eqn:Emp;
    [apply Z.ltb_lt in Emp | apply Z.ltb_ge in Emp].
  - replace (mp + 3 <=? 2) with false by (symmetry; apply Z.leb_gt; lia).
    replace (2 <? mp + 3) with true by (symmetry; apply Z.ltb_lt; lia).
    replace (mp + 3 - 3) with mp by lia.
    replace ((yoe + e * 400) / 400) with e
      by (Z.to_euclidean_division_equations; lia).
    repeat split; try lia.
    replace (yoe + e * 400 - e * 400) with yoe by lia. lia.
  - replace (mp - 9 <=? 2) with true by (symmetry; apply Z.leb_le; lia).
    replace (2 <? mp - 9) with false by (symmetry; apply Z.ltb_ge; lia).
    replace (mp - 9 + 9) with mp by lia.
    replace (yoe + e * 400 + 1 - 1) with (yoe + e * 400) by lia.
    replace ((yoe + e * 400) / 400) with e
      by (Z.to_euclidean_division_equations; lia).
    repeat split; try lia.
    replace (yoe + e * 400 - e * 400) with yoe by lia. lia.
Qed.

(** A time is the time of its calendar fields, and the fields fit the
    widths that [toISOString] writes them in. *)
Lemma civilOfTime_inverse (t : Z) :
  validTime t ->
  timeOfCivil (civilOfTime t) = t /\
  -999999 <= year (civilOfTime t) <= 999999 /\
  0 <= month (civilOfTime t) < 100 /\
  0 <= day (civilOfTime t) < 100 /\
  0 <= hour (civilOfTime t) < 100 /\
  0 <= minute (civilOfTime t) < 100 /\
  0 <= second (civilOfTime t) < 100 /\
  0 <= millisecond (civilOfTime t) < 1000.
Proof.
  unfold validTime, maxTime. intros Ht.
  unfold civilOfTime, timeOfCivil.
  pose proof (civilOfDays_inverse (t / msPerDay)) as Hinv.
  destruct (civilOfDays (t / msPerDay)) as [[y m] d]. simpl.
  destruct Hinv as [Hdays [Hm [Hd Hy]]].
  rewrite Hdays. unfold msPerDay in *.
  pose proof (Z.mod_pos_bound t 86400000 ltac:(lia)) as Hms.
  pose proof (Z.div_mod t 86400000 ltac:(lia)) as Hdm.
  set (ms := t mod 86400000) in *.
  set (days := t / 86400000) in *.
  assert (Hdaysb : -100000000 <= days <= 100000000) by lia.
  repeat split; try lia;
    try (Z.to_euclidean_division_equations; lia).
Qed.

Lemma digitValue_digit (n : Z) : digitValue (digit n) = Some (n mod 10).
Proof.
  unfold digitValue, digit.
  pose proof (Z.mod_pos_bound n 10 ltac:(lia)) as Hb.
  replace ((48 <=? Z.to_N (48 + n mod 10))%N) with true
    by (symmetry; apply N.leb_le; lia).
  replace ((Z.to_N (48 + n mod 10) <=? 57)%N) with true
    by (symmetry; apply N.leb_le; lia).
  cbn [andb]. rewrite Z2N.id by lia. f_equal. lia.
Qed.

Lemma digit_not_sign (n : Z) :
  N.eqb (digit n) 43 = false /\ N.eqb (digit n) 45 = false.
Proof.
  unfold digit. pose proof (Z.mod_pos_bound n 10 ltac:(lia)) as Hb.
  split; apply N.eqb_neq; lia.
Qed.

Lemma parseDigitsFrom_app (a b : jsstring) :
  forall acc,
    parseDigitsFrom acc (a ++ b) =
    match parseDigitsFrom acc a with
    | Some v => parseDigitsFrom v b
    | None => None
    end.
Proof.
  induction a as [|c a IH]; intros acc; simpl; [reflexivity|].
  destruct (digitValue c); [apply IH | reflexivity].
Qed.

Lemma pad_length (w : nat) : forall n, length (pad w n) = w.
Proof.
  induction w as [|w IH]; intros n; simpl; [reflexivity|].
  rewrite length_app, IH. simpl. lia.
Qed.

Lemma parseDigitsFrom_pad (w : nat) :
  forall n acc,
    0 <= n ->
    parseDigitsFrom acc (pad w n)
    = Some (acc * 10 ^ Z.of_nat w + n mod 10 ^ Z.of_nat w).
Proof.
  induction w as [|w IH]; intros n acc Hn.
  - simpl. rewrite Z.mod_1_r. f_equal. lia.
  - cbn [pad]. rewrite parseDigitsFrom_app, IH
      by (apply Z.div_pos; lia).
    cbn [parseDigitsFrom]. rewrite digitValue_digit. f_equal.
    rewrite Nat2Z.inj_succ, Z.pow_succ_r by lia.
    rewrite (Z.rem_mul_r n 10 (10 ^ Z.of_nat w)) by lia.
    set (p := 10 ^ Z.of_nat w). lia.
Qed.

Lemma field_pad (w : nat) (stop : N) (n : Z) (rest : jsstring) :
  0 <= n < 10 ^ Z.of_nat w ->
  field w stop (pad w n ++ stop :: rest) = Some (n, rest).
Proof.
  intros Hn. unfold field.
  assert (Hf : firstn w (pad w n ++ stop :: rest) = pad w n).
  { rewrite firstn_app, pad_length, Nat.sub_diag. simpl.
    rewrite app_nil_r. apply firstn_all2. rewrite pad_length. lia. }
  assert (Hs : skipn w (pad w n ++ stop :: rest) = stop :: rest).
  { rewrite skipn_app, pad_length, Nat.sub_diag. simpl.
    rewrite skipn_all2; [reflexivity|]. rewrite pad_length. lia. }
  rewrite Hf, Hs. unfold parseDigits.
  rewrite parseDigitsFrom_pad by lia.
  rewrite pad_length, Nat.eqb_refl, N.eqb_refl. cbn [andb].
  rewrite Z.mod_small by lia. reflexivity.
Qed.

Lemma parseYear_formatYear (y : Z) (rest : jsstring) :
  -999999 <= y <= 999999 ->
  parseYear (formatYear y ++ 45%N :: rest) = Some (y, rest).
Proof.
  intros Hy. unfold formatYear.
  destruct ((0 <=? y) && (y <=? 9999)) eqn:E.
  - apply andb_true_iff in E. destruct E as [E1 E2].
    apply Z.leb_le in E1, E2.
    pose proof (field_pad 4 45 y rest ltac:(simpl; lia)) as Hf.
    remember (pad 4 y ++ 45%N :: rest) as s eqn:Hs.
    assert (Hhd : exists c tl, s = c :: tl /\ N.eqb c 43 = false
                               /\ N.eqb c 45 = false).
    { subst s. simpl.
      exists (digit (y / 10 / 10 / 10)). eexists. split; [reflexivity|].
      apply digit_not_sign. }
    destruct Hhd as [c [tl [Hc [H43 H45]]]].
    unfold parseYear. rewrite Hc, H43, H45, <- Hc. exact Hf.
  - destruct (y <? 0) eqn:Eneg.
    + apply Z.ltb_lt in Eneg.
      change (parseYear (45%N :: (pad 6 (Z.abs y) ++ 45%N :: rest))
              = Some (y, rest)).
      unfold parseYear. change (N.eqb 45 43) with false.
      change (N.eqb 45 45) with true. cbv iota.
      rewrite (field_pad 6 45 (Z.abs y) rest) by (simpl; lia).
      f_equal. f_equal. lia.
    + apply Z.ltb_ge in Eneg.
      change (parseYear (43%N :: (pad 6 (Z.abs y) ++ 45%N :: rest))
              = Some (y, rest)).
      unfold parseYear. change (N.eqb 43 43) with true. cbv iota.
      rewrite (field_pad 6 45 (Z.abs y) rest) by (simpl; lia).
      f_equal. f_equal. lia.
Qed.

(** Reading back what [toISOString] wrote gives the time written. *)
Lemma parseISO_toISOString (t : Z) :
  validTime t -> parseISO (toISOString t) = Some t.
Proof.
  intros Ht.
  destruct (civilOfTime_inverse t Ht)
    as [Htime [Hy [Hmo [Hd [Hh [Hmi [Hs Hms]]]]]]].
  unfold parseISO, toISOString. cbv zeta.
  remember (civilOfTime t) as c eqn:Hc.
  repeat rewrite <- app_assoc. cbn [app].
  rewrite parseYear_formatYear by lia.
  rewrite (field_pad 2 45) by (simpl; lia).
  rewrite (field_pad 2 84) by (simpl; lia).
  rewrite (field_pad 2 58) by (simpl; lia).
  rewrite (field_pad 2 58) by (simpl; lia).
  rewrite (field_pad 2 46) by (simpl; lia).
  rewrite (field_pad 3 90) by (simpl; lia).
  f_equal. rewrite <- Htime.
  destruct c; reflexivity.
Qed.

End IsoDateFacts.

(* ------------------------------------------------------------------ *)
(** ** Memory store: context retrieval *)
(* ------------------------------------------------------------------ *)

Module MemoryManagerFacts.

Import JS IsoDate MemoryManager.












(* ------------------------------------------------------------------ *)
(** ** Memory store: the persisted layout read back *)
(* ------------------------------------------------------------------ *)

Lemma typeOfName_typeName (t : EntryType) : typeOfName (typeName t) = Some t.
Proof. destruct t; vm_compute; reflexivity. Qed.

Lemma decodeContent_encodeContent (c : Content) :
  decodeContent (encodeContent c) = Some c.
Proof. destruct c; reflexivity. Qed.

Lemma asStrings_encoded (l : list jsstring) :
  asStrings (Some (JArray (map JString l))) = Some l.
Proof.
  simpl. induction l as [|x l IH]; simpl; [reflexivity|].
  rewrite IH. reflexivity.
Qed.

Lemma lookup_entry_fields (a b c d e f : json) :
  let fields := [(lit "id", a); (lit "agentId", b); (lit "timestamp", c);
                 (lit "type", d); (lit "content", e); (lit "tags", f)] in
  lookup (lit "id") fields = Some a /\
  lookup (lit "agentId") fields = Some b /\
  lookup (lit "timestamp") fields = Some c /\
  lookup (lit "type") fields = Some d /\
  lookup (lit "content") fields = Some e /\
  lookup (lit "tags") fields = Some f.
Proof. repeat split; reflexivity. Qed.

(** An entry written to the file is read back as it was. *)
Lemma decodeEntry_encodeEntry (e : MemoryEntry) :
  validTime (timestamp e) -> decodeEntry (encodeEntry e) = Some e.
Proof.
  intros Ht. unfold decodeEntry, encodeEntry.
  destruct (lookup_entry_fields (JString (id e)) (JString (agentId e))
              (JString (toISOString (timestamp e)))
              (JString (typeName (type e))) (encodeContent (content e))
              (JArray (map JString (tags e))))
    as [H1 [H2 [H3 [H4 [H5 H6]]]]].
  cbv zeta in H1, H2, H3, H4, H5, H6.
  rewrite H1, H2, H3, H4, H5, H6.
  rewrite asStrings_encoded. cbn [asString].
  rewrite (IsoDateFacts.parseISO_toISOString _ Ht), typeOfName_typeName,
    decodeContent_encodeContent.
  destruct e; reflexivity.
Qed.

Lemma allSome_map {A B : Type} (f : A -> option B) (g : A -> B)
  (l : list A) :
  (forall a, In a l -> f a = Some (g a)) ->
  allSome (map f l) = Some (map g l).
Proof.
  induction l as [|a l IH]; simpl; intros H; [reflexivity|].
  rewrite (H a (or_introl eq_refl)), IH; [reflexivity|].
  intros b Hb. apply H. right. exact Hb.
Qed.

(** The whole map is read back as it was written. *)
Lemma decodeMemory_encodeMemory (m : Memory) :
  Forall (fun e => validTime (timestamp e)) (entries m) ->
  decodeMemory (encodeMemory m) = Some m.
Proof.
  intros Hvalid. unfold decodeMemory, encodeMemory.
  rewrite map_map.
  rewrite (allSome_map _ (fun kv => kv)); [rewrite map_id; reflexivity|].
  intros [a es] Hin. unfold decodeAgent. simpl.
  rewrite map_map.
  rewrite (allSome_map _ (fun e => e)); [rewrite map_id; reflexivity|].
  intros e He. apply decodeEntry_encodeEntry.
  rewrite Forall_forall in Hvalid. apply Hvalid.
  unfold entries. apply in_flat_map. exists (a, es). auto.
Qed.

(** What [store] does to a store that was just initialized with no file
    behind it. *)
Lemma store_on_fresh (path : string) (d : Disk) (now : Z)
  (freshId : jsstring) (r : StoreRequest) :
  d path = None ->
  memory (store now freshId r (initialize d (create path)))
  = [(reqAgentId r,
      [{| id := freshId; agentId := reqAgentId r; timestamp := now;
          type := reqType r; content := reqContent r;
          tags := reqTags r |}])].
Proof.
  intros Hnone. unfold store, initialize, create. simpl. rewrite Hnone.
  simpl. unfold needsEviction, total, entries, tooOld. simpl.
  unfold maxAgeMs.
  replace (now <? now - 7 * 86400000) with false
    by (symmetry; apply Z.ltb_ge; lia).
  reflexivity.
Qed.

(** C6, as amended.  Take a store initialized on a path that holds no file,
    [store] one entry whose stringified content is not empty, [flush], and
    initialize a fresh store from the same path: [search] for the content
    of the entry returns exactly one entry, the one stored, with its
    content and its timestamp.  The file holds the timestamp as an ISO-8601
    string, which is read back as the date it was. *)
Theorem C6_store_flush_reload_search :
  forall (path : string) (d : Disk) (now : Z) (freshId : jsstring)
         (r : StoreRequest),
    d path = None ->
    validTime now ->
    contentText (reqContent r) <> [] ->
    fst (flush true d (store now freshId r (initialize d (create path))))
      path
    = Some (Document
              (JObject
                 [(reqAgentId r,
                   JArray
                     [JObject
                        [(lit "id", JString freshId);
                         (lit "agentId", JString (reqAgentId r));
                         (lit "timestamp", JString (toISOString now));
                         (lit "type", JString (typeName (reqType r)));
                         (lit "content", encodeContent (reqContent r));
                         (lit "tags", JArray (map JString (reqTags r)))]])]))
    /\
    search (contentText (reqContent r)) None
      (initialize
         (fst (flush true d
                 (store now freshId r (initialize d (create path)))))
         (create path))
    = [{| id := freshId; agentId := reqAgentId r; timestamp := now;
          type := reqType r; content := reqContent r;
          tags := reqTags r |}].
Proof.
  intros path d now freshId r Hnone Hvalid Hcontent.
  pose proof (store_on_fresh path d now freshId r Hnone) as Hmem.
  set (s1 := store now freshId r (initialize d (create path))) in *.
  assert (Hfile : fst (flush true d s1) path
                  = Some (Document (encodeMemory (memory s1)))).
  { unfold flush, write. simpl.
    replace (memoryPath s1) with path by reflexivity.
    rewrite String.eqb_refl. reflexivity. }
  split.
  - rewrite Hfile, Hmem. reflexivity.
  - assert (Hm2 : memory (initialize (fst (flush true d s1)) (create path))
                  = memory s1).
    { unfold initialize, create. cbn [initialized memoryPath memory].
      rewrite Hfile, decodeMemory_encodeMemory; [reflexivity|].
      rewrite Hmem. unfold entries. simpl.
      constructor; [exact Hvalid | constructor]. }
    unfold search. rewrite Hm2, Hmem.
    destruct (contentText (reqContent r)) as [|c text] eqn:Htext;
      [contradiction|].
    unfold entries. cbn [flat_map snd app filter content].
    rewrite Htext, JSFacts.includes_refl. reflexivity.
Qed.

Lemma C6_store_flush_reload_search_witness :
  search (lit "Persistent data") None
    (initialize
       (fst (flush true (fun _ => None)
               (store 1700000000123 (lit "m1")
                  {| reqAgentId := lit "A1"; reqType := result;
                     reqContent := Text (lit "Persistent data");
                     reqTags := [lit "test"] |}
                  (initialize (fun _ => None) (create "memory.json")))))
       (create "memory.json"))
  = [{| id := lit "m1"; agentId := lit "A1"; timestamp := 1700000000123;
        type := result; content := Text (lit "Persistent data");
        tags := [lit "test"] |}].
Proof.
  apply (proj2 (C6_store_flush_reload_search "memory.json" (fun _ => None)
                  1700000000123 (lit "m1")
                  {| reqAgentId := lit "A1"; reqType := result;
                     reqContent := Text (lit "Persistent data");
                     reqTags := [lit "test"] |}
                  eq_refl
                  ltac:(unfold validTime, maxTime; lia)
                  ltac:(discriminate))).
Defined.

(** C6 as stated fails for an entry whose content is the empty string: the
    entry is stored and read back, but a search for its content is a search
    for the empty query, which returns no entry. *)
Lemma C6_counterexample_empty_content :
  entries
    (memory
       (initialize
          (fst (flush true (fun _ => None)
                  (store 1700000000123 (lit "m1")
                     {| reqAgentId := lit "A1"; reqType := result;
                        reqContent := Text []; reqTags := [lit "test"] |}
                     (initialize (fun _ => None) (create "memory.json")))))
          (create "memory.json")))
  = [{| id := lit "m1"; agentId := lit "A1"; timestamp := 1700000000123;
        type := result; content := Text []; tags := [lit "test"] |}] /\
  search (contentText (Text [])) None
    (initialize
       (fst (flush true (fun _ => None)
               (store 1700000000123 (lit "m1")
                  {| reqAgentId := lit "A1"; reqType := result;
                     reqContent := Text []; reqTags := [lit "test"] |}
                  (initialize (fun _ => None) (create "memory.json")))))
       (create "memory.json"))
  = [].
Proof.
  split; [vm_compute; reflexivity | reflexivity].
Qed.

End MemoryManagerFacts.

(* ------------------------------------------------------------------ *)
(** ** Rate limiter: usage statistics, spacing, waits and retries *)
(* ------------------------------------------------------------------ *)

Module RateLimiterUsage.

Import RateLimiter RateLimiterFacts.

Lemma filter_length_impl {A : Type} (p q : A -> bool) (l : list A) :
  (forall a, In a l -> p a = true -> q a = true) ->
  (length (filter p l) <= length (filter q l))%nat.
Proof.
  induction l as [|a l IH]; intros H; simpl; [lia|].
  assert (IH' := IH (fun b Hb => H b (or_intror Hb))).
  destruct (p a) eqn:Ep.
  - rewrite (H a (or_introl eq_refl) Ep). simpl. lia.
  - destruct (q a); simpl; lia.
Qed.

(** Under the invariant, the count that [getStats] reports at any later
    clock reading is within the limit. *)
Lemma getStats_bounded (cfg : RateLimiterConfig) (now0 now : Z) (l : Limiter)
  (hist : list Z) :
  Inv cfg now0 l hist -> now0 <= now ->
  0 <= currentRequests (getStats cfg now l) <= maxRequests cfg.
Proof.
  intros [[old [Hhist _]] _ Hwin _ Hpast] Hle.
  unfold getStats. simpl. split; [lia|].
  specialize (Hwin (now - windowMs cfg + 1)).
  pose proof (countIn_suffix cfg (now - windowMs cfg + 1) old (requests l))
    as Hsuf.
  rewrite <- Hhist in Hsuf.
  assert (Hle' : (length (filter (fun t => (now - t <? windowMs cfg)%Z)
                            (requests l))
                  <= length (filter
                               (inWindow cfg (now - windowMs cfg + 1)%Z)
                               (requests l)))%nat).
  { apply filter_length_impl. intros t Ht Hact.
    apply Z.ltb_lt in Hact.
    rewrite Forall_forall in Hpast.
    assert (t <= now0).
    { apply Hpast. rewrite Hhist. apply in_or_app. right. exact Ht. }
    unfold inWindow. apply andb_true_iff.
    split; [apply Z.leb_le | apply Z.ltb_lt]; lia. }
  unfold countIn in *. lia.
Qed.

(** After any sequence of sequential calls on a limiter with
    [maxRequests >= 1], [getStats] read at that moment or later reports a
    current count between 0 and [maxRequests]. *)
Theorem getStats_within_limit :
  forall (cfg : RateLimiterConfig) (cs : list call)
         (start : Z) (lags : list nat),
    1 <= maxRequests cfg ->
    exists e l,
      performAll cfg cs
        {| clock := start; lag := lags; calls := O; log := [] |} create
      = Some (e, l) /\
      forall now, clock e <= now ->
        0 <= currentRequests (getStats cfg now l) <= maxRequests cfg.
Proof.
  intros cfg cs start lags Hmax.
  destruct (performAll_total cfg cs
              {| clock := start; lag := lags; calls := O; log := [] |} create)
    as [e [l Hrun]].
  exists e, l. split; [exact Hrun|].
  assert (HI : EInv cfg e l).
  { eapply performAll_Inv; [exact Hmax| |exact Hrun].
    unfold EInv. simpl. apply Inv_create. lia. }
  intros now Hnow. eapply getStats_bounded; eauto.
Qed.

Lemma getStats_within_limit_witness :
  exists e l,
    performAll personalLimits [CallCheckLimit; CallCheckLimit]
      {| clock := 1700000000000; lag := [5%nat]; calls := O; log := [] |}
      create
    = Some (e, l) /\
    forall now, clock e <= now ->
      0 <= currentRequests (getStats personalLimits now l)
        <= maxRequests personalLimits.
Proof.
  apply (getStats_within_limit personalLimits
           [CallCheckLimit; CallCheckLimit] 1700000000000 [5%nat]).
  simpl. lia.
Defined.

Lemma StronglySorted_split (xs ys : list Z) :
  StronglySorted Z.le (xs ++ ys) ->
  StronglySorted Z.le ys /\
  forall x y, In x xs -> In y ys -> x <= y.
Proof.
  induction xs as [|a xs IH]; simpl; intros Hs.
  - split; [exact Hs | intros x y []].
  - inversion Hs as [|? ? Hs' Hall]; subst.
    destruct (IH Hs') as [Hys Hcross]. split; [exact Hys|].
    intros x y [<- | Hx] Hy; [|auto].
    rewrite Forall_forall in Hall. apply Hall.
    apply in_or_app. right. exact Hy.
Qed.

(** In a sorted history whose windows are within the limit, any two
    registrations with at least [maxRequests - 1] others between them are
    at least one window apart. *)
Lemma spacing_of_invariant (cfg : RateLimiterConfig) (hist : list Z) :
  StronglySorted Z.le hist ->
  (forall a, countIn cfg a hist <= maxRequests cfg) ->
  forall pre a mid b post,
    hist = pre ++ a :: mid ++ b :: post ->
    maxRequests cfg <= Z.of_nat (length mid) + 1 ->
    a + windowMs cfg <= b.
Proof.
  intros Hsorted Hwin pre a mid b post Hhist Hmany.
  destruct (Z_le_gt_dec (a + windowMs cfg) b) as [Hok | Hclose];
    [exact Hok | exfalso].
  subst hist.
  apply StronglySorted_split in Hsorted. destruct Hsorted as [Hs _].
  inversion Hs as [|? ? Hs1 Hall1]; subst.
  apply StronglySorted_split in Hs1 as Hs2. destruct Hs2 as [Hs2 Hcross].
  specialize (Hwin a).
  rewrite countIn_app in Hwin.
  pose proof (countIn_nonneg cfg a pre) as Hpre.
  change (a :: mid ++ b :: post) with ([a] ++ mid ++ [b] ++ post) in Hwin.
  rewrite !countIn_app in Hwin.
  pose proof (countIn_nonneg cfg a post) as Hpost.
  assert (Hab : a <= b).
  { rewrite Forall_forall in Hall1. apply Hall1.
    apply in_or_app. right. left. reflexivity. }
  assert (Ha : countIn cfg a [a] = 1).
  { unfold countIn, inWindow. simpl.
    replace (a <=? a) with true by (symmetry; apply Z.leb_le; lia).
    replace (a <? a + windowMs cfg) with true
      by (symmetry; apply Z.ltb_lt; lia).
    reflexivity. }
  assert (Hb : countIn cfg a [b] = 1).
  { unfold countIn, inWindow. simpl.
    replace (a <=? b) with true by (symmetry; apply Z.leb_le; lia).
    replace (b <? a + windowMs cfg) with true
      by (symmetry; apply Z.ltb_lt; lia).
    reflexivity. }
  assert (Hmid : countIn cfg a mid = Z.of_nat (length mid)).
  { unfold countIn. f_equal. f_equal. apply forallb_filter_id.
    apply forallb_forall. intros t Ht.
    rewrite Forall_forall in Hall1.
    assert (a <= t) by (apply Hall1; apply in_or_app; left; exact Ht).
    assert (t <= b) by (apply (Hcross t b Ht); left; reflexivity).
    unfold inWindow. apply andb_true_iff.
    split; [apply Z.leb_le | apply Z.ltb_lt]; lia. }
  lia.
Qed.

(** Throttling.  After any sequence of sequential calls on a limiter with
    [maxRequests >= 1], take two registered timestamps with at least
    [maxRequests - 1] registrations between them: the later one is at least
    [windowMs] after the earlier one.  With [maxRequests = 2] the third
    request is registered no earlier than one window after the first. *)
Theorem registrations_spaced_by_window :
  forall (cfg : RateLimiterConfig) (cs : list call)
         (start : Z) (lags : list nat),
    1 <= maxRequests cfg ->
    exists e l,
      performAll cfg cs
        {| clock := start; lag := lags; calls := O; log := [] |} create
      = Some (e, l) /\
      forall pre a mid b post,
        registeredOf (log e) = pre ++ a :: mid ++ b :: post ->
        maxRequests cfg <= Z.of_nat (length mid) + 1 ->
        a + windowMs cfg <= b.
Proof.
  intros cfg cs start lags Hmax.
  destruct (performAll_total cfg cs
              {| clock := start; lag := lags; calls := O; log := [] |} create)
    as [e [l Hrun]].
  exists e, l. split; [exact Hrun|].
  assert (HI : EInv cfg e l).
  { eapply performAll_Inv; [exact Hmax| |exact Hrun].
    unfold EInv. simpl. apply Inv_create. lia. }
  destruct HI as [_ _ Hwin Hsorted _].
  apply spacing_of_invariant; assumption.
Qed.

Lemma registrations_spaced_by_window_witness :
  exists e l,
    performAll (config 2 1000 None None)
      [CallCheckLimit; CallCheckLimit; CallCheckLimit]
      {| clock := 1700000000000; lag := [3%nat; 4%nat]; calls := O;
         log := [] |} create
    = Some (e, l) /\
    forall pre a mid b post,
      registeredOf (log e) = pre ++ a :: mid ++ b :: post ->
      maxRequests (config 2 1000 None None) <= Z.of_nat (length mid) + 1 ->
      a + windowMs (config 2 1000 None None) <= b.
Proof.
  apply (registrations_spaced_by_window (config 2 1000 None None)
           [CallCheckLimit; CallCheckLimit; CallCheckLimit]
           1700000000000 [3%nat; 4%nat]).
  simpl. lia.
Defined.

(** The wait is bounded by the window.  After any sequence of sequential
    calls on a limiter with [maxRequests >= 1], if the next pass of
    [checkLimit], at that moment or later, sends the caller to sleep, the
    wait is positive and at most [windowMs]. *)
Theorem wait_at_most_one_window :
  forall (cfg : RateLimiterConfig) (cs : list call)
         (start : Z) (lags : list nat),
    1 <= maxRequests cfg ->
    exists e l,
      performAll cfg cs
        {| clock := start; lag := lags; calls := O; log := [] |} create
      = Some (e, l) /\
      forall now waitTime l',
        clock e <= now ->
        checkLimit_once cfg now l = Sleep waitTime l' ->
        0 < waitTime <= windowMs cfg.
Proof.
  intros cfg cs start lags Hmax.
  destruct (performAll_total cfg cs
              {| clock := start; lag := lags; calls := O; log := [] |} create)
    as [e [l Hrun]].
  exists e, l. split; [exact Hrun|].
  assert (HI : EInv cfg e l).
  { eapply performAll_Inv; [exact Hmax| |exact Hrun].
    unfold EInv. simpl. apply Inv_create. lia. }
  intros now waitTime l' Hnow Hpass.
  apply checkLimit_once_Sleep in Hpass.
  destruct Hpass as [-> [_ [Hpos [oldest [rest [Hreq ->]]]]]].
  split; [exact Hpos|].
  destruct HI as [[old [Hhist _]] _ _ _ Hpast].
  destruct (purge_split cfg now l) as [removed [Hsplit _]].
  rewrite Forall_forall in Hpast.
  assert (oldest <= clock e); [|lia].
  apply Hpast. rewrite Hhist, Hsplit, Hreq.
  apply in_or_app. right. apply in_or_app. right. left. reflexivity.
Qed.

Lemma wait_at_most_one_window_witness :
  exists e l,
    performAll (config 1 1000 None None) [CallCheckLimit]
      {| clock := 1700000000000; lag := []; calls := O; log := [] |} create
    = Some (e, l) /\
    forall now waitTime l',
      clock e <= now ->
      checkLimit_once (config 1 1000 None None) now l = Sleep waitTime l' ->
      0 < waitTime <= windowMs (config 1 1000 None None).
Proof.
  apply (wait_at_most_one_window (config 1 1000 None None)
           [CallCheckLimit] 1700000000000 []).
  simpl. lia.
Defined.

Section Retries.

Variable cfg : RateLimiterConfig.
Context {T : Type}.
Variable fn : script T.

(** Retrying pays off.  If the next [k] invocations of [fn] fail with
    rate-limit failures and the one after returns [v], and [k] is at most
    [maxRetries], then [execute(fn)] returns [v], after [k + 1] invocations
    and the first [k] delays of the schedule.  The delays fall between the
    attempts: the log is made of the [k + 1] attempts in order, the delay
    [retryDelayMs * 2^i] after attempt [i], and on the clock each attempt
    is made no earlier than the one before it plus that delay, and [v] is
    returned no earlier than the last attempt. *)
Theorem execute_returns_after_rate_limit_failures :
  forall (e : Env) (l : Limiter) (k : nat) (v : T),
    Z.of_nat k <= maxRetries cfg ->
    (forall i, (i < k)%nat ->
       exists err, fn (calls e + i)%nat = inr err /\
                   isRateLimitError err = true) ->
    fn (calls e + k)%nat = inl v ->
    exists e' l' first rest,
      execute cfg fn O e l = Some (inl v, e', l') /\
      callsOf (log e') = callsOf (log e) ++ seq (calls e) (S k) /\
      backoffsOf (log e') =
        backoffsOf (log e) ++
        map (fun i => retryDelayMs cfg * 2 ^ Z.of_nat i) (seq O k) /\
      length rest = k /\
      log e' = log e ++ retryTrace cfg (calls e) O first rest /\
      spaced cfg O (snd first) rest /\
      clock e <= snd first /\
      last (map snd rest) (snd first) <= clock e'.
Proof.
  intros e l k v Hk Hfail Hok.
  destruct (execute_total cfg fn O e l) as [r [e' [l' Hrun]]].
  pose proof Hrun as Htrace. unfold execute in Htrace.
  pose proof (execute_fuel_timed cfg fn _ _ _ _ _ _ _ Htrace) as Htimed.
  apply execute_fuel_trace in Htrace.
  destruct Htrace as [n [Hcalls [Hc [Hb [Hr [Hall [_ Hlast]]]]]]].
  destruct Htimed as [first [rest [Hlog [Hsp [Hfirst [Hend Hk']]]]]].
  assert (Hn : n = k).
  { destruct (Nat.lt_trichotomy n k) as [Hlt | [Heq | Hgt]];
      [exfalso | exact Heq | exfalso].
    - destruct (Hfail n Hlt) as [err [H1 H2]].
      rewrite H1 in Hr. specialize (Hlast err Hr H2). simpl in Hlast. lia.
    - destruct (Hall k Hgt) as [err [H1 _]]. congruence. }
  subst n. exists e', l', first, rest.
  split; [rewrite Hrun, Hr, Hok; reflexivity|].
  split; [exact Hc|].
  split; [rewrite Hb, backoffSchedule_map; reflexivity|].
  split; [lia|]. split; [exact Hlog|]. split; [exact Hsp|].
  split; [exact Hfirst | exact Hend].
Qed.

(** The same count, for any bound on the number of passes. *)
Lemma execute_fuel_registers (fuel : nat) :
  forall (rc : nat) (e e' : Env) (l l' : Limiter) (r : T + thrown),
    execute_fuel fuel cfg fn rc e l = Some (r, e', l') ->
    (length (registeredOf (log e')) + length (callsOf (log e))
     = length (registeredOf (log e)) + length (callsOf (log e')))%nat.
Proof.
  induction fuel as [|fuel IH]; intros rc e e' l l' r Hrun; [discriminate|].
  simpl in Hrun.
  destruct (checkLimit cfg e l) as [[e1 l1]|] eqn:Hcheck; [|discriminate].
  apply checkLimit_log in Hcheck.
  destruct Hcheck as [_ [Hc1 [Hr1 _]]].
  unfold invoke in Hrun.
  assert (Hstop :
    (length (registeredOf (log e1 ++ [EvCall (calls e1)]))
     + length (callsOf (log e))
     = length (registeredOf (log e))
       + length (callsOf (log e1 ++ [EvCall (calls e1)])))%nat).
  { rewrite registeredOf_app, callsOf_app, Hr1, Hc1, !length_app. simpl.
    lia. }
  destruct (fn (calls e1)) as [value|error].
  - inversion Hrun; subst. exact Hstop.
  - destruct (isRateLimitError error && (Z.of_nat rc <? maxRetries cfg)).
    + apply IH in Hrun. unfold delay, elapse, record in Hrun.
      simpl in Hrun.
      repeat rewrite registeredOf_app in Hrun.
      repeat rewrite callsOf_app in Hrun.
      repeat rewrite registeredOf_app in Hstop.
      repeat rewrite callsOf_app in Hstop.
      simpl in Hrun, Hstop.
      repeat rewrite length_app in Hrun.
      repeat rewrite length_app in Hstop.
      simpl in Hrun, Hstop. lia.
    + inversion Hrun; subst. exact Hstop.
Qed.

(** Every attempt is a registered request.  When [execute] completes, with
    a value or with an error, it has registered exactly as many timestamps
    as it has invoked [fn]: no attempt goes out without passing
    [checkLimit], and no pass is spent without an attempt. *)
Theorem execute_registers_each_attempt :
  forall (rc : nat) (e e' : Env) (l l' : Limiter) (r : T + thrown),
    execute cfg fn rc e l = Some (r, e', l') ->
    (length (registeredOf (log e')) + length (callsOf (log e))
     = length (registeredOf (log e)) + length (callsOf (log e')))%nat.
Proof.
  intros rc e e' l l' r Hrun. unfold execute in Hrun.
  eapply execute_fuel_registers; eauto.
Qed.

End Retries.

Lemma execute_returns_after_rate_limit_failures_witness :
  exists e' l' first rest,
    execute personalLimits
      (fun i => if Nat.ltb i 2
                then inr (ErrorObject (JS.lit "Quota exceeded"))
                else inl 7) O
      {| clock := 1700000000000; lag := []; calls := O; log := [] |} create
    = Some (inl 7, e', l') /\
    callsOf (log e') = [] ++ seq O 3 /\
    backoffsOf (log e') =
      [] ++ map (fun i => retryDelayMs personalLimits * 2 ^ Z.of_nat i)
              (seq O 2) /\
    length rest = 2%nat /\
    log e' = [] ++ retryTrace personalLimits O O first rest /\
    spaced personalLimits O (snd first) rest /\
    1700000000000 <= snd first /\
    last (map snd rest) (snd first) <= clock e'.
Proof.
  apply (execute_returns_after_rate_limit_failures personalLimits
           (fun i => if Nat.ltb i 2
                     then inr (ErrorObject (JS.lit "Quota exceeded"))
                     else inl 7)
           {| clock := 1700000000000; lag := []; calls := O; log := [] |}
           create 2%nat 7).
  - simpl. lia.
  - intros i Hi. exists (ErrorObject (JS.lit "Quota exceeded")).
    simpl. destruct i as [|[|i]]; [split; reflexivity..|lia].
  - reflexivity.
Defined.

Lemma execute_registers_each_attempt_witness :
  exists (r : Z + thrown) (e' : Env) (l' : Limiter),
    execute personalLimits (fun _ => inl 1%Z) O
      {| clock := 1700000000000; lag := []; calls := O; log := [] |} create
    = Some (r, e', l') /\
    (length (registeredOf (log e')) + 0 = 0 + length (callsOf (log e')))%nat.
Proof.
  destruct (execute_total personalLimits (fun _ => inl 1%Z : Z + thrown) O
              {| clock := 1700000000000; lag := []; calls := O; log := [] |}
              create) as [r [e' [l' H]]].
  exists r, e', l'. split; [exact H|].
  exact (execute_registers_each_attempt personalLimits _ _ _ _ _ _ _ H).
Defined.

End RateLimiterUsage.

(* ------------------------------------------------------------------ *)
(** ** Path security: existing files, output paths, directories, types *)
(* ------------------------------------------------------------------ *)

Module PathSecurityMore.

Import JS Validator PathSecurity PathSecurityFacts.

(** What [checkExisting] has verified when it returns. *)
Lemma checkExisting_verified (h : Host) (fs : FileSystem) (inputPath : jsvalue)
  (realPath p : jsstring) (opts : Options) :
  checkExisting h fs inputPath realPath opts = Returned p ->
  exists stats,
    stat fs realPath = Some stats /\
    isFile stats = true /\
    (orDefault (maxSize opts) 10485760 = 0 \/
     size stats <= orDefault (maxSize opts) 10485760) /\
    (orDefault (requireReadable opts) true = true ->
     accessRead fs realPath = true) /\
    (orDefault (requireWritable opts) false = true ->
     accessWrite fs realPath = true) /\
    (forall e es, allowedExtensions opts = Some (e :: es) ->
       In (lowerCase h (extname h realPath))
          (map (normalizeExtension h) (e :: es))).
Proof.
  unfold checkExisting.
  destruct (stat fs realPath) as [stats|]; [|discriminate].
  destruct (negb (isFile stats)) eqn:Hfile; [discriminate|].
  destruct (negb (orDefault (maxSize opts) 10485760 =? 0)
            && (size stats >? orDefault (maxSize opts) 10485760)) eqn:Hsize;
    [discriminate|].
  destruct (match allowedExtensions opts with
            | Some (e :: es) =>
                negb (existsb (str_eqb (lowerCase h (extname h realPath)))
                        (map (normalizeExtension h) (e :: es)))
            | _ => false
            end) eqn:Hext; [discriminate|].
  destruct (orDefault (requireReadable opts) true
            && negb (accessRead fs realPath)) eqn:Hread; [discriminate|].
  destruct (orDefault (requireWritable opts) false
            && negb (accessWrite fs realPath)) eqn:Hwrite; [discriminate|].
  intros _. exists stats. split; [reflexivity|].
  split; [apply negb_false_iff; exact Hfile|].
  split.
  { apply andb_false_iff in Hsize. destruct Hsize as [H | H].
    - left. apply negb_false_iff, Z.eqb_eq in H. exact H.
    - right. pose proof (Zgt_cases (size stats)
                           (orDefault (maxSize opts) 10485760)) as Hc.
      rewrite H in Hc. exact Hc. }
  split.
  { intros Hr. rewrite Hr in Hread. simpl in Hread.
    apply negb_false_iff. exact Hread. }
  split.
  { intros Hw. rewrite Hw in Hwrite. simpl in Hwrite.
    apply negb_false_iff. exact Hwrite. }
  intros e es Hsome. rewrite Hsome in Hext.
  apply negb_false_iff, existsb_exists in Hext.
  destruct Hext as [x [Hx Heq]]. apply JSFacts.str_eqb_eq in Heq.
  rewrite Heq. exact Hx.
Qed.

(** With [mustExist] left at its default or set, a path returned by
    [resolveSafePath] is an existing regular file, no larger than [maxSize]
    (10 MiB by default, no limit when 0), readable unless [requireReadable]
    is false, writable when [requireWritable] is set, and of one of the
    allowed extensions when a non-empty list is given. *)
Theorem resolveSafePath_existing_file_checked :
  forall (h : Host) (fs : FileSystem) (inputPath : jsvalue)
         (baseDir : jsstring) (opts : Options) (p : jsstring),
    orDefault (mustExist opts) true = true ->
    resolveSafePath h fs inputPath baseDir opts = Returned p ->
    exists stats,
      stat fs p = Some stats /\
      isFile stats = true /\
      (orDefault (maxSize opts) 10485760 = 0 \/
       size stats <= orDefault (maxSize opts) 10485760) /\
      (orDefault (requireReadable opts) true = true ->
       accessRead fs p = true) /\
      (orDefault (requireWritable opts) false = true ->
       accessWrite fs p = true) /\
      (forall e es, allowedExtensions opts = Some (e :: es) ->
         In (lowerCase h (extname h p))
            (map (normalizeExtension h) (e :: es))).
Proof.
  intros h fs inputPath baseDir opts p Hmust. unfold resolveSafePath.
  destruct (falsy inputPath || notString inputPath); [discriminate|].
  destruct inputPath as [| |b|n|path|]; try discriminate.
  cbv zeta. rewrite Hmust.
  destruct (realpath fs baseDir) as [realBaseDir|]; [|discriminate].
  destruct (realpath fs (resolve h baseDir (normalize h path)))
    as [realPath|]; [|discriminate].
  destruct (negb (within h realBaseDir realPath)); [discriminate|].
  intros Hret. pose proof (checkExisting_returns _ _ _ _ _ _ Hret) as ->.
  eapply checkExisting_verified. exact Hret.
Qed.

Lemma resolveSafePath_existing_file_checked_witness :
  exists stats,
    stat exampleFs (lit "/work/notes.txt") = Some stats /\
    isFile stats = true /\
    (orDefault (maxSize noOptions) 10485760 = 0 \/
     size stats <= orDefault (maxSize noOptions) 10485760) /\
    (orDefault (requireReadable noOptions) true = true ->
     accessRead exampleFs (lit "/work/notes.txt") = true) /\
    (orDefault (requireWritable noOptions) false = true ->
     accessWrite exampleFs (lit "/work/notes.txt") = true) /\
    (forall e es, allowedExtensions noOptions = Some (e :: es) ->
       In (lowerCase exampleHost (extname exampleHost (lit "/work/notes.txt")))
          (map (normalizeExtension exampleHost) (e :: es))).
Proof.
  apply (resolveSafePath_existing_file_checked exampleHost exampleFs
           (JSString (lit "notes.txt")) (lit "/work") noOptions
           (lit "/work/notes.txt")).
  - reflexivity.
  - vm_compute. reflexivity.
Defined.

(** *** The sanitized file name *)

Lemma hasDotDot_false (s : jsstring) :
  hasDotDot s = false ->
  forall pre post, s <> pre ++ 46%N :: 46%N :: post.
Proof.
  induction s as [|c s IH]; intros Hs pre post Heq.
  - destruct pre; discriminate.
  - destruct pre as [|p pre]; simpl in Heq; inversion Heq; subst.
    + simpl in Hs. discriminate.
    + simpl in Hs. destruct (pre ++ 46%N :: 46%N :: post) as [|d r] eqn:E.
      * destruct pre; discriminate.
      * apply orb_false_iff in Hs. destruct Hs as [_ Hs].
        apply (IH Hs pre post). symmetry. exact E.
Qed.

Lemma replaceDotDot_clean_aux (n : nat) :
  forall s, (length s <= n)%nat ->
    hasDotDot (replaceDotDot s) = false /\
    (forall r, replaceDotDot s = 46%N :: r ->
       s = [46%N] \/ exists d rest, s = 46%N :: d :: rest /\ d <> 46%N).
Proof.
  induction n as [|n IH]; intros s Hlen.
  - destruct s; [|simpl in Hlen; lia]. simpl. split; [reflexivity|].
    intros r H. discriminate.
  - destruct s as [|c [|d rest]].
    + simpl. split; [reflexivity | intros r H; discriminate].
    + simpl. split; [reflexivity|]. intros r H. inversion H. auto.
    + simpl in Hlen.
      destruct (IH rest ltac:(lia)) as [IH1 _].
      destruct (IH (d :: rest) ltac:(simpl; lia)) as [IH2 IH2hd].
      change (replaceDotDot (c :: d :: rest))
        with (if N.eqb c 46 && N.eqb d 46 then 95%N :: replaceDotDot rest
              else c :: replaceDotDot (d :: rest)).
      destruct (N.eqb c 46 && N.eqb d 46) eqn:E.
      * split.
        -- change (hasDotDot (95%N :: replaceDotDot rest))
             with (match replaceDotDot rest with
                   | x :: _ => (N.eqb 95 46 && N.eqb x 46)
                               || hasDotDot (replaceDotDot rest)
                   | [] => false
                   end).
           destruct (replaceDotDot rest); [reflexivity | exact IH1].
        -- intros r H. discriminate.
      * split.
        -- change (hasDotDot (c :: replaceDotDot (d :: rest)))
             with (match replaceDotDot (d :: rest) with
                   | x :: _ => (N.eqb c 46 && N.eqb x 46)
                               || hasDotDot (replaceDotDot (d :: rest))
                   | [] => false
                   end).
           destruct (replaceDotDot (d :: rest)) as [|x r] eqn:Er;
             [reflexivity|].
           rewrite IH2, orb_false_r.
           destruct (N.eqb_spec c 46) as [-> | Hc]; [|reflexivity].
           destruct (N.eqb_spec x 46) as [-> | Hx]; [|reflexivity].
           simpl in E.
           destruct (IH2hd r eq_refl) as [H | [d' [rest' [H Hd']]]];
             inversion H; subst; rewrite N.eqb_refl in E; discriminate.
        -- intros r H. inversion H; subst. right.
           exists d, rest. split; [reflexivity|].
           intros ->. simpl in E. discriminate.
Qed.

Lemma replaceDotDot_clean (s : jsstring) :
  hasDotDot (replaceDotDot s) = false.
Proof. apply (replaceDotDot_clean_aux (length s) s). lia. Qed.

Lemma replaceDotDot_elements (s : jsstring) (c : N) :
  In c (replaceDotDot s) -> c = 95%N \/ In c s.
Proof.
  remember (length s) as n eqn:Hn. revert s Hn.
  induction n as [n IH] using lt_wf_ind. intros s Hn Hin.
  destruct s as [|a [|b rest]]; [destruct Hin | right; exact Hin |].
  change (replaceDotDot (a :: b :: rest))
    with (if N.eqb a 46 && N.eqb b 46 then 95%N :: replaceDotDot rest
          else a :: replaceDotDot (b :: rest)) in Hin.
  destruct (N.eqb a 46 && N.eqb b 46).
  - destruct Hin as [<- | Hin]; [left; reflexivity|].
    destruct (IH (length rest) ltac:(subst; simpl; lia) rest eq_refl Hin)
      as [H | H]; [left; exact H | right; simpl; auto].
  - destruct Hin as [<- | Hin]; [right; left; reflexivity|].
    destruct (IH (length (b :: rest)) ltac:(subst; simpl; lia)
                (b :: rest) eq_refl Hin)
      as [H | H]; [left; exact H | right; right; exact H].
Qed.

Lemma segment_refl (s : jsstring) : segment s s.
Proof. exists [], []. rewrite app_nil_r. reflexivity. Qed.

Lemma segment_trans (a b c : jsstring) :
  segment a b -> segment b c -> segment a c.
Proof.
  intros [x [y ->]] [u [v ->]]. exists (u ++ x), (y ++ v).
  rewrite <- !app_assoc. reflexivity.
Qed.

Lemma trimStart_segment (s : jsstring) : segment (trimStart s) s.
Proof.
  induction s as [|c s IH]; simpl; [apply segment_refl|].
  destruct (isWhiteSpace c); [|apply segment_refl].
  destruct IH as [x [y Heq]]. exists (c :: x), y. simpl. rewrite <- Heq.
  reflexivity.
Qed.

Lemma segment_rev (a b : jsstring) : segment a b -> segment (rev a) (rev b).
Proof.
  intros [x [y ->]]. exists (rev y), (rev x).
  rewrite !rev_app_distr, <- app_assoc. reflexivity.
Qed.

Lemma trim_segment (s : jsstring) : segment (trim s) s.
Proof.
  unfold trim, trimEnd.
  eapply segment_trans; [|apply trimStart_segment].
  pose proof (segment_rev _ _ (trimStart_segment (rev (trimStart s)))) as H.
  rewrite rev_involutive in H. exact H.
Qed.

Lemma dropDots_segment (s : jsstring) : segment (dropDots s) s.
Proof.
  induction s as [|c s IH]; simpl; [apply segment_refl|].
  destruct (N.eqb c 46); [|apply segment_refl].
  destruct IH as [x [y Heq]]. exists (c :: x), y. simpl. rewrite <- Heq.
  reflexivity.
Qed.

Lemma dropDots_head (s : jsstring) :
  match dropDots s with c :: _ => c <> 46%N | [] => True end.
Proof.
  induction s as [|c s IH]; simpl; [exact I|].
  destruct (N.eqb_spec c 46); [exact IH | assumption].
Qed.

Lemma segment_no_dotdot (s t : jsstring) :
  segment s t ->
  (forall pre post, t <> pre ++ 46%N :: 46%N :: post) ->
  forall pre post, s <> pre ++ 46%N :: 46%N :: post.
Proof.
  intros [x [y ->]] Ht pre post ->.
  apply (Ht (x ++ pre) (post ++ y)).
  rewrite <- !app_assoc. reflexivity.
Qed.

Lemma segment_Forall (P : N -> Prop) (s t : jsstring) :
  segment s t -> Forall P t -> Forall P s.
Proof.
  intros [x [y ->]] H. apply Forall_app in H. destruct H as [_ H].
  apply Forall_app in H. tauto.
Qed.

(** Whatever the file name, its sanitized form holds none of the replaced
    characters (among them both path separators, the colon and the control
    characters) and nowhere two dots in a row. *)
Theorem sanitizeFilename_safe :
  forall name : jsstring,
    Forall (fun c => isDangerous c = false) (sanitizeFilename name) /\
    (forall c, In c (sanitizeFilename name) -> c <> 47%N /\ c <> 92%N) /\
    (forall pre post,
       sanitizeFilename name <> pre ++ 46%N :: 46%N :: post).
Proof.
  intros name. unfold sanitizeFilename.
  set (x0 := replaceDangerous name).
  set (x1 := replaceDotDot x0).
  set (x2 := replaceLeadingDots x1).
  assert (H0 : Forall (fun c => isDangerous c = false) x0).
  { unfold x0, replaceDangerous. apply Forall_forall. intros c Hc.
    apply in_map_iff in Hc. destruct Hc as [a [<- _]].
    destruct (isDangerous a) eqn:E; [reflexivity | exact E]. }
  assert (H1 : Forall (fun c => isDangerous c = false) x1).
  { apply Forall_forall. intros c Hc.
    apply replaceDotDot_elements in Hc. destruct Hc as [-> | Hc];
      [reflexivity|]. rewrite Forall_forall in H0. auto. }
  assert (D1 : forall pre post, x1 <> pre ++ 46%N :: 46%N :: post).
  { apply hasDotDot_false. apply replaceDotDot_clean. }
  assert (H2 : Forall (fun c => isDangerous c = false) x2).
  { unfold x2, replaceLeadingDots. destruct x1 as [|c r]; [constructor|].
    destruct (N.eqb c 46); [|exact H1].
    constructor; [reflexivity|].
    eapply segment_Forall; [apply dropDots_segment | exact H1]. }
  assert (D2 : forall pre post, x2 <> pre ++ 46%N :: 46%N :: post).
  { unfold x2, replaceLeadingDots. destruct x1 as [|c r] eqn:E1;
      [intros pre post H; destruct pre; discriminate|].
    destruct (N.eqb c 46); [|exact D1].
    intros pre post H. destruct pre as [|p pre]; [discriminate H|].
    injection H as _ H.
    exact (segment_no_dotdot _ _ (dropDots_segment (c :: r)) D1 pre post H). }
  assert (H3 : Forall (fun c => isDangerous c = false) (trim x2)).
  { eapply segment_Forall; [apply trim_segment | exact H2]. }
  split; [exact H3|]. split.
  - intros c Hc. rewrite Forall_forall in H3. specialize (H3 c Hc).
    split; intros ->; discriminate.
  - apply (segment_no_dotdot _ _ (trim_segment x2) D2).
Qed.

(** When [createSafeOutputPath] returns, the path is the base directory
    joined with the sanitized file name and the extension (a dot put before
    it when it has none), and resolves to the resolved base directory or to
    a path under it. *)
Theorem createSafeOutputPath_contained :
  forall (h : Host) (join : jsstring -> jsstring -> jsstring)
         (cwd baseDir : jsstring) (filename : jsvalue)
         (extension p : jsstring),
    createSafeOutputPath h join cwd baseDir filename extension = Returned p ->
    exists name,
      filename = JSString name /\
      sanitizeFilename name <> [] /\
      p = join baseDir
            (sanitizeFilename name
             ++ (if startsWith extension (lit ".") then extension
                 else lit "." ++ extension)) /\
      (resolve h cwd p = resolve h cwd baseDir \/
       exists rest,
         resolve h cwd p = resolve h cwd baseDir ++ sep h ++ rest).
Proof.
  intros h join cwd baseDir filename extension p.
  unfold createSafeOutputPath.
  destruct (falsy filename || notString filename); [discriminate|].
  destruct filename as [| |b|n|name|]; try discriminate.
  cbv zeta.
  destruct (sanitizeFilename name) as [|c safe] eqn:Hsafe; [discriminate|].
  match goal with
  | |- context [within ?a ?b] => destruct (within a b) eqn:Hin
  end; [|discriminate].
  simpl. intros H. inversion H; subst p. clear H.
  exists name. split; [reflexivity|]. rewrite Hsafe.
  split; [discriminate|]. split; [reflexivity|].
  apply within_spec. exact Hin.
Qed.

Lemma createSafeOutputPath_contained_witness :
  exists name,
    JSString (lit "coder-1700000000000") = JSString name /\
    sanitizeFilename name <> [] /\
    lit "out/coder-1700000000000.md"
    = (fun b f => b ++ lit "/" ++ f) (lit "out")
        (sanitizeFilename name
         ++ (if startsWith (lit ".md") (lit ".") then lit ".md"
             else lit "." ++ lit ".md")) /\
    (resolve exampleHost (lit "/work") (lit "out/coder-1700000000000.md")
     = resolve exampleHost (lit "/work") (lit "out") \/
     exists rest,
       resolve exampleHost (lit "/work") (lit "out/coder-1700000000000.md")
       = resolve exampleHost (lit "/work") (lit "out")
         ++ sep exampleHost ++ rest).
Proof.
  apply (createSafeOutputPath_contained exampleHost
           (fun b f => b ++ lit "/" ++ f) (lit "/work") (lit "out")
           (JSString (lit "coder-1700000000000")) (lit ".md")
           (lit "out/coder-1700000000000.md")).
  vm_compute. reflexivity.
Defined.

(** *** Directories *)

(** When [ensureSafeDirectory] returns, the directory is the given path
    resolved against the base directory (the working directory when none is
    given), it could be created and is writable, and when a base directory
    was given it is that directory, resolved, or lies under it. *)
Theorem ensureSafeDirectory_contained :
  forall (h : Host) (fs : FileSystem) (ensureDir : jsstring -> bool)
         (cwd : jsstring) (dirPath : jsvalue) (baseDir : option jsstring)
         (p : jsstring),
    ensureSafeDirectory h fs ensureDir cwd dirPath baseDir = Returned p ->
    exists dir,
      dirPath = JSString dir /\ dir <> [] /\
      ensureDir p = true /\ accessWrite fs p = true /\
      match baseDir with
      | Some (c :: b) =>
          p = resolve h (c :: b) dir /\
          (p = resolve h cwd (c :: b) \/
           exists rest, p = resolve h cwd (c :: b) ++ sep h ++ rest)
      | _ => p = resolve h cwd dir
      end.
Proof.
  intros h fs ensureDir cwd dirPath baseDir p.
  unfold ensureSafeDirectory.
  destruct (falsy dirPath || notString dirPath) eqn:Hbad; [discriminate|].
  destruct dirPath as [| |b|n|dir|]; try discriminate.
  cbv zeta. intros H. exists dir. split; [reflexivity|].
  split; [intros ->; discriminate|].
  destruct baseDir as [[|c b]|].
  - destruct (ensureDir (resolve h cwd dir)
              && accessWrite fs (resolve h cwd dir)) eqn:E; [|discriminate].
    inversion H; subst. apply andb_true_iff in E. tauto.
  - destruct (negb (within h (resolve h cwd (c :: b))
                      (resolve h (c :: b) dir))) eqn:Hin; [discriminate|].
    destruct (ensureDir (resolve h (c :: b) dir)
              && accessWrite fs (resolve h (c :: b) dir)) eqn:E;
      [|discriminate].
    inversion H; subst. apply andb_true_iff in E.
    apply negb_false_iff, within_spec in Hin. tauto.
  - destruct (ensureDir (resolve h cwd dir)
              && accessWrite fs (resolve h cwd dir)) eqn:E; [|discriminate].
    inversion H; subst. apply andb_true_iff in E. tauto.
Qed.

Lemma ensureSafeDirectory_contained_witness :
  exists dir,
    JSString (lit ".gemini-flow") = JSString dir /\ dir <> [] /\
    (fun _ : jsstring => true) (lit "/work/.gemini-flow") = true /\
    accessWrite
      {| realpath := fun p => Some p;
         stat := fun _ => None;
         accessRead := fun _ => true;
         accessWrite := fun _ => true |} (lit "/work/.gemini-flow") = true /\
    lit "/work/.gemini-flow" = resolve exampleHost (lit "/work") dir.
Proof.
  apply (ensureSafeDirectory_contained exampleHost
           {| realpath := fun p => Some p;
              stat := fun _ => None;
              accessRead := fun _ => true;
              accessWrite := fun _ => true |}
           (fun _ => true) (lit "/work") (JSString (lit ".gemini-flow")) None
           (lit "/work/.gemini-flow")).
  vm_compute. reflexivity.
Defined.

(** *** File types *)

Lemma str_eqb_refl (s : jsstring) : str_eqb s s = true.
Proof. apply JSFacts.str_eqb_eq. reflexivity. Qed.

(** Every file type allowed by default has a MIME type of its own: when
    [isAllowedFileType] accepts a path against the default list,
    [getSafeMimeType] gives one of the image types, [application/pdf],
    [text/plain] or [text/markdown], never the fallback
    [application/octet-stream]. *)
Theorem allowed_types_have_mime_types :
  forall (h : Host) (filePath : jsstring),
    isAllowedFileType h filePath [] = true ->
    In (getSafeMimeType h filePath)
       [lit "image/png"; lit "image/jpeg"; lit "image/gif";
        lit "image/webp"; lit "application/pdf"; lit "text/plain";
        lit "text/markdown"] /\
    getSafeMimeType h filePath <> lit "application/octet-stream".
Proof.
  intros h filePath. unfold isAllowedFileType, getSafeMimeType. cbv zeta.
  generalize (lowerCase h (extname h filePath)). intros ext H.
  apply existsb_exists in H. destruct H as [type [Hin Heq]].
  assert (Hdot : startsWith type (lit ".") = true).
  { unfold defaultAllowed in Hin.
    repeat (destruct Hin as [<- | Hin]; [reflexivity|]). destruct Hin. }
  rewrite Hdot in Heq. apply JSFacts.str_eqb_eq in Heq. subst ext.
  unfold defaultAllowed in Hin.
  repeat (destruct Hin as [<- | Hin];
          [split; [vm_compute; tauto | vm_compute; discriminate]|]).
  destruct Hin.
Qed.

Lemma allowed_types_have_mime_types_witness :
  In (getSafeMimeType exampleHost (lit "/work/notes.txt"))
     [lit "image/png"; lit "image/jpeg"; lit "image/gif";
      lit "image/webp"; lit "application/pdf"; lit "text/plain";
      lit "text/markdown"] /\
  getSafeMimeType exampleHost (lit "/work/notes.txt")
  <> lit "application/octet-stream".
Proof.
  apply (allowed_types_have_mime_types exampleHost (lit "/work/notes.txt")).
  vm_compute. reflexivity.
Defined.

(** *** The file handed to the model by [sparc --file] *)

Lemma resolveSafePath_within (h : Host) (fs : FileSystem)
  (inputPath : jsvalue) (baseDir : jsstring) (opts : Options) (p : jsstring) :
  resolveSafePath h fs inputPath baseDir opts = Returned p ->
  exists realBaseDir,
    realpath fs baseDir = Some realBaseDir /\
    within h realBaseDir p = true.
Proof.
  unfold resolveSafePath.
  destruct (falsy inputPath || notString inputPath); [discriminate|].
  destruct inputPath as [| |b|n|path|]; try discriminate.
  cbv zeta.
  destruct (realpath fs baseDir) as [realBaseDir|];
    [|destruct (orDefault (mustExist opts) true); discriminate].
  destruct (orDefault (mustExist opts) true).
  - destruct (realpath fs (resolve h baseDir (normalize h path)))
      as [realPath|]; [|discriminate].
    destruct (within h realBaseDir realPath) eqn:Hin; [|discriminate].
    simpl. intros Hret. apply checkExisting_returns in Hret. subst p.
    exists realBaseDir. auto.
  - destruct (within h realBaseDir (resolve h baseDir (normalize h path)))
      eqn:Hin; [|discriminate].
    simpl. intros Hret. inversion Hret; subst p.
    exists realBaseDir. auto.
Qed.

(** A file that [executeSparc] attaches lies in the real working directory
    or under it, is an existing regular file of at most 10 MiB that can be
    read, and goes out with a MIME type other than the fallback. *)
Theorem attachFile_checked :
  forall (h : Host) (fs : FileSystem) (cwd : jsstring) (file : jsvalue)
         (p mime : jsstring),
    attachFile h fs cwd file = Attached p mime ->
    (exists realCwd,
        realpath fs cwd = Some realCwd /\
        (p = realCwd \/ exists rest, p = realCwd ++ sep h ++ rest)) /\
    (exists stats,
        stat fs p = Some stats /\ isFile stats = true /\
        size stats <= 10485760) /\
    accessRead fs p = true /\
    mime = getSafeMimeType h p /\
    mime <> lit "application/octet-stream".
Proof.
  intros h fs cwd file p mime. unfold attachFile.
  destruct (resolveSafePath h fs file cwd sparcFileOptions) as [q| |] eqn:Hres;
    try discriminate.
  destruct (isAllowedFileType h q []) eqn:Hallowed; [|discriminate].
  simpl. intros H. inversion H; subst. clear H.
  pose proof (resolveSafePath_within h fs file cwd sparcFileOptions p Hres)
    as Hc.
  destruct Hc as [realCwd [Hreal Hin]]. apply within_spec in Hin.
  pose proof (resolveSafePath_existing_file_checked h fs file cwd
                sparcFileOptions p eq_refl Hres) as Hx.
  destruct Hx as [stats [Hstat [Hfile [Hsize [Hread _]]]]].
  split; [exists realCwd; auto|].
  split.
  - exists stats. repeat split; auto.
    simpl in Hsize. destruct Hsize as [Hs | Hs]; [discriminate | exact Hs].
  - split; [apply Hread; reflexivity|]. split; [reflexivity|].
    apply allowed_types_have_mime_types. exact Hallowed.
Qed.

Lemma attachFile_checked_witness :
  accessRead exampleFs (lit "/work/notes.txt") = true.
Proof.
  apply (attachFile_checked exampleHost exampleFs (lit "/work")
           (JSString (lit "notes.txt")) (lit "/work/notes.txt")
           (lit "text/plain")).
  vm_compute. reflexivity.
Defined.

End PathSecurityMore.

(* ------------------------------------------------------------------ *)
(** ** Validator: trimmed results, keys, counts *)
(* ------------------------------------------------------------------ *)

Module ValidatorMore.

Import JS Validator ValidatorFacts.

Lemma trimStart_head (s : jsstring) :
  match trimStart s with
  | c :: _ => isWhiteSpace c = false
  | [] => True
  end.
Proof.
  induction s as [|c s IH]; simpl; [exact I|].
  destruct (isWhiteSpace c) eqn:E; [exact IH | exact E].
Qed.

Lemma trimStart_fixed (s : jsstring) :
  match s with c :: _ => isWhiteSpace c = false | [] => True end ->
  trimStart s = s.
Proof.
  destruct s as [|c s]; simpl; [reflexivity|]. intros ->. reflexivity.
Qed.

Lemma trimStart_suffix (s : jsstring) :
  exists ws, s = ws ++ trimStart s /\ Forall (fun c => isWhiteSpace c = true) ws.
Proof.
  induction s as [|c s IH]; simpl.
  - exists []. split; [reflexivity | constructor].
  - destruct (isWhiteSpace c) eqn:E.
    + destruct IH as [ws [Heq Hall]]. exists (c :: ws).
      split; [simpl; rewrite <- Heq; reflexivity | constructor; assumption].
    + exists []. split; [reflexivity | constructor].
Qed.

(** The first and the last character of a trimmed string are not white
    space. *)
Lemma trim_ends (s : jsstring) :
  match trim s with c :: _ => isWhiteSpace c = false | [] => True end /\
  match rev (trim s) with c :: _ => isWhiteSpace c = false | [] => True end.
Proof.
  unfold trim, trimEnd.
  set (t := trimStart s).
  set (u := trimStart (rev t)).
  split.
  - destruct (trimStart_suffix (rev t)) as [ws [Heq _]]. fold u in Heq.
    assert (Ht : t = rev u ++ rev ws).
    { rewrite <- (rev_involutive t), Heq, rev_app_distr. reflexivity. }
    pose proof (trimStart_head s) as Hhead. fold t in Hhead.
    destruct (rev u) as [|c r] eqn:Er; [exact I|].
    rewrite Ht in Hhead. exact Hhead.
  - rewrite rev_involutive. apply trimStart_head.
Qed.

Lemma trim_fixed (s : jsstring) :
  match s with c :: _ => isWhiteSpace c = false | [] => True end ->
  match rev s with c :: _ => isWhiteSpace c = false | [] => True end ->
  trim s = s.
Proof.
  intros H1 H2. unfold trim, trimEnd.
  rewrite (trimStart_fixed s H1), (trimStart_fixed (rev s) H2).
  apply rev_involutive.
Qed.

(** Trimming twice is trimming once. *)
Lemma trim_idempotent (s : jsstring) : trim (trim s) = trim s.
Proof. destruct (trim_ends s). apply trim_fixed; assumption. Qed.

(** A description that [validateTaskDescription] returns is in normal form:
    it has between 1 and 10 000 characters, neither begins nor ends with
    white space, matches none of the five patterns, and validating it again
    returns it unchanged. *)
Theorem validateTaskDescription_normal_form :
  forall (d : jsvalue) (out : jsstring),
    validateTaskDescription d = inl out ->
    1 <= Z.of_nat (length out) <= 10000 /\
    match out with c :: _ => isWhiteSpace c = false | [] => True end /\
    match rev out with c :: _ => isWhiteSpace c = false | [] => True end /\
    (forall pattern, In pattern suspiciousPatterns ->
                     test pattern out = false) /\
    validateTaskDescription (JSString out) = inl out.
Proof.
  intros d out Hout.
  destruct d as [| |b|n|s|]; try discriminate.
  - unfold validateTaskDescription in Hout. simpl in Hout.
    destruct (negb b || true); discriminate.
  - unfold validateTaskDescription in Hout. simpl in Hout.
    rewrite orb_true_r in Hout. discriminate.
  - destruct s as [|c s]; [discriminate|].
    rewrite validateTaskDescription_string in Hout. cbv zeta in Hout.
    destruct (Nat.eqb (length (trim (c :: s))) 0) eqn:Hlen0; [discriminate|].
    destruct (10000 <? Z.of_nat (length (trim (c :: s)))) eqn:Hlen;
      [discriminate|].
    destruct (existsb (fun pattern => test pattern (trim (c :: s)))
                suspiciousPatterns) eqn:Hpat; [discriminate|].
    inversion Hout; subst out. clear Hout.
    apply Nat.eqb_neq in Hlen0. apply Z.ltb_ge in Hlen.
    destruct (trim_ends (c :: s)) as [He1 He2].
    split; [lia|]. split; [exact He1|]. split; [exact He2|].
    assert (Hnone : forall pattern, In pattern suspiciousPatterns ->
                                    test pattern (trim (c :: s)) = false).
    { intros pattern Hin.
      destruct (test pattern (trim (c :: s))) eqn:E; [|reflexivity].
      assert (existsb (fun pattern => test pattern (trim (c :: s)))
                suspiciousPatterns = true); [|congruence].
      apply existsb_exists. exists pattern. auto. }
    split; [exact Hnone|].
    destruct (trim (c :: s)) as [|t ts] eqn:Htrim; [simpl in Hlen0; lia|].
    rewrite validateTaskDescription_string. cbv zeta.
    rewrite <- Htrim, trim_idempotent, Htrim.
    change (Nat.eqb (length (t :: ts)) 0) with false. cbv iota.
    replace (10000 <? Z.of_nat (length (t :: ts))) with false
      by (symmetry; apply Z.ltb_ge; exact Hlen).
    rewrite <- Htrim in Hpat |- *. rewrite Hpat. reflexivity.
Qed.

Lemma validateTaskDescription_normal_form_witness :
  validateTaskDescription (JSString (lit "Build a REST API"))
  = inl (lit "Build a REST API").
Proof.
  apply (validateTaskDescription_normal_form
           (JSString (lit "  Build a REST API  ")) (lit "Build a REST API")).
  vm_compute. reflexivity.
Defined.

Lemma isKeyChar_not_space (c : N) :
  isKeyChar c = true -> isWhiteSpace c = false.
Proof.
  unfold isKeyChar, isWhiteSpace. intros H.
  repeat match goal with
         | H : (_ || _) = true |- _ => apply orb_true_iff in H; destruct H as [H | H]
         | H : (_ && _) = true |- _ => let H1 := fresh in let H2 := fresh in
                                       apply andb_true_iff in H; destruct H as [H1 H2]
         | H : (_ <=? _)%N = true |- _ => apply N.leb_le in H
         | H : (_ =? _)%N = true |- _ => apply N.eqb_eq in H
         end;
    repeat match goal with
           | |- (_ || _) = false => apply orb_false_iff; split
           | |- (_ && _) = false =>
               apply andb_false_iff;
               first [left; apply N.leb_gt; lia | right; apply N.leb_gt; lia]
           | |- (_ =? _)%N = false => apply N.eqb_neq; lia
           end.
Qed.

(** A key that [validateApiKey] returns is the trimmed input, has between 10
    and 200 characters, all of them letters, digits, [-], [_] or [.], and
    validates to itself. *)
Theorem validateApiKey_normal_form :
  forall (apiKey : jsvalue) (key : jsstring),
    validateApiKey apiKey = inl key ->
    (exists s, apiKey = JSString s /\ key = trim s) /\
    10 <= Z.of_nat (length key) <= 200 /\
    Forall (fun c => isKeyChar c = true) key /\
    validateApiKey (JSString key) = inl key.
Proof.
  intros apiKey key Hkey.
  assert (Hshape : forall s,
    validateApiKey (JSString s) = inl key ->
    key = trim s /\ 10 <= Z.of_nat (length key) <= 200 /\
    Forall (fun c => isKeyChar c = true) key).
  { intros s. unfold validateApiKey.
    destruct (falsy (JSString s) || notString (JSString s)); [discriminate|].
    cbv zeta.
    destruct (Z.of_nat (length (trim s)) <? 10) eqn:H1; [discriminate|].
    destruct (200 <? Z.of_nat (length (trim s))) eqn:H2; [discriminate|].
    destruct (trim s) as [|t ts] eqn:Htrim; [discriminate|].
    destruct (forallb isKeyChar (t :: ts)) eqn:H3; [|discriminate].
    simpl. intros H. inversion H; subst key.
    apply Z.ltb_ge in H1, H2. split; [reflexivity|]. split; [lia|].
    apply Forall_forall. apply forallb_forall. exact H3. }
  destruct apiKey as [| |b|n|s|]; try discriminate.
  - unfold validateApiKey in Hkey. simpl in Hkey.
    destruct (negb b || true); discriminate.
  - unfold validateApiKey in Hkey. simpl in Hkey.
    rewrite orb_true_r in Hkey. discriminate.
  - destruct (Hshape s Hkey) as [Heq [Hlen Hchars]].
    split; [exists s; auto|]. split; [exact Hlen|]. split; [exact Hchars|].
    assert (Htrim : trim key = key).
    { rewrite Heq. apply trim_idempotent. }
    destruct key as [|k ks]; [simpl in Hlen; lia|].
    unfold validateApiKey. simpl falsy. simpl notString. cbv iota zeta.
    simpl orb. cbv iota. rewrite Htrim.
    replace (Z.of_nat (length (k :: ks)) <? 10) with false
      by (symmetry; apply Z.ltb_ge; lia).
    replace (200 <? Z.of_nat (length (k :: ks))) with false
      by (symmetry; apply Z.ltb_ge; lia).
    replace (forallb isKeyChar (k :: ks)) with true; [reflexivity|].
    symmetry. apply forallb_forall. apply Forall_forall. exact Hchars.
Qed.

Lemma validateApiKey_normal_form_witness :
  validateApiKey (JSString (lit "abcd1234567890abcd1234567890"))
  = inl (lit "abcd1234567890abcd1234567890").
Proof.
  apply (validateApiKey_normal_form
           (JSString (lit "  abcd1234567890abcd1234567890  "))
           (lit "abcd1234567890abcd1234567890")).
  vm_compute. reflexivity.
Defined.

(** [validateParallelCount] returns only counts from 1 to 20: a number is
    returned exactly when it lies in that range, and a string when the
    integer that [parseInt] reads at its start does. *)
Theorem validateParallelCount_range :
  forall (count : countArg),
    (forall n, validateParallelCount count = inl n ->
       1 <= n <= 20 /\
       match count with
       | CountNumber m => m = n
       | CountString s => parseInt10 s = Some n
       end) /\
    (forall n, 1 <= n <= 20 ->
       (count = CountNumber n \/
        exists s, count = CountString s /\ parseInt10 s = Some n) ->
       validateParallelCount count = inl n).
Proof.
  intros count. split.
  - intros n. unfold validateParallelCount.
    destruct (match count with
              | CountString s => parseInt10 s
              | CountNumber n0 => Some n0
              end) as [num|] eqn:Hnum; [|discriminate].
    destruct (num <? 1) eqn:H1; [discriminate|].
    destruct (20 <? num) eqn:H2; [discriminate|].
    intros H. inversion H; subst num.
    apply Z.ltb_ge in H1, H2. split; [lia|].
    destruct count; [exact Hnum | inversion Hnum; reflexivity].
  - intros n Hn Hcount. unfold validateParallelCount.
    assert (Hnum : match count with
                   | CountString s => parseInt10 s
                   | CountNumber n0 => Some n0
                   end = Some n).
    { destruct Hcount as [-> | [s [-> Hs]]]; [reflexivity | exact Hs]. }
    rewrite Hnum.
    replace (n <? 1) with false by (symmetry; apply Z.ltb_ge; lia).
    replace (20 <? n) with false by (symmetry; apply Z.ltb_ge; lia).
    reflexivity.
Qed.

Lemma validateParallelCount_range_witness :
  1 <= 10 <= 20 /\ parseInt10 (lit " 10 agents") = Some 10.
Proof.
  apply (proj1 (validateParallelCount_range
                  (CountString (lit " 10 agents"))) 10).
  vm_compute. reflexivity.
Defined.

(** ** What the four plain patterns find *)

Lemma searchRe_complete (r : regex) (fuel : nat) (pre : jsstring) :
  forall prev s',
    (forall p, matchRe r fuel p s' (fun _ _ => true) = true) ->
    searchRe r fuel prev (pre ++ s') = true.
Proof.
  induction pre as [|c pre IH]; intros prev s' H.
  - destruct s'; simpl; rewrite H; reflexivity.
  - simpl.
    destruct (matchRe r fuel prev (c :: pre ++ s') (fun _ _ => true));
      [reflexivity|].
    apply IH, H.
Qed.

Lemma searchRe_sound (r : regex) (fuel : nat) :
  forall s prev,
    searchRe r fuel prev s = true ->
    exists pre s' p,
      s = pre ++ s' /\ matchRe r fuel p s' (fun _ _ => true) = true.
Proof.
  induction s as [|c s IH]; intros prev H; simpl in H.
  - destruct (matchRe r fuel prev [] (fun _ _ => true)) eqn:E;
      [|discriminate].
    exists [], [], prev. auto.
  - destruct (matchRe r fuel prev (c :: s) (fun _ _ => true)) eqn:E.
    + exists [], (c :: s), prev. auto.
    + destruct (IH _ H) as (pre & s' & p & -> & Hm).
      exists (c :: pre), s', p. auto.
Qed.

Lemma matchRe_literal_complete (tail : regex) (fuel : nat)
  (k : option N -> jsstring -> bool) (rest : jsstring) :
  (forall p, matchRe tail fuel p rest k = true) ->
  forall chars mid prev,
    map canon mid = map canon chars ->
    matchRe (literal chars tail) fuel prev (mid ++ rest) k = true.
Proof.
  intros Hk. induction chars as [|c chars IH]; intros mid prev Heq.
  - destruct mid; [|discriminate]. apply Hk.
  - destruct mid as [|m mid]; [discriminate|].
    cbn [map] in Heq. injection Heq as Hc Hrest.
    cbn [literal matchRe app]. rewrite Hc, N.eqb_refl. apply IH, Hrest.
Qed.

Lemma matchRe_literal_sound (tail : regex) (fuel : nat)
  (k : option N -> jsstring -> bool) :
  forall chars s prev,
    matchRe (literal chars tail) fuel prev s k = true ->
    exists mid rest p,
      s = mid ++ rest /\ map canon mid = map canon chars /\
      matchRe tail fuel p rest k = true.
Proof.
  induction chars as [|c chars IH]; intros s prev H.
  - exists [], s, prev. auto.
  - cbn [literal matchRe] in H. destruct s as [|d s]; [discriminate|].
    destruct (N.eqb_spec (canon d) (canon c)) as [E|E]; [|discriminate].
    destruct (IH _ _ H) as (mid & rest & p & -> & Hm & Ht).
    exists (d :: mid), rest, p. cbn [map app]. rewrite E, Hm. auto.
Qed.

(** The greedy star over white space runs through any run of white space
    that the fuel covers. *)
Lemma star_space_complete (fuel : nat) (k : option N -> jsstring -> bool)
  (rest : jsstring) :
  (forall p, k p rest = true) ->
  forall ws n prev,
    Forall (fun c => isWhiteSpace c = true) ws ->
    (length ws <= n)%nat ->
    (fix iterate (n : nat) (prev : option N) (s : jsstring) : bool :=
       match n with
       | O => k prev s
       | S n' =>
           if matchRe Space fuel prev s (iterate n') then true else k prev s
       end) n prev (ws ++ rest) = true.
Proof.
  intros Hk. induction ws as [|w ws IH]; intros n prev Hws Hlen.
  - destruct n; cbn [app]; rewrite Hk; [reflexivity|].
    match goal with |- (if ?b then true else true) = true =>
      destruct b; reflexivity end.
  - destruct n; [simpl in Hlen; lia|].
    inversion Hws as [|? ? Hw Hws']; subst.
    cbn [app matchRe]. rewrite Hw.
    rewrite IH; [reflexivity | assumption | simpl in Hlen; lia].
Qed.

Lemma star_space_sound (fuel : nat) (k : option N -> jsstring -> bool) :
  forall n prev s,
    (fix iterate (n : nat) (prev : option N) (s : jsstring) : bool :=
       match n with
       | O => k prev s
       | S n' =>
           if matchRe Space fuel prev s (iterate n') then true else k prev s
       end) n prev s = true ->
    exists ws rest p,
      s = ws ++ rest /\ Forall (fun c => isWhiteSpace c = true) ws /\
      k p rest = true.
Proof.
  induction n as [|n IH]; intros prev s H.
  - exists [], s, prev. auto.
  - cbn [matchRe] in H.
    destruct s as [|d s].
    + exists [], [], prev. auto.
    + destruct (isWhiteSpace d) eqn:Hd.
      * match type of H with
        | (if ?b then true else _) = true => destruct b eqn:Hb
        end.
        -- destruct (IH _ _ Hb) as (ws & rest & p & -> & Hws & Hk).
           exists (d :: ws), rest, p. auto.
        -- exists [], (d :: s), prev. auto.
      * exists [], (d :: s), prev. auto.
Qed.

Lemma canon_paren (d : N) : canon d = 40%N -> d = 40%N.
Proof.
  unfold canon.
  destruct ((97 <=? d)%N && (d <=? 122)%N) eqn:E; [|auto].
  apply andb_true_iff in E. destruct E as [E1 E2].
  apply N.leb_le in E1, E2. lia.
Qed.

Lemma sameIgnoringCase_snoc (chars : jsstring) (c : N) :
  forall mid,
    sameIgnoringCase mid (chars ++ [c]) ->
    exists mid' d,
      mid = mid' ++ [d] /\ sameIgnoringCase mid' chars /\ canon d = canon c.
Proof.
  unfold sameIgnoringCase.
  induction chars as [|a chars IH]; intros mid H.
  - destruct mid as [|d [|? ?]]; try discriminate.
    injection H as H. exists [], d. auto.
  - destruct mid as [|m mid]; [discriminate|].
    cbn [app map] in H. injection H as Hm H.
    destruct (IH _ H) as (mid' & d & -> & Hmid & Hd).
    exists (m :: mid'), d. cbn [app map]. rewrite Hm, Hmid. auto.
Qed.

(** A literal pattern finds exactly the occurrences of its text in any
    case. *)
Lemma literal_meaning (chars : jsstring) (c : N) (s : jsstring) :
  test (literal chars (Chr c)) s = true <->
  occurs (fun mid => sameIgnoringCase mid (chars ++ [c])) s.
Proof.
  unfold test, occurs. split.
  - intros H.
    destruct (searchRe_sound _ _ _ _ H) as (pre & s' & p & Hs & Hm).
    destruct (matchRe_literal_sound _ _ _ _ _ _ Hm)
      as (mid & rest & p' & -> & Hmid & Hc).
    destruct rest as [|d post]; [discriminate|]. cbn [matchRe] in Hc.
    destruct (N.eqb_spec (canon d) (canon c)) as [E|E]; [|discriminate].
    exists pre, (mid ++ [d]), post. split.
    + rewrite Hs, <- app_assoc. reflexivity.
    + unfold sameIgnoringCase. rewrite !map_app. cbn [map].
      rewrite Hmid, E. reflexivity.
  - intros (pre & mid & post & -> & Hmid).
    destruct (sameIgnoringCase_snoc _ _ _ Hmid) as (mid' & d & -> & Hm & Hd).
    rewrite <- app_assoc. apply searchRe_complete. intros p.
    apply matchRe_literal_complete; [|exact Hm].
    intros p'. cbn [app matchRe]. rewrite Hd, N.eqb_refl. reflexivity.
Qed.

(** A pattern made of a name, [\s*] and an opening parenthesis finds
    exactly the calls of that name. *)
Lemma call_meaning (name : jsstring) (s : jsstring) :
  test (literal name (Seq (Star Space) (Chr 40))) s = true <->
  occurs (callOf name) s.
Proof.
  unfold test, occurs, callOf. split.
  - intros H.
    destruct (searchRe_sound _ _ _ _ H) as (pre & s' & p & Hs & Hm).
    destruct (matchRe_literal_sound _ _ _ _ _ _ Hm)
      as (word & rest & p' & -> & Hword & Hstar).
    destruct (star_space_sound (length s)
                (fun prev' s' =>
                   matchRe (Chr 40) (length s) prev' s' (fun _ _ => true))
                (length s) p' rest Hstar)
      as (ws & rest' & p'' & -> & Hws & Hparen).
    destruct rest' as [|d post]; [discriminate|]. cbn [matchRe] in Hparen.
    destruct (N.eqb_spec (canon d) (canon 40)) as [E|E]; [|discriminate].
    apply canon_paren in E. subst d.
    exists pre, (word ++ ws ++ [40%N]), post. split.
    + rewrite Hs, <- !app_assoc. reflexivity.
    + exists word, ws. auto.
  - intros (pre & mid & post & Hs & word & ws & -> & Hword & Hws).
    assert (Hlen : (length ws <= length s)%nat).
    { rewrite Hs, !length_app. lia. }
    set (fuel := length s) in *. clearbody fuel. subst s.
    rewrite <- !app_assoc. apply searchRe_complete. intros p.
    apply matchRe_literal_complete; [|exact Hword].
    intros p'.
    exact (star_space_complete fuel
             (fun prev' s' =>
                matchRe (Chr 40) fuel prev' s' (fun _ _ => true))
             ([40%N] ++ post) (fun _ => eq_refl) ws fuel p' Hws Hlen).
Qed.

(** The four patterns of [validateTaskDescription] without a look-ahead
    find what their text says, in any case of the letters: [javascript:],
    [data:text/html], and [eval] or [function] followed by any white space
    and an opening parenthesis. *)
Theorem suspicious_patterns_meaning :
  forall s : jsstring,
    (test javascriptPattern s = true <->
     occurs (fun mid => sameIgnoringCase mid (lit "javascript:")) s) /\
    (test dataHtmlPattern s = true <->
     occurs (fun mid => sameIgnoringCase mid (lit "data:text/html")) s) /\
    (test evalPattern s = true <-> occurs (callOf (lit "eval")) s) /\
    (test functionPattern s = true <-> occurs (callOf (lit "function")) s).
Proof.
  intros s.
  split; [apply (literal_meaning (lit "javascript") 58 s)|].
  split; [apply (literal_meaning (lit "data:text/htm") 108 s)|].
  split; [apply (call_meaning (lit "eval") s)|].
  apply (call_meaning (lit "function") s).
Qed.

Lemma accepted_matches_none (d : jsvalue) (out : jsstring) :
  validateTaskDescription d = inl out ->
  forall pattern, In pattern suspiciousPatterns -> test pattern out = false.
Proof.
  intros Hout.
  destruct d as [| |b|n|s|]; try discriminate.
  - unfold validateTaskDescription in Hout. simpl in Hout.
    destruct (negb b || true); discriminate.
  - unfold validateTaskDescription in Hout. simpl in Hout.
    rewrite orb_true_r in Hout. discriminate.
  - destruct s as [|c s]; [discriminate|].
    rewrite validateTaskDescription_string in Hout. cbv zeta in Hout.
    destruct (Nat.eqb (length (trim (c :: s))) 0); [discriminate|].
    destruct (10000 <? Z.of_nat (length (trim (c :: s)))); [discriminate|].
    destruct (existsb (fun pattern => test pattern (trim (c :: s)))
                suspiciousPatterns) eqn:Hpat; [discriminate|].
    inversion Hout; subst out.
    intros pattern Hin.
    destruct (test pattern (trim (c :: s))) eqn:E; [|reflexivity].
    assert (existsb (fun pattern => test pattern (trim (c :: s)))
              suspiciousPatterns = true); [|congruence].
    apply existsb_exists. exists pattern. auto.
Qed.

(** A description that [validateTaskDescription] returns contains, in no
    case of the letters, [javascript:] or [data:text/html], and no [eval]
    or [function] followed by any white space and an opening
    parenthesis. *)
Theorem accepted_description_free_of_injections :
  forall (d : jsvalue) (out : jsstring),
    validateTaskDescription d = inl out ->
    ~ occurs (fun mid => sameIgnoringCase mid (lit "javascript:")) out /\
    ~ occurs (fun mid => sameIgnoringCase mid (lit "data:text/html")) out /\
    ~ occurs (callOf (lit "eval")) out /\
    ~ occurs (callOf (lit "function")) out.
Proof.
  intros d out Hout.
  pose proof (accepted_matches_none d out Hout) as Hnone.
  assert (H1 : test javascriptPattern out = false)
    by (apply Hnone; simpl; auto).
  assert (H2 : test dataHtmlPattern out = false)
    by (apply Hnone; simpl; auto).
  assert (H3 : test evalPattern out = false)
    by (apply Hnone; simpl; auto).
  assert (H4 : test functionPattern out = false)
    by (apply Hnone; simpl; auto 6).
  split; [|split; [|split]]; intros Hocc.
  - apply (literal_meaning (lit "javascript") 58 out) in Hocc.
    unfold javascriptPattern in H1. congruence.
  - apply (literal_meaning (lit "data:text/htm") 108 out) in Hocc.
    unfold dataHtmlPattern in H2. congruence.
  - apply (call_meaning (lit "eval") out) in Hocc.
    unfold evalPattern in H3. congruence.
  - apply (call_meaning (lit "function") out) in Hocc.
    unfold functionPattern in H4. congruence.
Qed.

Lemma accepted_description_free_of_injections_witness :
  ~ occurs (callOf (lit "eval")) (lit "evaluate the parser (twice)").
Proof.
  apply (accepted_description_free_of_injections
           (JSString (lit " evaluate the parser (twice) "))
           (lit "evaluate the parser (twice)")).
  vm_compute. reflexivity.
Defined.

(** ** [sanitizeString]: length and plain text *)

Lemma escapeChar_length (c : N) : (length (escapeChar c) <= 6)%nat.
Proof.
  unfold escapeChar.
  repeat match goal with
         | |- context [if ?b then _ else _] => destruct b
         end; simpl; lia.
Qed.

Lemma escaped_length (xs : jsstring) :
  (length (flat_map escapeChar xs) <= 6 * length xs)%nat.
Proof.
  induction xs as [|x xs IH]; simpl; [lia|].
  rewrite length_app. pose proof (escapeChar_length x). lia.
Qed.

Lemma escapeChar_plain (c : N) : isPlain c = true -> escapeChar c = [c].
Proof.
  unfold isPlain, isMarkup, escapeChar. intros H.
  apply andb_true_iff in H. destruct H as [H H38].
  apply andb_true_iff in H. destruct H as [_ H].
  apply negb_true_iff in H, H38.
  repeat (apply orb_false_iff in H; destruct H as [H ?]).
  repeat match goal with
         | E : (_ =? _)%N = false |- _ => rewrite E; clear E
         end.
  reflexivity.
Qed.

Lemma plain_unchanged (xs : jsstring) :
  Forall (fun c => isPlain c = true) xs ->
  flat_map escapeChar (filter (fun c => negb (isControl c)) xs) = xs.
Proof.
  induction 1 as [|x xs Hx _ IH]; [reflexivity|].
  cbn [filter].
  assert (Hc : negb (isControl x) = true).
  { unfold isPlain in Hx. apply andb_true_iff in Hx. destruct Hx as [Hx _].
    apply andb_true_iff in Hx. tauto. }
  rewrite Hc. cbn [flat_map]. rewrite (escapeChar_plain x Hx), IH.
  reflexivity.
Qed.

(** With a [maxLength] that is not negative, the result of
    [sanitizeString] has at most six times [maxLength] characters: the cut
    is made before the escaping, and the longest entity has six
    characters. *)
Theorem sanitizeString_length_bound :
  forall (input : jsvalue) (maxLength : Z),
    0 <= maxLength ->
    Z.of_nat (length (sanitizeString input maxLength)) <= 6 * maxLength.
Proof.
  intros input maxLength Hmax.
  assert (Hnil : Z.of_nat (length (@nil N)) <= 6 * maxLength)
    by (cbn [length Z.of_nat]; lia).
  destruct input as [| |b|n|s|];
    try (unfold sanitizeString; simpl; exact Hnil).
  - unfold sanitizeString. simpl. destruct (negb b || true); exact Hnil.
  - unfold sanitizeString. simpl. rewrite orb_true_r. exact Hnil.
  - rewrite sanitizeString_string.
    pose proof (escaped_length
                  (filter (fun c => negb (isControl c))
                     (slice0 s maxLength))) as H1.
    pose proof (filter_length_le (fun c => negb (isControl c))
                  (slice0 s maxLength)) as H2.
    assert (H3 : (length (slice0 s maxLength) <= Z.to_nat maxLength)%nat).
    { unfold slice0.
      replace (maxLength <? 0) with false by (symmetry; apply Z.ltb_ge; lia).
      rewrite length_firstn. lia. }
    lia.
Qed.

Lemma sanitizeString_length_bound_witness :
  Z.of_nat (length (sanitizeString (JSString (lit "<<<<")) 2)) <= 6 * 2.
Proof.
  apply (sanitizeString_length_bound (JSString (lit "<<<<")) 2). lia.
Defined.

(** A string with no control character and none of the five escaped
    characters, and no longer than [maxLength], is returned unchanged. *)
Theorem sanitizeString_plain_unchanged :
  forall (s : jsstring) (maxLength : Z),
    Forall (fun c => isPlain c = true) s ->
    Z.of_nat (length s) <= maxLength ->
    sanitizeString (JSString s) maxLength = s.
Proof.
  intros s maxLength Hplain Hlen.
  rewrite sanitizeString_string.
  assert (Hslice : slice0 s maxLength = s).
  { unfold slice0.
    replace (maxLength <? 0) with false by (symmetry; apply Z.ltb_ge; lia).
    apply firstn_all2. lia. }
  rewrite Hslice. apply plain_unchanged, Hplain.
Qed.

Lemma sanitizeString_plain_unchanged_witness :
  sanitizeString (JSString (lit "Build a REST API")) 1000
  = lit "Build a REST API".
Proof.
  apply (sanitizeString_plain_unchanged (lit "Build a REST API") 1000).
  - repeat constructor.
  - vm_compute. discriminate.
Defined.

End ValidatorMore.

(* ------------------------------------------------------------------ *)
(** ** Validator: the file path check *)
(* ------------------------------------------------------------------ *)

Module ValidatorFilesFacts.

Import JS Validator PathSecurity ValidatorFiles.

(** A path that [validateFilePath] returns begins with the real path of the
    working directory (of [process.cwd()] when none or an empty one is
    given), as a string and with no separator asked for after it; the file
    is readable and has at most ten mebibytes.  The path is the real path
    of the resolved one, or the resolved one when [fs.realpath] fails on
    it. *)
Theorem validateFilePath_checked :
  forall (h : Host) (fs : FileSystem) (cwd : jsstring) (filePath : jsvalue)
         (workingDir : option jsstring) (p : jsstring),
    validateFilePath h fs cwd filePath workingDir = Valid p ->
    exists file baseDir realBaseDir tail stats,
      filePath = JSString file /\ file <> [] /\
      baseDir = match workingDir with
                | Some (c :: d) => c :: d
                | _ => cwd
                end /\
      p = match realpath fs (resolve h baseDir file) with
          | Some real => real
          | None => resolve h baseDir file
          end /\
      realpath fs baseDir = Some realBaseDir /\
      p = realBaseDir ++ tail /\
      accessRead fs p = true /\
      stat fs p = Some stats /\ size stats <= maxFileSize.
Proof.
  intros h fs cwd filePath workingDir p H.
  unfold validateFilePath in H.
  destruct filePath as [| |b|n|file|]; try discriminate.
  - simpl in H. destruct (negb b || true); discriminate.
  - simpl in H. rewrite orb_true_r in H. discriminate.
  - destruct file as [|c file]; [discriminate|].
    cbn [falsy notString orb] in H. cbv zeta in H.
    set (baseDir := match workingDir with
                    | Some (c0 :: d) => c0 :: d
                    | _ => cwd
                    end) in *.
    set (realPath := match realpath fs (resolve h baseDir (c :: file)) with
                     | Some real => real
                     | None => resolve h baseDir (c :: file)
                     end) in *.
    destruct (realpath fs baseDir) as [realBaseDir|] eqn:Hbase;
      [|discriminate].
    destruct (startsWith realPath realBaseDir) eqn:Hstart; [|discriminate].
    destruct (accessRead fs realPath) eqn:Hread; [|discriminate].
    destruct (stat fs realPath) as [stats|] eqn:Hstat; [|discriminate].
    cbn [negb] in H.
    destruct (size stats >? maxFileSize) eqn:Hsize; [discriminate|].
    inversion H; subst p.
    apply JSFacts.startsWith_spec in Hstart. destruct Hstart as [tail Htail].
    exists (c :: file), baseDir, realBaseDir, tail, stats.
    rewrite Z.gtb_ltb in Hsize. apply Z.ltb_ge in Hsize.
    repeat match goal with |- _ /\ _ => split end;
      try reflexivity; try assumption; discriminate.
Qed.

Lemma validateFilePath_checked_witness :
  exists tail, lit "/work/notes.txt" = lit "/work" ++ tail.
Proof.
  destruct (validateFilePath_checked exampleHost exampleFs (lit "/work")
              (JSString (lit "notes.txt")) None (lit "/work/notes.txt")
              eq_refl)
    as (file & baseDir & realBaseDir & tail & stats & _ & _ & -> & _
        & Hbase & Htail & _).
  injection Hbase as <-. exists tail. exact Htail.
Defined.

End ValidatorFilesFacts.
